(** * Hicu: client-side key management and encryption core

    A shallow embedding of the cryptographic core of the chat client
    (src/crypto/textEncryption.js, mediaCrypto.js, keyStorage.js,
    publicKeyManager.js, chatKeyManager.js and the message subscription of
    src/services/chatMessagesService.js) together with the properties of
    the specification that concern it.

    Conventions.
    - A byte is a [Byte.byte]; a [Uint8Array] is a [list byte].
    - A JavaScript string is the list of its UTF-16 code units ([list N],
      every unit below 65536). Identifiers that are only compared and used
      as map keys (conversation ids, e-mail addresses, field names) are
      Rocq [string]s.
    - [btoa], [atob], [TextEncoder] and [TextDecoder] are embedded as the
      platform defines them (RFC 4648 / forgiving-base64 and the UTF-8
      encoder and decoder of the Encoding standard).
    - The WebCrypto primitives (AES-GCM, RSA-OAEP, key import) are the
      fields of the class [Platform]; what a property assumes of them is a
      hypothesis of its statement.
    - Firestore, IndexedDB and [localStorage] are maps of a [World] that
      the asynchronous functions read and write; their operations do not
      fail for reasons of their own (network, quota). *)

From Stdlib Require Import NArith List Lia Bool.
From Stdlib Require Import Strings.Byte DecimalString.
From stdpp Require Import gmap strings list fin_maps.

Local Open Scope N_scope.

(** ** Bytes *)

Abbreviation byte := Byte.byte.

(** Conversion of a number to a byte, keeping the low eight bits: this is
    what storing a number into a [Uint8Array] does. *)
Definition byte_of_N (n : N) : byte :=
  match Byte.of_N (n mod 256) with
  | Some b => b
  | None => Byte.x00
  end.

Definition N_of_byte (b : byte) : N := Byte.to_N b.

#[global] Instance byte_eq_dec : EqDecision byte := Byte.byte_eq_dec.

(** ** Base64: [btoa] and [atob] *)

Module Base64.

(** The character of a six-bit value in the standard alphabet. *)
Definition char_of_sextet (s : N) : N :=
  if s <? 26 then 65 + s
  else if s <? 52 then 97 + (s - 26)
  else if s <? 62 then 48 + (s - 52)
  else if s =? 62 then 43
  else 47.

Definition sextet_of_char (c : N) : option N :=
  if (65 <=? c) && (c <=? 90) then Some (c - 65)
  else if (97 <=? c) && (c <=? 122) then Some (c - 97 + 26)
  else if (48 <=? c) && (c <=? 57) then Some (c - 48 + 52)
  else if c =? 43 then Some 62
  else if c =? 47 then Some 63
  else None.

Definition pad : N := 61.

(** The six-bit values of a byte sequence: three bytes give four values, a
    last group of one or two bytes gives two or three (RFC 4648, section 4). *)
Fixpoint sextets (bs : list byte) : list N :=
  match bs with
  | [] => []
  | [a] =>
      let n := N_of_byte a in
      [n / 4; (n mod 4) * 16]
  | [a; b] =>
      let n := N_of_byte a * 256 + N_of_byte b in
      [n / 1024; (n / 16) mod 64; (n mod 16) * 4]
  | a :: b :: c :: rest =>
      let n := N_of_byte a * 65536 + N_of_byte b * 256 + N_of_byte c in
      n / 262144 :: (n / 4096) mod 64 :: (n / 64) mod 64 :: n mod 64
        :: sextets rest
  end.

(** The [=] characters that complete the last group. *)
Fixpoint padding (bs : list byte) : list N :=
  match bs with
  | [] => []
  | [_] => [pad; pad]
  | [_; _] => [pad]
  | _ :: _ :: _ :: rest => padding rest
  end.

Definition encode (bs : list byte) : list N :=
  map char_of_sextet (sextets bs) ++ padding bs.

(** Decoding of a sequence of six-bit values; a trailing group of two or
    three values yields one or two bytes, its unused low bits dropped. *)
Fixpoint decode_sextets (ss : list N) : list byte :=
  match ss with
  | a :: b :: c :: d :: rest =>
      let n := a * 262144 + b * 4096 + c * 64 + d in
      byte_of_N (n / 65536) :: byte_of_N (n / 256) :: byte_of_N n
        :: decode_sextets rest
  | [a; b; c] =>
      let n := a * 4096 + b * 64 + c in
      [byte_of_N (n / 1024); byte_of_N (n / 4)]
  | [a; b] => [byte_of_N ((a * 64 + b) / 16)]
  | _ => []
  end.

Definition is_ascii_whitespace (c : N) : bool :=
  (c =? 9) || (c =? 10) || (c =? 12) || (c =? 13) || (c =? 32).

(** Removal of one or two trailing [=]. *)
Definition strip_padding (s : list N) : list N :=
  match rev s with
  | 61 :: 61 :: r => rev r
  | 61 :: r => rev r
  | _ => s
  end.

(** The forgiving-base64 decode that [atob] performs; [None] is the
    [InvalidCharacterError] exception. *)
Definition forgiving_decode (s : list N) : option (list byte) :=
  let s1 := List.filter (fun c => negb (is_ascii_whitespace c)) s in
  let s2 := if N.of_nat (length s1) mod 4 =? 0 then strip_padding s1 else s1 in
  if N.of_nat (length s2) mod 4 =? 1 then None
  else decode_sextets <$> mapM sextet_of_char s2.

End Base64.

(** ** JavaScript strings, [TextEncoder] and [TextDecoder] *)

(** A JavaScript string: its UTF-16 code units. *)
Abbreviation jsstring := (list N).

Module Utf.

Definition is_high_surrogate (u : N) : bool := (0xD800 <=? u) && (u <=? 0xDBFF).
Definition is_low_surrogate (u : N) : bool := (0xDC00 <=? u) && (u <=? 0xDFFF).

Definition replacement : N := 0xFFFD.
Definition bom : N := 0xFEFF.

(** The scalar values of a string: a surrogate pair is one code point, a
    surrogate that is not part of a pair becomes U+FFFD. This is the
    conversion [TextEncoder.encode] applies to its argument. *)
Fixpoint to_scalar_values (s : jsstring) : list N :=
  match s with
  | [] => []
  | u :: rest =>
      if is_high_surrogate u then
        match rest with
        | v :: rest' =>
            if is_low_surrogate v
            then 0x10000 + (u - 0xD800) * 0x400 + (v - 0xDC00) :: to_scalar_values rest'
            else replacement :: to_scalar_values rest
        | [] => [replacement]
        end
      else if is_low_surrogate u then replacement :: to_scalar_values rest
      else u :: to_scalar_values rest
  end.

(** [String.prototype.isWellFormed]: no surrogate outside a pair. *)
Fixpoint well_formed (s : jsstring) : bool :=
  match s with
  | [] => true
  | u :: rest =>
      if is_high_surrogate u then
        match rest with
        | v :: rest' => is_low_surrogate v && well_formed rest'
        | [] => false
        end
      else negb (is_low_surrogate u) && (u <? 0x10000) && well_formed rest
  end.

(** A Unicode scalar value: a code point that is not a surrogate. *)
Definition scalar (cp : N) : Prop :=
  cp < 0x110000 /\ ~ (0xD800 <= cp <= 0xDFFF).

(** The UTF-8 bytes of one scalar value. *)
Definition utf8_encode_cp (cp : N) : list byte :=
  if cp <? 0x80 then [byte_of_N cp]
  else if cp <? 0x800 then
    [byte_of_N (0xC0 + cp / 64); byte_of_N (0x80 + cp mod 64)]
  else if cp <? 0x10000 then
    [byte_of_N (0xE0 + cp / 4096); byte_of_N (0x80 + (cp / 64) mod 64);
     byte_of_N (0x80 + cp mod 64)]
  else
    [byte_of_N (0xF0 + cp / 262144); byte_of_N (0x80 + (cp / 4096) mod 64);
     byte_of_N (0x80 + (cp / 64) mod 64); byte_of_N (0x80 + cp mod 64)].

(** [new TextEncoder().encode(s)]. *)
Definition encode (s : jsstring) : list byte :=
  flat_map utf8_encode_cp (to_scalar_values s).

(** State of the UTF-8 decoder of the Encoding standard. *)
Record decoder := {
  code_point : N;
  bytes_needed : N;
  bytes_seen : N;
  lower_boundary : N;
  upper_boundary : N;
}.

Definition initial : decoder :=
  {| code_point := 0; bytes_needed := 0; bytes_seen := 0;
     lower_boundary := 0x80; upper_boundary := 0xBF |}.

(** A byte read while no sequence is open. *)
Definition lead (b : N) : list N * decoder :=
  if b <=? 0x7F then ([b], initial)
  else if (0xC2 <=? b) && (b <=? 0xDF) then
    ([], {| code_point := b mod 32; bytes_needed := 1; bytes_seen := 0;
            lower_boundary := 0x80; upper_boundary := 0xBF |})
  else if (0xE0 <=? b) && (b <=? 0xEF) then
    ([], {| code_point := b mod 16; bytes_needed := 2; bytes_seen := 0;
            lower_boundary := if b =? 0xE0 then 0xA0 else 0x80;
            upper_boundary := if b =? 0xED then 0x9F else 0xBF |})
  else if (0xF0 <=? b) && (b <=? 0xF4) then
    ([], {| code_point := b mod 8; bytes_needed := 3; bytes_seen := 0;
            lower_boundary := if b =? 0xF0 then 0x90 else 0x80;
            upper_boundary := if b =? 0xF4 then 0x8F else 0xBF |})
  else ([replacement], initial).

(** One byte: the code points emitted and the next state. A byte outside
    the boundaries ends the open sequence with U+FFFD and is read again. *)
Definition step (d : decoder) (b : N) : list N * decoder :=
  if bytes_needed d =? 0 then lead b
  else if (b <? lower_boundary d) || (upper_boundary d <? b) then
    let '(out, d') := lead b in (replacement :: out, d')
  else
    let cp := code_point d * 64 + b mod 64 in
    if bytes_seen d + 1 =? bytes_needed d then ([cp], initial)
    else ([], {| code_point := cp; bytes_needed := bytes_needed d;
                 bytes_seen := bytes_seen d + 1;
                 lower_boundary := 0x80; upper_boundary := 0xBF |}).

Fixpoint utf8_decode (d : decoder) (bs : list byte) : list N :=
  match bs with
  | [] => if bytes_needed d =? 0 then [] else [replacement]
  | b :: rest =>
      let '(out, d') := step d (N_of_byte b) in out ++ utf8_decode d' rest
  end.

(** A leading U+FEFF is dropped ([ignoreBOM] is false by default). *)
Definition strip_bom (cps : list N) : list N :=
  match cps with
  | 0xFEFF :: rest => rest
  | _ => cps
  end.

Definition units_of_code_point (cp : N) : jsstring :=
  if cp <? 0x10000 then [cp]
  else [0xD800 + (cp - 0x10000) / 0x400; 0xDC00 + (cp - 0x10000) mod 0x400].

(** [new TextDecoder().decode(bytes)]. *)
Definition decode (bs : list byte) : jsstring :=
  flat_map units_of_code_point (strip_bom (utf8_decode initial bs)).

(** Whether the string begins with U+FEFF. *)
Definition starts_with_bom (s : jsstring) : bool :=
  match s with
  | 0xFEFF :: _ => true
  | _ => false
  end.

End Utf.

(** ** Exceptions and results *)

(** The exceptions the embedded code can raise. The first three are the
    platform's [DOMException]s: [InvalidCharacterError] from [atob] and
    [btoa], [OperationError] from a failed [crypto.subtle.encrypt] or
    [decrypt] (the specification calls it [AuthenticationError] for AES-GCM
    and [KeyMismatchError] for RSA-OAEP), [DataError] from
    [crypto.subtle.importKey]. The others are the [Error]s and the
    [TypeError] of the source. *)
Inductive error :=
  | InvalidCharacterError
  | OperationError
  | DataError
  | TypeError
  | ChatNotFound
  | PublicKeyNotFound (userEmail : string)
  | PrivateKeyNotFound
  | DocumentNotFound.

Inductive result (A : Type) :=
  | Ok (a : A)
  | Err (e : error).
Arguments Ok {A} a.
Arguments Err {A} e.

#[global] Instance result_ret : MRet result := @Ok.
#[global] Instance result_bind : MBind result := fun A B f r =>
  match r with
  | Ok a => f a
  | Err e => Err e
  end.
#[global] Instance result_fmap : FMap result := fun A B f r =>
  match r with
  | Ok a => Ok (f a)
  | Err e => Err e
  end.

(** A primitive that rejects with [e] when it has no result. *)
Definition or_throw {A} (e : error) (o : option A) : result A :=
  match o with
  | Some a => Ok a
  | None => Err e
  end.

(** ** The platform *)

(** The functions of the browser the code calls and this development does
    not define: AES-GCM and RSA-OAEP of [crypto.subtle] with the key
    formats they import, and [String.prototype.toLowerCase] on
    identifiers. [rsa_oaep_encrypt] takes the random seed of the OAEP
    padding as an argument; [rsa_max_payload] is the longest payload a
    public key encrypts (its modulus length less 66 bytes, 190 bytes for
    2048 bits); [rsa_keypair pub priv] says that the two keys were
    generated together. *)
Class Platform := {
  aes_gcm_encrypt : list byte -> list byte -> list byte -> list byte;
  aes_gcm_decrypt : list byte -> list byte -> list byte -> option (list byte);
  rsa_public_key : Type;
  rsa_private_key : Type;
  import_spki : list byte -> option rsa_public_key;
  import_pkcs8 : list byte -> option rsa_private_key;
  rsa_max_payload : rsa_public_key -> nat;
  rsa_oaep_encrypt : rsa_public_key -> list byte -> list byte -> list byte;
  rsa_oaep_decrypt : rsa_private_key -> list byte -> option (list byte);
  rsa_keypair : rsa_public_key -> rsa_private_key -> Prop;
  toLowerCase : string -> string;
}.

(** Length in bytes of the seed of RSA-OAEP with SHA-256. *)
Definition oaep_seed_length : nat := 32.

(** ** Binary strings *)

(** [String.fromCharCode(...bytes)]: one code unit per byte. (An engine
    bounds the number of arguments of a call; that bound is not part of the
    language and is not modelled.) *)
Definition fromCharCode (bs : list byte) : jsstring := map N_of_byte bs.

(** [Uint8Array.from(s, (c) => c.charCodeAt(0))]. *)
Definition charCodes (s : jsstring) : list byte := map byte_of_N s.

(** [btoa] rejects a string with a code unit above 255. *)
Definition btoa (s : jsstring) : result jsstring :=
  if forallb (fun c => c <=? 255) s then Ok (Base64.encode (map byte_of_N s))
  else Err InvalidCharacterError.

Definition atob (s : jsstring) : result jsstring :=
  fromCharCode <$> or_throw InvalidCharacterError (Base64.forgiving_decode s).

(** A Rocq string literal as a JavaScript string. *)
Definition lit (s : string) : jsstring :=
  map (fun a => N_of_byte (Ascii.byte_of_ascii a)) (String.list_ascii_of_string s).

(** ** The world *)

(** A record of the object store [chatKeys] of the IndexedDB database
    [HicuChatKeys]; the store is keyed by [chatId]. *)
Record VaultRecord := {
  key : list byte;
  createdAt : N;
}.

(** A document of the Firestore collection [chats], with the fields the key
    manager reads and writes. An absent field is [None]; [e2eeEnabled] is
    the truth value of the field. *)
Record ChatDoc := {
  participants : option (list string);
  keyPackages : option (gmap string jsstring);
  e2eeEnabled : bool;
  e2eeVersion : option N;
  encryptionKey : option jsstring;
  lastKeyUpdate : option N;
}.

(** What lies outside the function under study: the Firestore collections
    [chats] and [users] (of a user document only [publicKey] is read), the
    local key vault, the private key item of [localStorage], the random
    source ([entropy], of which [drawn] bytes were consumed) and the
    clock. *)
Record World := {
  chats : gmap string ChatDoc;
  users : gmap string jsstring;
  vault : gmap string VaultRecord;
  userPrivateKey : option jsstring;
  entropy : nat -> byte;
  drawn : nat;
  clock : N;
}.

Definition set_chats (f : gmap string ChatDoc -> gmap string ChatDoc) (w : World) : World :=
  {| chats := f (chats w); users := users w; vault := vault w;
     userPrivateKey := userPrivateKey w; entropy := entropy w;
     drawn := drawn w; clock := clock w |}.

Definition set_vault (f : gmap string VaultRecord -> gmap string VaultRecord) (w : World) : World :=
  {| chats := chats w; users := users w; vault := f (vault w);
     userPrivateKey := userPrivateKey w; entropy := entropy w;
     drawn := drawn w; clock := clock w |}.

Definition set_drawn (n : nat) (w : World) : World :=
  {| chats := chats w; users := users w; vault := vault w;
     userPrivateKey := userPrivateKey w; entropy := entropy w;
     drawn := n; clock := clock w |}.

(** ** Asynchronous computations *)

(** An [async] function run to completion: from a world to the value it
    resolves to or the exception it rejects with, and the world it leaves.
    The effects of a computation that rejects remain. *)
Definition M (A : Type) : Type := World -> result A * World.

#[global] Instance M_ret : MRet M := fun A a w => (Ok a, w).
#[global] Instance M_bind : MBind M := fun A B f m w =>
  match m w with
  | (Ok a, w') => f a w'
  | (Err e, w') => (Err e, w')
  end.

Definition throw {A} (e : error) : M A := fun w => (Err e, w).

(** [await] of a computation without effects. *)
Definition lift {A} (r : result A) : M A := fun w => (r, w).

(** [try { body } catch (error) { handler }]. *)
Definition try_catch {A} (body : M A) (handler : error -> M A) : M A := fun w =>
  match body w with
  | (Ok a, w') => (Ok a, w')
  | (Err e, w') => handler e w'
  end.

Definition get_world : M World := fun w => (Ok w, w).
Definition modify (f : World -> World) : M unit := fun w => (Ok tt, f w).

(** [crypto.getRandomValues(new Uint8Array(n))]. *)
Definition getRandomValues (n : nat) : M (list byte) := fun w =>
  (Ok (map (entropy w) (seq (drawn w) n)), set_drawn (drawn w + n) w).

(** JavaScript truth of a string that may be absent. *)
Definition truthy (s : option jsstring) : bool :=
  match s with
  | Some (_ :: _) => true
  | _ => false
  end.

(** JavaScript truth of an identifier that may be [null]. *)
Definition truthy_id (s : option string) : bool :=
  match s with
  | Some (String _ _) => true
  | _ => false
  end.

(** ** Symmetric cipher and codecs
    (src/crypto/mediaCrypto.js, src/crypto/textEncryption.js) *)

Section Codec.
Context {P : Platform}.

(** An AES-GCM [CryptoKey]: the raw key it was imported from. *)
Record CryptoKey := { raw : list byte }.

(** [importKey]: [crypto.subtle.importKey('raw', rawKey, 'AES-GCM', ...)]
    accepts keys of 128, 192 and 256 bits. *)
Definition importKey (rawKey : list byte) : result CryptoKey :=
  let n := length rawKey in
  if (n =? 16)%nat || (n =? 24)%nat || (n =? 32)%nat
  then Ok {| raw := rawKey |}
  else Err DataError.

(** [crypto.subtle.encrypt({ name: 'AES-GCM', iv }, key, data)]. *)
Definition subtle_encrypt (iv : list byte) (k : CryptoKey) (data : list byte) : list byte :=
  aes_gcm_encrypt (raw k) iv data.

(** [crypto.subtle.decrypt({ name: 'AES-GCM', iv }, key, data)]. *)
Definition subtle_decrypt (iv : list byte) (k : CryptoKey) (data : list byte) : result (list byte) :=
  or_throw OperationError (aes_gcm_decrypt (raw k) iv data).

Record EncryptedFile := { blob : list byte; fileIv : jsstring }.

Definition encryptFile (file : list byte) (k : CryptoKey) : M EncryptedFile :=
  iv ← getRandomValues 12;
  let buffer := file in
  let encrypted := subtle_encrypt iv k buffer in
  ivBase64 ← lift (btoa (fromCharCode iv));
  mret {| blob := encrypted; fileIv := ivBase64 |}.

Definition decryptFile (blob : list byte) (k : CryptoKey) (ivBase64 : jsstring) : result (list byte) :=
  iv ← charCodes <$> atob ivBase64;
  let buffer := blob in
  decrypted ← subtle_decrypt iv k buffer;
  mret decrypted.

Record EncryptedText := { ciphertext : jsstring; iv : jsstring }.

Definition encryptText (text : jsstring) (k : CryptoKey) : M EncryptedText :=
  iv ← getRandomValues 12;
  let data := Utf.encode text in
  let encrypted := subtle_encrypt iv k data in
  ciphertext ← lift (btoa (fromCharCode encrypted));
  ivBase64 ← lift (btoa (fromCharCode iv));
  mret {| ciphertext := ciphertext; iv := ivBase64 |}.

Definition decryptText (ciphertext ivBase64 : jsstring) (k : CryptoKey) : result jsstring :=
  iv ← charCodes <$> atob ivBase64;
  data ← charCodes <$> atob ciphertext;
  decrypted ← subtle_decrypt iv k data;
  mret (Utf.decode decrypted).

End Codec.

(** ** Asymmetric keys (src/crypto/publicKeyManager.js) *)

Section PublicKeyManager.
Context {P : Platform}.

Definition importPublicKey (publicKeyBase64 : jsstring) : result rsa_public_key :=
  binaryDer ← charCodes <$> atob publicKeyBase64;
  or_throw DataError (import_spki binaryDer).

Definition importPrivateKey (privateKeyBase64 : jsstring) : result rsa_private_key :=
  binaryDer ← charCodes <$> atob privateKeyBase64;
  or_throw DataError (import_pkcs8 binaryDer).

(** The public key of a user, read from the document [users/<lowercased
    e-mail>]. *)
Definition getUserPublicKey (userEmail : string) : M rsa_public_key :=
  w ← get_world;
  let publicKey := users w !! toLowerCase userEmail in
  if negb (truthy publicKey) then throw (PublicKeyNotFound userEmail)
  else lift (importPublicKey (default [] publicKey)).

Definition getMyPrivateKey : M rsa_private_key :=
  w ← get_world;
  let privateKeyBase64 := userPrivateKey w in
  if negb (truthy privateKeyBase64) then throw PrivateKeyNotFound
  else lift (importPrivateKey (default [] privateKeyBase64)).

(** [crypto.subtle.encrypt({ name: 'RSA-OAEP' }, publicKey, data)] rejects
    a payload that is too long for the key. *)
Definition subtle_encrypt_rsa (publicKey : rsa_public_key) (data : list byte) : M (list byte) :=
  if (length data <=? rsa_max_payload publicKey)%nat then
    seed ← getRandomValues oaep_seed_length;
    mret (rsa_oaep_encrypt publicKey seed data)
  else throw OperationError.

Definition encryptWithPublicKey (data : list byte) (publicKey : rsa_public_key) : M jsstring :=
  encrypted ← subtle_encrypt_rsa publicKey data;
  lift (btoa (fromCharCode encrypted)).

Definition decryptWithPrivateKey (encryptedBase64 : jsstring) (privateKey : rsa_private_key) : result (list byte) :=
  encrypted ← charCodes <$> atob encryptedBase64;
  decrypted ← or_throw OperationError (rsa_oaep_decrypt privateKey encrypted);
  mret decrypted.

End PublicKeyManager.

(** ** The local key vault (src/crypto/keyStorage.js)

    The store is keyed by [chatId], which is any string: the ids of
    the conversations, and whatever names an imported backup had. *)

Definition storeKey (chatId : string) (keyBytes : list byte) : M unit := fun w =>
  (Ok tt, set_vault (insert chatId {| key := keyBytes; createdAt := clock w |}) w).

Definition getKey (chatId : string) : M (option (list byte)) := fun w =>
  (Ok (key <$> vault w !! chatId), w).

Definition hasKey (chatId : string) : M bool :=
  k ← getKey chatId;
  mret (bool_decide (k ≠ None)).

Definition deleteKey (chatId : string) : M unit :=
  modify (set_vault (delete chatId)).

Definition getAllChatIds : M (list string) := fun w =>
  (Ok (fst <$> map_to_list (vault w)), w).

(** [exported[name] = value] on the object that [exportAllKeys] began as
    [{}], for a value that is a string. A property is written, except
    under the name [__proto__]: that assignment reaches the setter that
    the object inherits from [Object.prototype], which ignores a value
    that is neither an object nor [null], and no property is made. *)
Definition set_property (name : string) (value : jsstring)
    (exported : gmap string jsstring) : gmap string jsstring :=
  if bool_decide (name = "__proto__"%string) then exported
  else <[name := value]> exported.

(** [exportAllKeys]: the records of the store ([store.getAll()]), each
    written into the exported object under its [chatId]. *)
Fixpoint export_records (results : list (string * VaultRecord))
    (exported : gmap string jsstring) : result (gmap string jsstring) :=
  match results with
  | [] => Ok exported
  | item :: rest =>
      let keyBytes := key item.2 in
      keyBase64 ← btoa (fromCharCode keyBytes);
      export_records rest (set_property item.1 keyBase64 exported)
  end.

Definition exportAllKeys : M (gmap string jsstring) := fun w =>
  (export_records (map_to_list (vault w)) ∅, w).

(** [importKeys], on the entries of its argument
    ([Object.entries(keysObject)]) in their order. An entry that is not
    base64 raises the exception of [atob]; the entries before it were
    stored. A map does not record the order of the entries of the object it
    stands for: [importKeys] takes them in the order of [map_to_list], and
    what is proved of it below is proved of every order. *)
Fixpoint importKeys_entries (entries : list (string * jsstring)) : M unit :=
  match entries with
  | [] => mret tt
  | (chatId, keyBase64) :: rest =>
      keyBytes ← lift (charCodes <$> atob keyBase64);
      storeKey chatId keyBytes;;
      importKeys_entries rest
  end.

Definition importKeys (keysObject : gmap string jsstring) : M unit :=
  let total := length (map_to_list keysObject) in
  if (total =? 0)%nat then mret tt
  else importKeys_entries (map_to_list keysObject).

(** The entries [importKeys] stores, decoded: those before the first whose
    value is not base64. *)
Fixpoint stored_entries (entries : list (string * jsstring)) : list (string * list byte) :=
  match entries with
  | [] => []
  | (chatId, keyBase64) :: rest =>
      match charCodes <$> atob keyBase64 with
      | Ok keyBytes => (chatId, keyBytes) :: stored_entries rest
      | Err _ => []
      end
  end.

(** How [importKeys] ends: with the exception of the first [atob] that
    fails, if any. *)
Fixpoint import_status (entries : list (string * jsstring)) : result unit :=
  match entries with
  | [] => Ok tt
  | (_, keyBase64) :: rest =>
      match charCodes <$> atob keyBase64 with
      | Ok _ => import_status rest
      | Err e => Err e
      end
  end.

Definition clearAllKeys : M unit :=
  modify (set_vault (fun _ => ∅)).

(** The conversation ids of a vault with the raw key stored under each. *)
Definition vault_keys (w : World) : gmap string (list byte) := key <$> vault w.

(** ** Conversation keys (src/crypto/chatKeyManager.js) *)

Section ChatKeyManager.
Context {P : Platform}.

Definition getDoc_chat (chatId : string) : M (option ChatDoc) := fun w =>
  (Ok (chats w !! chatId), w).

(** [updateDoc] on [chats/<chatId>]; it fails when the document does not
    exist. *)
Definition updateDoc_chat (chatId : string) (f : ChatDoc -> ChatDoc) : M unit := fun w =>
  match chats w !! chatId with
  | Some d => (Ok tt, set_chats (insert chatId (f d)) w)
  | None => (Err DocumentNotFound, w)
  end.

(** A fresh 256-bit key, exported as raw bytes. *)
Definition generateChatKey : M (list byte) := getRandomValues 32.

(** The loop of [shareKeyWithParticipants]: a participant whose public key
    cannot be fetched, or for whom the encryption fails, gets no package.
    Iterating over a [participants] field that is absent raises a
    [TypeError]. *)
Fixpoint share_loop (rawKey : list byte) (participants : list string)
    (keyPackages : gmap string jsstring) : M (gmap string jsstring) :=
  match participants with
  | [] => mret keyPackages
  | email :: rest =>
      keyPackages' ←
        try_catch
          (publicKey ← getUserPublicKey email;
           encryptedKey ← encryptWithPublicKey rawKey publicKey;
           mret (<[toLowerCase email := encryptedKey]> keyPackages))
          (fun _ => mret keyPackages);
      share_loop rawKey rest keyPackages'
  end.

Definition shareKeyWithParticipants (chatId : string) (rawKey : list byte)
    (recipients : option (list string)) : M unit :=
  match recipients with
  | None => throw TypeError
  | Some emails =>
      packages ← share_loop rawKey emails ∅;
      w ← get_world;
      updateDoc_chat chatId (fun d =>
        {| participants := participants d;
           keyPackages := Some packages;
           e2eeEnabled := e2eeEnabled d;
           e2eeVersion := e2eeVersion d;
           encryptionKey := encryptionKey d;
           lastKeyUpdate := Some (clock w) |})
  end.

(** [chatData.keyPackages[myEmail.toLowerCase()]]. *)
Definition my_package (chatData : ChatDoc) (myEmail : option string) : option jsstring :=
  pk ← keyPackages chatData; pk !! toLowerCase (default EmptyString myEmail).

(** Priority 4: no key anywhere. *)
Definition generate_and_share (chatId : string) (chatData : ChatDoc) : M CryptoKey :=
  rawKey ← generateChatKey;
  storeKey chatId rawKey;;
  try_catch (shareKeyWithParticipants chatId rawKey (participants chatData))
            (fun _ => mret tt);;
  updateDoc_chat chatId (fun d =>
    {| participants := participants d;
       keyPackages := keyPackages d;
       e2eeEnabled := true;
       e2eeVersion := Some 1;
       encryptionKey := encryptionKey d;
       lastKeyUpdate := lastKeyUpdate d |});;
  lift (importKey rawKey).

(** Priority 3 and what follows it: the legacy key of the document. *)
Definition from_legacy_key (chatId : string) (chatData : ChatDoc) : M CryptoKey :=
  if truthy (encryptionKey chatData) then
    rawKey ← lift (charCodes <$> atob (default [] (encryptionKey chatData)));
    storeKey chatId rawKey;;
    lift (importKey rawKey)
  else generate_and_share chatId chatData.

(** Priority 2 and what follows it: the key of the local vault. *)
Definition from_local_storage (chatId : string) (myEmail : option string)
    (chatData : ChatDoc) : M CryptoKey :=
  rawKey ← getKey chatId;
  rawKey ←
    match rawKey with
    | Some k =>
        if bool_decide (is_Some (keyPackages chatData)) && truthy_id myEmail then
          let hasMyPackage := my_package chatData myEmail in
          if negb (truthy hasMyPackage) then
            if negb (e2eeEnabled chatData) then
              deleteKey chatId;; mret None
            else mret (Some k)
          else mret (Some k)
        else mret (Some k)
    | None => mret None
    end;
  match rawKey with
  | Some k => lift (importKey k)
  | None => from_legacy_key chatId chatData
  end.

(** Priority 1: the package addressed to the caller. The [try] block ends
    with [return importKey(rawKey)], which is not awaited inside it: a
    rejection of [importKey] is not caught. *)
Definition unwrap_my_package (chatId : string) (myEmail : option string)
    (chatData : ChatDoc) : M (option (list byte)) :=
  if truthy_id myEmail && bool_decide (is_Some (keyPackages chatData))
     && truthy (my_package chatData myEmail) then
    try_catch
      (let encryptedPackage := default [] (my_package chatData myEmail) in
       myPrivateKey ← getMyPrivateKey;
       rawKey ← lift (decryptWithPrivateKey encryptedPackage myPrivateKey);
       storeKey chatId rawKey;;
       mret (Some rawKey))
      (fun _ => mret None)
  else mret None.

(** The body of the promise that [getChatKey] creates, without its
    [finally] block (see [settle] below). *)
Definition keyPromise (chatId : string) (myEmail : option string) : M CryptoKey :=
  chatSnap ← getDoc_chat chatId;
  match chatSnap with
  | None => throw ChatNotFound
  | Some chatData =>
      unwrapped ← unwrap_my_package chatId myEmail chatData;
      match unwrapped with
      | Some rawKey => lift (importKey rawKey)
      | None => from_local_storage chatId myEmail chatData
      end
  end.

End ChatKeyManager.

(** ** [getChatKey] and the map of pending resolutions

    The event loop runs one piece of code at a time. The state below holds
    the promises created by [getChatKey], the module-level map
    [keyCachePromises] and the timers set by the [finally] block. What
    happens between two [await]s of one resolution is not interleaved with
    other code here: a resolution runs in one step, [settle]. The map is
    written when [getChatKey] is called and cleared when a timer fires,
    as in the source. *)

Section Runtime.
Context {P : Platform}.

Inductive promise :=
  | Pending (chatId : string) (myEmail : option string)
  | Settled (chatId : string) (r : result CryptoKey).

Definition promise_chat (p : promise) : string :=
  match p with
  | Pending c _ => c
  | Settled c _ => c
  end.

(** A pending [setTimeout(() => keyCachePromises.delete(chatId), 1000)]. *)
Record Timer := {
  due : N;
  timer_chat : string;
}.

Record Runtime := {
  world : World;
  keyCachePromises : gmap string nat;
  promises : list promise;
  timers : list Timer;
}.

Definition cleanup_delay : N := 1000.

(** The synchronous part of [getChatKey]: the promise returned to the
    caller and the state after the call. *)
Definition getChatKey (chatId : string) (myEmail : option string) (rt : Runtime)
    : nat * Runtime :=
  match keyCachePromises rt !! chatId with
  | Some keyPromise => (keyPromise, rt)
  | None =>
      let keyPromise := length (promises rt) in
      (keyPromise,
       {| world := world rt;
          keyCachePromises := <[chatId := keyPromise]> (keyCachePromises rt);
          promises := promises rt ++ [Pending chatId myEmail];
          timers := timers rt |})
  end.

(** The resolution behind a pending promise runs to its end; its [finally]
    block sets the timer. *)
Definition settle (p : nat) (rt : Runtime) : Runtime :=
  match promises rt !! p with
  | Some (Pending chatId myEmail) =>
      let '(r, w) := keyPromise chatId myEmail (world rt) in
      {| world := w;
         keyCachePromises := keyCachePromises rt;
         promises := <[p := Settled chatId r]> (promises rt);
         timers := timers rt ++ [{| due := clock w + cleanup_delay; timer_chat := chatId |}] |}
  | _ => rt
  end.

(** A timer whose time has come runs its callback. *)
Definition fire (i : nat) (rt : Runtime) : Runtime :=
  match timers rt !! i with
  | Some t =>
      if due t <=? clock (world rt) then
        {| world := world rt;
           keyCachePromises := delete (timer_chat t) (keyCachePromises rt);
           promises := promises rt;
           timers := take i (timers rt) ++ drop (S i) (timers rt) |}
      else rt
  | None => rt
  end.

(** Time passes. *)
Definition tick (dt : N) (rt : Runtime) : Runtime :=
  {| world :=
       {| chats := chats (world rt); users := users (world rt);
          vault := vault (world rt); userPrivateKey := userPrivateKey (world rt);
          entropy := entropy (world rt); drawn := drawn (world rt);
          clock := clock (world rt) + dt |};
     keyCachePromises := keyCachePromises rt;
     promises := promises rt;
     timers := timers rt |}.

Inductive event :=
  | Call (chatId : string) (myEmail : option string)
  | Settle (p : nat)
  | Fire (i : nat)
  | Tick (dt : N).

Definition run_event (e : event) (rt : Runtime) : Runtime :=
  match e with
  | Call chatId myEmail => (getChatKey chatId myEmail rt).2
  | Settle p => settle p rt
  | Fire i => fire i rt
  | Tick dt => tick dt rt
  end.

Definition run (es : list event) (rt : Runtime) : Runtime :=
  foldl (fun rt e => run_event e rt) rt es.

(** The page as loaded: no promise, no timer, an empty map. *)
Definition start (w : World) : Runtime :=
  {| world := w; keyCachePromises := ∅; promises := []; timers := [] |}.

(** What [await] of a promise yields once it is settled. *)
Definition awaited (p : nat) (rt : Runtime) : option (result CryptoKey) :=
  match promises rt !! p with
  | Some (Settled _ r) => Some r
  | _ => None
  end.

Definition pending (p : nat) (rt : Runtime) : Prop :=
  exists chatId myEmail, promises rt !! p = Some (Pending chatId myEmail).

(** [await getChatKey(chatId, myEmail)] in an [async] function: the
    caller goes on with what the promise that the call returns settles
    with, be it a new promise or the one of the map. A resolution that
    is still pending runs to its end first; no other code runs in between
    here. [None] is an [await] that does not come back: its promise would
    be one that the state does not hold, and no state that the page
    reaches has such an entry in the map. *)
Definition await_getChatKey (chatId : string) (myEmail : option string) (rt : Runtime)
    : option (result CryptoKey * Runtime) :=
  let '(p, rt) := getChatKey chatId myEmail rt in
  let rt := settle p rt in
  chatKey ← awaited p rt;
  Some (chatKey, rt).

End Runtime.

(** ** Message subscription (src/services/chatMessagesService.js) *)

Section Messages.
Context {P : Platform}.

(** A field value of a message document. An object (a timestamp, the
    [media] map) is represented by the string it converts to. *)
Inductive jsval :=
  | VNull
  | VBool (b : bool)
  | VNum (n : N)
  | VStr (s : jsstring)
  | VObj (repr : jsstring).

Definition truthy_val (v : option jsval) : bool :=
  match v with
  | None | Some VNull => false
  | Some (VBool b) => b
  | Some (VNum n) => negb (n =? 0)
  | Some (VStr s) => truthy (Some s)
  | Some (VObj _) => true
  end.

Definition decimal (n : N) : string :=
  DecimalString.NilZero.string_of_uint (N.to_uint n).

(** The conversion to a string that [atob] applies to its argument. *)
Definition to_string (v : option jsval) : jsstring :=
  match v with
  | None => lit "undefined"
  | Some VNull => lit "null"
  | Some (VBool true) => lit "true"
  | Some (VBool false) => lit "false"
  | Some (VNum n) => lit (decimal n)
  | Some (VStr s) => s
  | Some (VObj repr) => repr
  end.

(** A document of a snapshot: [docSnap.id] and [docSnap.data()]. *)
Record DocSnap := {
  docId : jsstring;
  data : gmap string jsval;
}.

(** [{ id: docSnap.id, ...data }]: a field [id] of the data wins. *)
Definition with_id (docSnap : DocSnap) : gmap string jsval :=
  data docSnap ∪ {[ "id"%string := VStr (docId docSnap) ]}.

(** The function mapped over [snapshot.docs]. It never rejects. *)
Definition decrypt_doc (chatKey : CryptoKey) (docSnap : DocSnap) : gmap string jsval :=
  let data := data docSnap in
  if truthy_val (data !! "encryptedText"%string) && truthy_val (data !! "textIv"%string) then
    match decryptText (to_string (data !! "encryptedText"%string))
                      (to_string (data !! "textIv"%string)) chatKey with
    | Ok decryptedText =>
        <["encrypted"%string := VBool true]>
          (<["text"%string := VStr decryptedText]> (with_id docSnap))
    | Err decryptError =>
        <["decryptionError"%string := VBool true]>
          (<["text"%string := VStr (lit "[Decryption failed]")]> (with_id docSnap))
    end
  else
    <["encrypted"%string := VBool false]> (with_id docSnap).

(** The message a document is delivered as when its text cannot be
    decrypted. *)
Definition placeholder (docSnap : DocSnap) : gmap string jsval :=
  <["decryptionError"%string := VBool true]>
    (<["text"%string := VStr (lit "[Decryption failed]")]> (with_id docSnap)).

(** The message a document without encrypted text is delivered as. *)
Definition legacy (docSnap : DocSnap) : gmap string jsval :=
  <["encrypted"%string := VBool false]> (with_id docSnap).

(** What the snapshot callback does with its two callbacks. *)
Inductive delivery :=
  | onMessages (decryptedMessages : list (gmap string jsval))
  | onError (e : error).

(** The snapshot callback once [getChatKey] has settled with [chatKey]. *)
Definition deliver (chatKey : result CryptoKey) (docs : list DocSnap) : delivery :=
  match chatKey with
  | Ok chatKey => onMessages (map (decrypt_doc chatKey) docs)
  | Err e => onError e
  end.

(** The snapshot callback: [getChatKey] is awaited, then the documents
    are delivered. *)
Definition on_snapshot (chatId : string) (userEmail : option string)
    (docs : list DocSnap) (rt : Runtime) : option (delivery * Runtime) :=
  '(chatKey, rt') ← await_getChatKey chatId userEmail rt;
  Some (deliver chatKey docs, rt').

End Messages.

(** ** A small platform to run the definitions on

    The cipher of this instance writes key and nonce in front of the
    plaintext; an RSA key is one byte and a wrapped payload carries the
    byte of the key and the seed before the data. It has the laws assumed
    of the real primitives below and lets the code be evaluated. *)

Module Toy.

Definition seal (k iv data : list byte) : list byte := k ++ iv ++ data.

Definition unseal (k iv c : list byte) : option (list byte) :=
  let n := (length k + length iv)%nat in
  if decide (take n c = k ++ iv) then Some (drop n c) else None.

Definition import_key_byte (der : list byte) : option byte :=
  match der with
  | [b] => Some b
  | _ => None
  end.

Definition wrap (pub : byte) (seed data : list byte) : list byte :=
  pub :: seed ++ data.

Definition unwrap (priv : byte) (c : list byte) : option (list byte) :=
  match c with
  | b :: rest => if decide (b = priv) then Some (drop oaep_seed_length rest) else None
  | [] => None
  end.

Definition lower_ascii (a : Ascii.ascii) : Ascii.ascii :=
  let n := Ascii.N_of_ascii a in
  if (65 <=? n) && (n <=? 90) then Ascii.ascii_of_N (n + 32) else a.

Fixpoint lower (s : string) : string :=
  match s with
  | EmptyString => EmptyString
  | String a rest => String (lower_ascii a) (lower rest)
  end.

#[local] Instance platform : Platform := {|
  aes_gcm_encrypt := seal;
  aes_gcm_decrypt := unseal;
  rsa_public_key := byte;
  rsa_private_key := byte;
  import_spki := import_key_byte;
  import_pkcs8 := import_key_byte;
  rsa_max_payload := fun _ => 190%nat;
  rsa_oaep_encrypt := wrap;
  rsa_oaep_decrypt := unwrap;
  rsa_keypair := eq;
  toLowerCase := lower;
|}.

(** Random bytes 0, 1, 2, ... *)
Definition counting (n : nat) : byte := byte_of_N (N.of_nat n).

Definition empty_world : World :=
  {| chats := ∅; users := ∅; vault := ∅; userPrivateKey := None;
     entropy := counting; drawn := 0; clock := 0 |}.

(** A key of 32 bytes, all equal to [b]. *)
Definition key_of (b : byte) : CryptoKey := {| raw := replicate 32 b |}.

(** A conversation of two users, of whom only the first has published a
    public key (the key [x01]). *)
Definition alice : string := "alice@x.org".
Definition bob : string := "bob@x.org".
Definition conversation : string := "alice@x_org__bob@x_org".

Definition plain_doc : ChatDoc :=
  {| participants := Some [alice; bob]; keyPackages := None;
     e2eeEnabled := false; e2eeVersion := None; encryptionKey := None;
     lastKeyUpdate := None |}.

(** The document with a package for the first user: [rawKey] wrapped under
    the public key [pub]. *)
Definition package (pub : byte) (rawKey : list byte) : jsstring :=
  Base64.encode (wrap pub (replicate oaep_seed_length Byte.x00) rawKey).

Definition packaged_doc (pub : byte) (rawKey : list byte) : ChatDoc :=
  {| participants := Some [alice; bob];
     keyPackages := Some {[ alice := package pub rawKey ]};
     e2eeEnabled := false; e2eeVersion := None; encryptionKey := None;
     lastKeyUpdate := None |}.

(** The world of the first user: the conversation document, a vault with
    at most a key for the conversation, and the private key [x01]. *)
Definition world_of (doc : ChatDoc) (held : option (list byte)) : World :=
  {| chats := {[ conversation := doc ]};
     users := {[ alice := Base64.encode [Byte.x01] ]};
     vault := match held with
              | Some k => {[ conversation := {| key := k; createdAt := 0 |} ]}
              | None => ∅
              end;
     userPrivateKey := Some (Base64.encode [Byte.x01]);
     entropy := counting; drawn := 0; clock := 0 |}.

(** Two message documents: one stored in the clear, one whose encrypted
    text no key of this platform decrypts. *)
Definition clear_message : DocSnap :=
  {| docId := lit "m1"; data := {[ "text"%string := VStr (lit "hello") ]} |}.

Definition sealed_message : DocSnap :=
  {| docId := lit "m2";
     data := {[ "encryptedText"%string := VStr (lit "AAAA");
                "textIv"%string := VStr (lit "AAAA") ]} |}.

End Toy.

(** ** What is assumed of the WebCrypto primitives *)

(** AES-GCM decrypts what it encrypted, under the same key and nonce. *)
Definition AesGcmCorrect (P : Platform) : Prop :=
  forall k iv data,
    length iv = 12%nat ->
    aes_gcm_decrypt k iv (aes_gcm_encrypt k iv data) = Some data.

(** AES-GCM gives out a plaintext only for the ciphertext that the
    encryption of that plaintext gives under the same key and nonce: the
    tag is compared before anything is returned. *)
Definition AesGcmSound (P : Platform) : Prop :=
  forall k iv data plain,
    aes_gcm_decrypt k iv data = Some plain ->
    aes_gcm_encrypt k iv plain = data.

(** The private key of a pair recovers every payload that the public key
    takes. *)
Definition RsaOaepCorrect (P : Platform) : Prop :=
  forall pub priv seed data,
    rsa_keypair pub priv ->
    length seed = oaep_seed_length -> (length data <= rsa_max_payload pub)%nat ->
    rsa_oaep_decrypt priv (rsa_oaep_encrypt pub seed data) = Some data.

(** ** Notions used to state the properties of the key manager *)

Section KeyNotions.
Context {P : Platform}.

(** Two worlds that differ at most in how much of the random source was
    consumed. *)
Definition same_stores (w w' : World) : Prop :=
  chats w' = chats w /\ users w' = users w /\ vault w' = vault w /\
  userPrivateKey w' = userPrivateKey w /\ entropy w' = entropy w /\
  clock w' = clock w.

(** A participant for whom a package can be made: the public key is
    published, imports, and takes a payload of the length of the key. *)
Definition wrappable (w : World) (rawKey : list byte) (email : string)
    (publicKey : rsa_public_key) : Prop :=
  getUserPublicKey email w = (Ok publicKey, w) /\
  (length rawKey <= rsa_max_payload publicKey)%nat.

(** The caller has a package and unwrapping it does not succeed: the
    private key is absent or does not import, or [decryptWithPrivateKey]
    raises. *)
Definition unwrap_fails (w : World) (encryptedPackage : jsstring) : Prop :=
  match getMyPrivateKey w with
  | (Ok myPrivateKey, _) =>
      exists e, decryptWithPrivateKey encryptedPackage myPrivateKey = Err e
  | (Err _, _) => True
  end.

(** The random bytes that the next call of [generateChatKey] returns. *)
Definition next_key (w : World) : list byte :=
  map (entropy w) (seq (drawn w) 32).

(** The test of Priority 2 for an orphaned vault entry: the document has
    key packages, a caller is given, none of the packages is the caller's
    and the document is not marked [e2eeEnabled]. *)
Definition orphaned (myEmail : option string) (chatData : ChatDoc) : bool :=
  bool_decide (is_Some (keyPackages chatData)) && truthy_id myEmail
  && negb (truthy (my_package chatData myEmail)) && negb (e2eeEnabled chatData).

End KeyNotions.

(** ** The invariant of the map of pending resolutions *)

Section RuntimeNotions.
Context {P : Platform}.

(** What holds of every state the event loop reaches: the promise of a
    resolution in flight is the entry of the map for its conversation; a
    timer waits only for a conversation whose entry is a settled promise;
    an entry of the map is a promise of its conversation; no conversation
    has two timers. *)
Definition coalescing (rt : Runtime) : Prop :=
  (forall p c e, promises rt !! p = Some (Pending c e) ->
                 keyCachePromises rt !! c = Some p) /\
  (forall t, t ∈ timers rt ->
             exists p r, keyCachePromises rt !! timer_chat t = Some p /\
                         promises rt !! p = Some (Settled (timer_chat t) r)) /\
  (forall c p, keyCachePromises rt !! c = Some p ->
               exists q, promises rt !! p = Some q /\ promise_chat q = c) /\
  NoDup (timer_chat <$> timers rt).

End RuntimeNotions.

(** ** What a resolution of a conversation key may change *)

Section Frame.
Context {P : Platform}.

(** The worlds a call for the conversation [chatId] may lead to: the user
    directory, the private key and the clock are as before, the random
    source was read forward, the documents and vault entries of the other
    conversations are as before, and the document of the conversation, if
    there is one, still has its [participants] and [encryptionKey]
    fields. *)
Definition touches_only (chatId : string) (w w' : World) : Prop :=
  users w' = users w /\
  userPrivateKey w' = userPrivateKey w /\
  entropy w' = entropy w /\
  clock w' = clock w /\
  (drawn w <= drawn w')%nat /\
  (forall c, c <> chatId -> chats w' !! c = chats w !! c) /\
  (forall c, c <> chatId -> vault w' !! c = vault w !! c) /\
  match chats w !! chatId with
  | Some d => exists d', chats w' !! chatId = Some d' /\
                         participants d' = participants d /\
                         encryptionKey d' = encryptionKey d
  | None => chats w' !! chatId = None
  end.

(** An effect that leads from every world to one related to it by [R]. *)
Definition respects {A} (R : World -> World -> Prop) (m : M A) : Prop :=
  forall w, R w (m w).2.

(** The vault is as before. *)
Definition same_vault (w w' : World) : Prop := vault w' = vault w.

(** The lengths of raw key that [importKey] accepts. *)
Definition key_length_ok (n : nat) : Prop := n = 16%nat \/ n = 24%nat \/ n = 32%nat.

(** What the first source of a key yields: the package of the caller,
    unwrapped with the private key of the device. *)
Definition unwrapped (myEmail : option string) (chatData : ChatDoc) (w : World)
    : option (list byte) :=
  if truthy_id myEmail && truthy (my_package chatData myEmail) then
    match (getMyPrivateKey w).1 with
    | Ok priv =>
        match decryptWithPrivateKey (default [] (my_package chatData myEmail)) priv with
        | Ok rawKey => Some rawKey
        | Err _ => None
        end
    | Err _ => None
    end
  else None.

End Frame.

(** ** More that is assumed of the WebCrypto primitives *)

Section MoreLaws.
Context {P : Platform}.

(** An AES-GCM ciphertext carries the authentication tag: it is never
    empty. *)
Definition AesGcmNonEmpty : Prop :=
  forall k iv data, length iv = 12%nat -> aes_gcm_encrypt k iv data <> [].

(** An RSA-OAEP ciphertext has the length of the modulus: it is never
    empty. *)
Definition RsaOaepNonEmpty : Prop :=
  forall pub seed data, rsa_oaep_encrypt pub seed data <> [].

(** Decryption of a ciphertext of the scheme yields the payload that was
    encrypted or nothing, whichever private key is used. *)
Definition RsaOaepUnambiguous : Prop :=
  forall pub priv seed data recovered,
    length seed = oaep_seed_length ->
    rsa_oaep_decrypt priv (rsa_oaep_encrypt pub seed data) = Some recovered ->
    recovered = data.

End MoreLaws.

(** ** [chatHasKey] (src/crypto/chatKeyManager.js) *)

Definition chatHasKey (chatId : string) : M bool := hasKey chatId.

(** ** Resolutions in flight *)

Section InFlight.
Context {P : Platform}.

Definition pending_for (chatId : string) (p : promise) : bool :=
  match p with
  | Pending c _ => bool_decide (c = chatId)
  | Settled _ _ => false
  end.

(** The number of resolutions for a conversation that have begun and are
    not settled. *)
Definition in_flight (chatId : string) (rt : Runtime) : nat :=
  length (List.filter (pending_for chatId) (promises rt)).

End InFlight.

(** ** More data to run the definitions on *)

Module Examples.

(** A conversation document from before key packages: the key of the
    conversation is in its legacy field. *)
Definition legacy_doc (keyBase64 : jsstring) : ChatDoc :=
  {| participants := Some [Toy.alice; Toy.bob]; keyPackages := None;
     e2eeEnabled := false; e2eeVersion := None; encryptionKey := Some keyBase64;
     lastKeyUpdate := None |}.

(** A message document as [sendChatMessage] writes it: the text "hi"
    encrypted under the key of 32 bytes [x01], the [text] field empty. *)
Definition encrypted_message : DocSnap :=
  match (encryptText (P := Toy.platform) (lit "hi") (Toy.key_of Byte.x01)
           Toy.empty_world).1 with
  | Ok enc =>
      {| docId := lit "m3";
         data := {[ "encryptedText"%string := VStr (ciphertext enc);
                    "textIv"%string := VStr (iv enc);
                    "text"%string := VStr [] ]} |}
  | Err _ => {| docId := lit "m3"; data := ∅ |}
  end.

End Examples.

(** ** Sending a message (src/services/chatMessagesService.js) *)

(** [String.prototype.trim] removes the white space and the line
    terminators of ECMAScript from both ends: TAB, VT, FF, SP, NBSP,
    ZWNBSP, the space separators of Unicode, LF, CR, LS and PS. *)
Definition is_white_space (c : N) : bool :=
  (c =? 0x0009) || (c =? 0x000A) || (c =? 0x000B) || (c =? 0x000C) || (c =? 0x000D)
  || (c =? 0x0020) || (c =? 0x00A0) || (c =? 0x1680)
  || ((0x2000 <=? c) && (c <=? 0x200A))
  || (c =? 0x2028) || (c =? 0x2029) || (c =? 0x202F) || (c =? 0x205F)
  || (c =? 0x3000) || (c =? 0xFEFF).

Fixpoint trim_start (s : jsstring) : jsstring :=
  match s with
  | c :: rest => if is_white_space c then trim_start rest else s
  | [] => []
  end.

Definition trim_end (s : jsstring) : jsstring := rev (trim_start (rev s)).

Definition trim (s : jsstring) : jsstring := trim_end (trim_start s).

(** The fields of the signed-in user that the function reads; [email],
    [displayName] and [photoURL] may be absent. *)
Record User := {
  uid : jsstring;
  email : option string;
  displayName : option jsstring;
  photoURL : option jsstring;
}.

(** The fields of a conversation document that the sidebar shows. *)
Record Preview := {
  lastMessage : option jsstring;
  lastSender : option string;
  updatedAt : option N;
  unreadCount : option (gmap string N);
}.

Definition no_preview : Preview :=
  {| lastMessage := None; lastSender := None; updatedAt := None; unreadCount := None |}.

(** The world with the message collections [chats/<chatId>/messages], in
    the order of their creation, and the preview fields of the
    conversation documents. *)
Record Store := {
  device : World;
  messages : gmap string (list (gmap string jsval));
  previews : gmap string Preview;
}.

Definition StoreM (A : Type) : Type := Store -> result A * Store.

#[global] Instance StoreM_ret : MRet StoreM := fun A a s => (Ok a, s).
#[global] Instance StoreM_bind : MBind StoreM := fun A B f m s =>
  match m s with
  | (Ok a, s') => f a s'
  | (Err e, s') => (Err e, s')
  end.

Definition get_store : StoreM Store := fun s => (Ok s, s).

Definition throw_S {A} (e : error) : StoreM A := fun s => (Err e, s).

Definition try_catch_S {A} (body : StoreM A) (handler : error -> StoreM A) : StoreM A := fun s =>
  match body s with
  | (Ok a, s') => (Ok a, s')
  | (Err e, s') => handler e s'
  end.

(** An effect on the world of the device, run in the store. *)
Definition on_device {A} (m : M A) : StoreM A := fun s =>
  let '(r, w) := m (device s) in
  (r, {| device := w; messages := messages s; previews := previews s |}).

(** [addDoc(collection(db, 'chats', chatId, 'messages'), fields)]. *)
Definition addDoc_message (chatId : string) (fields : gmap string jsval) : StoreM unit := fun s =>
  (Ok tt,
   {| device := device s;
      messages := <[chatId := default [] (messages s !! chatId) ++ [fields]]> (messages s);
      previews := previews s |}).

(** [updateDoc(chatRef, updates)] on the preview fields. *)
Definition updateDoc_preview (chatId : string) (f : Preview -> Preview) : StoreM unit := fun s =>
  (Ok tt,
   {| device := device s;
      messages := messages s;
      previews := <[chatId := f (default no_preview (previews s !! chatId))]> (previews s) |}).

(** [serverTimestamp()], a value that is an object. *)
Definition serverTimestamp (w : World) : jsval := VObj (lit (decimal (clock w))).

(** ** The tab of the browser

    The store together with the state of the module chatKeyManager.js:
    the map [keyCachePromises], the promises that [getChatKey] has made
    and the timers of their [finally] blocks. *)
Record Tab := {
  store : Store;
  keyCache : gmap string nat;
  keyPromises : list promise;
  keyTimers : list Timer;
}.

(** The state of the key manager in a tab, around the world of its
    device. *)
Definition tab_runtime (t : Tab) : Runtime :=
  {| world := device (store t);
     keyCachePromises := keyCache t;
     promises := keyPromises t;
     timers := keyTimers t |}.

Definition with_runtime (rt : Runtime) (t : Tab) : Tab :=
  {| store := {| device := world rt;
                 messages := messages (store t);
                 previews := previews (store t) |};
     keyCache := keyCachePromises rt;
     keyPromises := promises rt;
     keyTimers := timers rt |}.

(** An effect on the store, run in the tab: the key manager is as it
    was. *)
Definition in_store {A} (m : StoreM A) (t : Tab) : result A * Tab :=
  let '(r, s) := m (store t) in
  (r, {| store := s; keyCache := keyCache t; keyPromises := keyPromises t;
         keyTimers := keyTimers t |}).

Section Send.
Context {P : Platform}.

(** [user.email?.toLowerCase()]. *)
Definition lowered_email (user : User) : option string := toLowerCase <$> email user.

(** The counts a conversation without [unreadCount] starts from: zero
    for each participant. Without [participants] the loop raises a
    [TypeError]. *)
Definition initial_counts (recipients : option (list string)) : result (gmap string N) :=
  match recipients with
  | Some emails => Ok (foldl (fun counts p => <[toLowerCase p := 0]> counts) ∅ emails)
  | None => Err TypeError
  end.

(** The [try] block of [sendChatMessage]: the preview of the sidebar and
    the unread count of the other participant. *)
Definition update_preview (chatId : string) (trimmed : jsstring) (user : User) : StoreM unit :=
  s ← get_store;
  match chats (device s) !! chatId with
  | None => mret tt
  | Some chatData =>
      let otherParticipant :=
        ps ← participants chatData;
        List.find (fun p => bool_decide (Some (toLowerCase p) <> lowered_email user)) ps in
      let otherParticipantLower := toLowerCase <$> otherParticipant in
      let stored := unreadCount (default no_preview (previews s !! chatId)) in
      counts ← match stored with
               | Some counts => mret counts
               | None => on_device (lift (initial_counts (participants chatData)))
               end;
      updateDoc_preview chatId (fun p =>
        {| lastMessage := Some trimmed;
           lastSender := Some (default EmptyString (lowered_email user));
           updatedAt := Some (clock (device s));
           unreadCount :=
             if truthy_id otherParticipantLower then
               let other := default EmptyString otherParticipantLower in
               let currentCount := default 0 (counts !! other) in
               Some (<[other := currentCount + 1]> counts)
             else unreadCount p |})
  end.

(** The object that [sendChatMessage] passes to [addDoc]: the [text]
    field is empty, [createdAt] is the time of the server. *)
Definition message_fields (user : User) (enc : EncryptedText) (w : World)
    : gmap string jsval :=
  <["encryptedText"%string := VStr (ciphertext enc)]>
  (<["textIv"%string := VStr (iv enc)]>
   (<["text"%string := VStr []]>
    (<["uid"%string := VStr (uid user)]>
     (<["email"%string := VStr (lit (default EmptyString (lowered_email user)))]>
      (<["displayName"%string :=
           VStr (if truthy (displayName user)
                 then default [] (displayName user) else lit "Unknown")]>
       (<["photoURL"%string :=
            VStr (if truthy (photoURL user) then default [] (photoURL user) else [])]>
        {[ "createdAt"%string := serverTimestamp w ]})))))).

(** What [sendChatMessage] does once [getChatKey] has yielded the key
    (lines 97 to 158). *)
Definition send_encrypted (chatId : string) (trimmed : jsstring) (user : User)
    (chatKey : CryptoKey) : StoreM unit :=
  enc ← on_device (encryptText trimmed chatKey);
  s ← get_store;
  addDoc_message chatId (message_fields user enc (device s));;
  try_catch_S (update_preview chatId trimmed user) (fun _ => mret tt).

(** [sendChatMessage]. A blank text returns at once; otherwise
    [getChatKey] is awaited, and its rejection is the rejection of the
    call. [None] is a call that does not return (see
    [await_getChatKey]). *)
Definition sendChatMessage (chatId : string) (text : jsstring) (user : User) (t : Tab)
    : option (result unit * Tab) :=
  let trimmed := trim text in
  if negb (truthy (Some trimmed)) then Some (Ok tt, t)
  else
    '(chatKey, rt) ← await_getChatKey chatId (email user) (tab_runtime t);
    Some (match chatKey with
          | Ok chatKey => in_store (send_encrypted chatId trimmed user chatKey)
                                   (with_runtime rt t)
          | Err e => (Err e, with_runtime rt t)
          end).

End Send.

Module SendExamples.

(** The first user of the toy conversation, signed in with an address in
    mixed case. *)
Definition alice_user : User :=
  {| uid := lit "u1"; email := Some "Alice@x.org"%string;
     displayName := None; photoURL := None |}.

(** A store without messages and previews around a device. *)
Definition store_of (w : World) : Store :=
  {| device := w; messages := ∅; previews := ∅ |}.

(** A tab just loaded on a device: no message, no preview, no
    resolution. *)
Definition tab_of (w : World) : Tab :=
  {| store := store_of w; keyCache := ∅; keyPromises := []; keyTimers := [] |}.

End SendExamples.

(** ** The cache of decrypted media (src/services/mediaCacheService.js) *)

Module MediaCache.

Record CachedMedia := {
  blobUrl : jsstring;
  mimeType : jsstring;
  timestamp : N;
}.

(** The module-level [Map], whose entries are kept in the order in which
    their keys were first set, and the blob URLs that were handed to
    [URL.revokeObjectURL], in the order of the calls. *)
Record State := {
  mediaCache : list (jsstring * CachedMedia);
  revoked : list jsstring;
}.

Definition MAX_CACHE_SIZE : nat := 100.

Definition empty : State := {| mediaCache := []; revoked := [] |}.

(** [Map.prototype.get]. *)
Definition map_get (k : jsstring) (m : list (jsstring * CachedMedia)) : option CachedMedia :=
  snd <$> List.find (fun e => bool_decide (e.1 = k)) m.

(** [Map.prototype.set]: the value of a key that is present is replaced
    where it stands, a new key is added at the end. *)
Fixpoint map_set (k : jsstring) (v : CachedMedia) (m : list (jsstring * CachedMedia))
    : list (jsstring * CachedMedia) :=
  match m with
  | [] => [(k, v)]
  | e :: rest => if bool_decide (e.1 = k) then (k, v) :: rest else e :: map_set k v rest
  end.

(** [Map.prototype.delete]. *)
Definition map_delete (k : jsstring) (m : list (jsstring * CachedMedia))
    : list (jsstring * CachedMedia) :=
  List.filter (fun e => negb (bool_decide (e.1 = k))) m.

(** What [getCachedMedia] returns: [blobUrl] and [mimeType] of the
    entry. *)
Definition getCachedMedia (messageId : jsstring) (c : State) : option (jsstring * jsstring) :=
  match map_get messageId (mediaCache c) with
  | Some cached => Some (blobUrl cached, mimeType cached)
  | None => None
  end.

(** The first block of [cacheMedia]: a full cache gives up its oldest
    entry, whose blob URL is revoked. *)
Definition evict_oldest (c : State) : State :=
  if (MAX_CACHE_SIZE <=? length (mediaCache c))%nat then
    match mediaCache c with
    | (firstKey, evicted) :: _ =>
        {| mediaCache := map_delete firstKey (mediaCache c);
           revoked := revoked c ++ [blobUrl evicted] |}
    | [] => c
    end
  else c.

(** [cacheMedia]; [now] is [Date.now()]. *)
Definition cacheMedia (messageId blobUrl mimeType : jsstring) (now : N) (c : State) : State :=
  let c1 := evict_oldest c in
  {| mediaCache :=
       map_set messageId
         {| blobUrl := blobUrl; mimeType := mimeType; timestamp := now |} (mediaCache c1);
     revoked := revoked c1 |}.

Definition hasCache (messageId : jsstring) (c : State) : bool :=
  bool_decide (is_Some (map_get messageId (mediaCache c))).

Definition removeCachedMedia (messageId : jsstring) (c : State) : State :=
  match map_get messageId (mediaCache c) with
  | Some cached =>
      {| mediaCache := map_delete messageId (mediaCache c);
         revoked := revoked c ++ [blobUrl cached] |}
  | None => c
  end.

Definition clearMediaCache (c : State) : State :=
  {| mediaCache := [];
     revoked := revoked c ++ map (fun e => blobUrl e.2) (mediaCache c) |}.

(** [getCacheStats]: [size] and [maxSize]. *)
Definition getCacheStats (c : State) : nat * nat := (length (mediaCache c), MAX_CACHE_SIZE).

(** The calls that change the cache. *)
Inductive call :=
  | CacheMedia (messageId blobUrl mimeType : jsstring) (now : N)
  | RemoveCachedMedia (messageId : jsstring)
  | ClearMediaCache.

Definition run_call (c : State) (op : call) : State :=
  match op with
  | CacheMedia messageId blobUrl mimeType now => cacheMedia messageId blobUrl mimeType now c
  | RemoveCachedMedia messageId => removeCachedMedia messageId c
  | ClearMediaCache => clearMediaCache c
  end.

Definition run_calls (ops : list call) (c : State) : State := foldl run_call c ops.

(** The blob URLs that a sequence of calls puts into the cache. *)
Definition cached_urls (ops : list call) : list jsstring :=
  flat_map (fun op => match op with
                      | CacheMedia _ blobUrl _ _ => [blobUrl]
                      | _ => []
                      end) ops.

(** The blob URLs that the cache holds. *)
Definition held_urls (c : State) : list jsstring :=
  map (fun e => blobUrl e.2) (mediaCache c).

(** The cache holds no blob URL twice and none that was revoked. *)
Definition urls_live (c : State) : Prop :=
  NoDup (held_urls c) /\ forall u, u ∈ held_urls c -> u ∉ revoked c.

(** [n] calls of [cacheMedia], for the messages 0, 1, ... with a blob
    URL each, and the cache they fill. *)
Definition fill_calls (n : nat) : list call :=
  map (fun i => CacheMedia (lit (decimal (N.of_nat i)))
                  (lit "blob:" ++ lit (decimal (N.of_nat i)))
                  (lit "image/jpeg") (N.of_nat i))
      (seq 0 n).

Definition filled (n : nat) : State := run_calls (fill_calls n) empty.

End MediaCache.

(** ** Unread counts (src/services/readReceiptService.js) *)

Section Unread.
Context {P : Platform}.

(** The unread count that a conversation document records for a user; a
    document without counts, or without a count for the user, records
    none, which reads as zero. *)
Definition unread (chatId : string) (user : string) (s : Store) : N :=
  default 0 (default ∅ (unreadCount (default no_preview (previews s !! chatId))) !! user).

Definition set_unreadCount (counts : gmap string N) (p : Preview) : Preview :=
  {| lastMessage := lastMessage p; lastSender := lastSender p;
     updatedAt := updatedAt p; unreadCount := Some counts |}.

(** [resetUnreadCount]: the whole body is in a [try] block whose handler
    only logs. *)
Definition resetUnreadCount (chatId : string) (userEmail : string) : StoreM unit :=
  try_catch_S
    (s ← get_store;
     match chats (device s) !! chatId with
     | None => mret tt
     | Some chatData =>
         let normalizedEmail := toLowerCase userEmail in
         match unreadCount (default no_preview (previews s !! chatId)) with
         | None =>
             let counts :=
               match participants chatData with
               | Some emails =>
                   foldl (fun counts email => <[toLowerCase email := 0]> counts) ∅ emails
               | None => ∅
               end in
             updateDoc_preview chatId (set_unreadCount counts)
         | Some currentUnreadCount =>
             match currentUnreadCount !! normalizedEmail with
             | None =>
                 updateDoc_preview chatId
                   (set_unreadCount (<[normalizedEmail := 0]> currentUnreadCount))
             | Some userCount =>
                 if 0 <? userCount then
                   updateDoc_preview chatId
                     (set_unreadCount (<[normalizedEmail := 0]> currentUnreadCount))
                 else mret tt
             end
         end
     end)
    (fun _ => mret tt).

End Unread.

(** ** Direct conversations (src/utils/chatId.js, src/services/dmChatService.js)

    The e-mail addresses are strings of UTF-16 code units here, since the
    functions work on their characters. *)

Module DmChat.

(** The order of [Array.prototype.sort] without a comparator: the
    elements are compared as strings, code unit by code unit. *)
Fixpoint ltb_units (a b : jsstring) : bool :=
  match a, b with
  | _, [] => false
  | [], _ :: _ => true
  | x :: a', y :: b' =>
      if x <? y then true else if y <? x then false else ltb_units a' b'
  end.

(** [[a, b].sort()]. *)
Definition sort2 (a b : jsstring) : jsstring * jsstring :=
  if ltb_units b a then (b, a) else (a, b).

(** [s.replaceAll(c, r)] for a pattern of one character. *)
Definition replaceAll (c : N) (r : jsstring) (s : jsstring) : jsstring :=
  flat_map (fun u => if u =? c then r else [u]) s.

Definition safe (s : jsstring) : jsstring :=
  replaceAll 64 (lit "__at__") (replaceAll 46 (lit "_") s).

Section WithCase.
(** [String.prototype.toLowerCase]. *)
Variable toLowerCase : jsstring -> jsstring.

Definition buildDmChatId (emailA emailB : jsstring) : jsstring :=
  let '(first, second) := sort2 (toLowerCase (trim emailA)) (toLowerCase (trim emailB)) in
  safe first ++ lit "__" ++ safe second.

(** The document of a direct conversation as [getOrCreateDmChat] writes
    it. *)
Record DmDoc := {
  type : jsstring;
  participants : list jsstring;
  participantsSorted : list jsstring;
  createdAt : N;
  updatedAt : N;
  lastMessage : jsstring;
  lastSender : jsstring;
  unreadCount : gmap jsstring N;
}.

(** [getOrCreateDmChat] on the collection [chats]; [now] is the time of
    the server. It returns the id of the conversation. *)
Definition getOrCreateDmChat (myEmail otherEmail : jsstring) (now : N)
    (chats : gmap jsstring DmDoc) : jsstring * gmap jsstring DmDoc :=
  let chatId := buildDmChatId myEmail otherEmail in
  match chats !! chatId with
  | None =>
      let '(p0, p1) := sort2 (toLowerCase myEmail) (toLowerCase otherEmail) in
      let participantsSorted := [p0; p1] in
      (chatId,
       <[chatId := {| type := lit "dm";
                      participants := participantsSorted;
                      participantsSorted := participantsSorted;
                      createdAt := now; updatedAt := now;
                      lastMessage := []; lastSender := [];
                      unreadCount := <[p1 := 0]> (<[p0 := 0]> ∅) |}]> chats)
  | Some _ => (chatId, chats)
  end.

End WithCase.

(** Lower case for the letters of ASCII, to run the definitions. *)
Definition lower_ascii (s : jsstring) : jsstring :=
  map (fun u => if (65 <=? u) && (u <=? 90) then u + 32 else u) s.

End DmChat.

(** ** Decrypted media (src/services/mediaDownloadService.js) *)

Module MediaDownload.

(** [message.media]: the fields that [getDecryptedMediaUrl] reads. *)
Record Media := {
  publicId : option jsstring;
  filePath : option jsstring;
  iv : option jsstring;
  mimeType : option jsstring;
}.

Record Message := {
  id : jsstring;
  media : option Media;
}.

(** What the network yields for a path of the storage: the blob that
    [getBlob] resolves with, and the blob that the fallback
    ([getDownloadURL], [fetch], [response.ok], [response.blob()])
    arrives at; [None] when the step rejects. *)
Record Remote := {
  getBlob : jsstring -> option (list byte);
  fetched : jsstring -> option (list byte);
}.

(** The page: the world of the device with the state of the key manager
    around it, the media cache, and the blobs for which
    [URL.createObjectURL] has made a URL, each with its type. *)
Record Page := {
  page_runtime : Runtime;
  page_cache : MediaCache.State;
  blobs : list (list byte * jsstring);
}.

Inductive media_error :=
  | LegacyFormat
  | MissingMetadata
  | DownloadFailed
  | Resolution (e : error).

(** The URL of the [n]-th blob. *)
Definition blob_url (n : nat) : jsstring := lit "blob:" ++ lit (decimal (N.of_nat n)).

Section WithPlatform.
Context {P : Platform}.
(** [inferMimeType] (lines 15-44), of which nothing is used below. *)
Variable inferMimeType : jsstring -> jsstring.

(** The two attempts to download and decrypt: the second is made when
    the first fails at any step, and its failure at any step is the
    failure of the download. *)
Definition download_and_decrypt (remote : Remote) (path ivBase64 : jsstring)
    (chatKey : CryptoKey) : option (list byte) :=
  let attempt (encryptedBlob : option (list byte)) : option (list byte) :=
    match encryptedBlob with
    | Some b =>
        match decryptFile b chatKey ivBase64 with
        | Ok decrypted => Some decrypted
        | Err _ => None
        end
    | None => None
    end in
  match attempt (getBlob remote path) with
  | Some decryptedBlob => Some decryptedBlob
  | None => attempt (fetched remote path)
  end.

(** [getDecryptedMediaUrl]. [None] is a call that does not return (see
    [await_getChatKey]). *)
Definition getDecryptedMediaUrl (remote : Remote) (chatId : string) (message : Message)
    (userEmail : option string) (pg : Page)
    : option ((media_error + jsstring * jsstring) * Page) :=
  match MediaCache.getCachedMedia (id message) (page_cache pg) with
  | Some cached => Some (inr cached, pg)
  | None =>
      if truthy (m ← media message; publicId m) then Some (inl LegacyFormat, pg)
      else if negb (truthy (m ← media message; filePath m))
              || negb (truthy (m ← media message; iv m))
      then Some (inl MissingMetadata, pg)
      else
        let path := default [] (m ← media message; filePath m) in
        let ivBase64 := default [] (m ← media message; iv m) in
        '(chatKey, rt) ← await_getChatKey chatId userEmail (page_runtime pg);
        Some
          match chatKey with
          | Err e =>
              (inl (Resolution e),
               {| page_runtime := rt; page_cache := page_cache pg; blobs := blobs pg |})
          | Ok chatKey =>
              match download_and_decrypt remote path ivBase64 chatKey with
              | None =>
                  (inl DownloadFailed,
                   {| page_runtime := rt; page_cache := page_cache pg; blobs := blobs pg |})
              | Some decryptedBlob =>
                  let stored := m ← media message; mimeType m in
                  let type := if truthy stored then default [] stored else inferMimeType path in
                  let blobUrl := blob_url (length (blobs pg)) in
                  (inr (blobUrl, type),
                   {| page_runtime := rt;
                      page_cache :=
                        MediaCache.cacheMedia (id message) blobUrl type (clock (world rt))
                          (page_cache pg);
                      blobs := blobs pg ++ [(decryptedBlob, type)] |})
              end
          end
  end.

End WithPlatform.

End MediaDownload.

(** ** The key pair of a user (src/crypto/publicKeyManager.js) *)

(** Generation and export of RSA-OAEP keys: [crypto.subtle.generateKey],
    which draws on the random source, and [crypto.subtle.exportKey] in
    the formats [spki] and [pkcs8]. *)
Class KeyGeneration (P : Platform) := {
  keygen_seed_length : nat;
  rsa_generateKey : list byte -> rsa_public_key * rsa_private_key;
  export_spki : rsa_public_key -> list byte;
  export_pkcs8 : rsa_private_key -> list byte;
}.

(** What is assumed of them: the two keys that are generated form a pair,
    an exported key is not empty and imports as the key it was. *)
Definition KeyGenerationSound {P : Platform} (G : KeyGeneration P) : Prop :=
  (forall seed, rsa_keypair (rsa_generateKey seed).1 (rsa_generateKey seed).2) /\
  (forall pub, export_spki pub <> [] /\ import_spki (export_spki pub) = Some pub) /\
  (forall priv, export_pkcs8 priv <> [] /\ import_pkcs8 (export_pkcs8 priv) = Some priv).

(** The device with the second entry of its local storage,
    [userPublicKey]; the first, [userPrivateKey], is in the world. *)
Record Device := {
  dev_world : World;
  userPublicKey : option jsstring;
}.

Section KeyPair.
Context {P : Platform} {G : KeyGeneration P}.

(** [setDoc(userRef, { publicKey, publicKeyUpdatedAt }, { merge: true })];
    the time of the update is not kept here. *)
Definition publish (userEmail : string) (publicKeyBase64 : jsstring) (w : World) : World :=
  {| chats := chats w;
     users := <[toLowerCase userEmail := publicKeyBase64]> (users w);
     vault := vault w; userPrivateKey := userPrivateKey w;
     entropy := entropy w; drawn := drawn w; clock := clock w |}.

(** [storeKeyPairLocally]. *)
Definition storeKeyPairLocally (privateKeyBase64 publicKeyBase64 : jsstring) (d : Device)
    : Device :=
  {| dev_world :=
       {| chats := chats (dev_world d); users := users (dev_world d);
          vault := vault (dev_world d); userPrivateKey := Some privateKeyBase64;
          entropy := entropy (dev_world d); drawn := drawn (dev_world d);
          clock := clock (dev_world d) |};
     userPublicKey := Some publicKeyBase64 |}.

Definition initializeUserKeyPair (userEmail : string) (d : Device)
    : result (rsa_public_key * rsa_private_key) * Device :=
  let storedPrivateKey := userPrivateKey (dev_world d) in
  let storedPublicKey := userPublicKey d in
  if truthy storedPrivateKey && truthy storedPublicKey then
    match importPrivateKey (default [] storedPrivateKey) with
    | Err e => (Err e, d)
    | Ok privateKey =>
        match importPublicKey (default [] storedPublicKey) with
        | Err e => (Err e, d)
        | Ok publicKey =>
            let d' :=
              if negb (truthy (users (dev_world d) !! toLowerCase userEmail)) then
                {| dev_world := publish userEmail (default [] storedPublicKey) (dev_world d);
                   userPublicKey := userPublicKey d |}
              else d in
            (Ok (publicKey, privateKey), d')
        end
    end
  else
    match getRandomValues keygen_seed_length (dev_world d) with
    | (Err e, w) => (Err e, {| dev_world := w; userPublicKey := userPublicKey d |})
    | (Ok seed, w) =>
        let keyPair := rsa_generateKey seed in
        match btoa (fromCharCode (export_spki keyPair.1)),
              btoa (fromCharCode (export_pkcs8 keyPair.2)) with
        | Ok publicKeyBase64, Ok privateKeyBase64 =>
            let d1 := storeKeyPairLocally privateKeyBase64 publicKeyBase64
                        {| dev_world := w; userPublicKey := userPublicKey d |} in
            (Ok keyPair,
             {| dev_world := publish userEmail publicKeyBase64 (dev_world d1);
                userPublicKey := userPublicKey d1 |})
        | Err e, _ | _, Err e =>
            (Err e, {| dev_world := w; userPublicKey := userPublicKey d |})
        end
    end.

End KeyPair.

(** Keys of one byte for the small platform: the first byte of the
    randomness is both keys of the pair. *)
Module ToyKeys.

Definition generate (seed : list byte)
    : @rsa_public_key Toy.platform * @rsa_private_key Toy.platform :=
  (hd Byte.x00 seed, hd Byte.x00 seed).

Definition export_public (pub : @rsa_public_key Toy.platform) : list byte := [pub].

Definition export_private (priv : @rsa_private_key Toy.platform) : list byte := [priv].

#[local] Instance keys : KeyGeneration Toy.platform := {|
  keygen_seed_length := 1;
  rsa_generateKey := generate;
  export_spki := export_public;
  export_pkcs8 := export_private;
|}.

(** A device on which nobody has signed in yet. *)
Definition new_device : Device :=
  {| dev_world := Toy.empty_world; userPublicKey := None |}.

End ToyKeys.

(** ** Read receipts, view-once media and unsending
    (src/services/readReceiptService.js, src/services/viewOnceService.js,
    src/services/messageDeleteService.js) *)

Module MessageDocs.

(** The fields of a message document that these services read or write;
    [filePath] is [media?.filePath], [viewOnce] is the truth of the
    field. *)
Record MessageData := {
  type : option jsstring;
  text : option jsstring;
  caption : option jsstring;
  email : option string;
  filePath : option jsstring;
  readBy : option (list string);
  viewOnce : bool;
  viewedBy : option (list string);
  createdAt : option N;
}.

(** A message object as the page holds it. *)
Record Message := {
  id : jsstring;
  fields : MessageData;
}.

(** The message collections [chats/<chatId>/messages], the [lastMessage]
    and [lastSender] of the conversation documents that exist, and the
    paths of the storage that hold a file. *)
Record Firestore := {
  messages : gmap string (gmap jsstring MessageData);
  lastMessages : gmap string (jsstring * jsstring);
  files : gset jsstring;
}.

Definition message_doc (chatId : string) (messageId : jsstring) (fs : Firestore)
    : option MessageData :=
  docs ← messages fs !! chatId; docs !! messageId.

(** [arrayUnion(x)] applied to a field. *)
Definition arrayUnion (x : string) (field : option (list string)) : list string :=
  match field with
  | Some l => if bool_decide (x ∈ l) then l else l ++ [x]
  | None => [x]
  end.

(** [updateDoc] on a message document; it fails when there is none. *)
Definition updateDoc_message (chatId : string) (messageId : jsstring)
    (f : MessageData -> MessageData) (fs : Firestore) : result unit * Firestore :=
  match message_doc chatId messageId fs with
  | Some d =>
      (Ok tt,
       {| messages :=
            <[chatId := <[messageId := f d]> (default ∅ (messages fs !! chatId))]>
              (messages fs);
          lastMessages := lastMessages fs;
          files := files fs |})
  | None => (Err DocumentNotFound, fs)
  end.

(** [deleteDoc] on a message document; it succeeds when there is none. *)
Definition deleteDoc_message (chatId : string) (messageId : jsstring) (fs : Firestore)
    : Firestore :=
  {| messages :=
       match messages fs !! chatId with
       | Some docs => <[chatId := delete messageId docs]> (messages fs)
       | None => messages fs
       end;
     lastMessages := lastMessages fs;
     files := files fs |}.

(** [deleteObject] inside its own [try]: a path without a file is an
    error that is only logged. *)
Definition deleteObject_caught (path : jsstring) (fs : Firestore) : Firestore :=
  {| messages := messages fs;
     lastMessages := lastMessages fs;
     files := files fs ∖ {[ path ]} |}.

Definition set_readBy (l : list string) (d : MessageData) : MessageData :=
  {| type := type d; text := text d; caption := caption d; email := email d;
     filePath := filePath d; readBy := Some l; viewOnce := viewOnce d;
     viewedBy := viewedBy d; createdAt := createdAt d |}.

Definition set_viewedBy (l : list string) (d : MessageData) : MessageData :=
  {| type := type d; text := text d; caption := caption d; email := email d;
     filePath := filePath d; readBy := readBy d; viewOnce := viewOnce d;
     viewedBy := Some l; createdAt := createdAt d |}.

Section WithPlatform.
Context {P : Platform}.

(** *** Read receipts *)

(** The update that a read receipt makes to a document. *)
Definition read_by (userEmail : string) (d : MessageData) : MessageData :=
  set_readBy (arrayUnion (toLowerCase userEmail) (readBy d)) d.

(** [markMessageAsRead]: a failure is only logged. *)
Definition markMessageAsRead (chatId : string) (messageId : jsstring) (userEmail : string)
    (fs : Firestore) : Firestore :=
  (updateDoc_message chatId messageId (read_by userEmail) fs).2.

(** The filter of [markMessagesAsRead]: not sent by the user and not
    read by the user, as far as the message object tells. *)
Definition unread_by (userEmail : string) (msg : Message) : bool :=
  bool_decide (toLowerCase <$> email (fields msg) <> Some (toLowerCase userEmail))
  && negb (bool_decide (toLowerCase userEmail ∈ default [] (readBy (fields msg)))).

Definition markMessagesAsRead (chatId : string) (msgs : list Message) (userEmail : string)
    (fs : Firestore) : Firestore :=
  let unreadMessages := List.filter (unread_by userEmail) msgs in
  foldl (fun fs message => markMessageAsRead chatId (id message) userEmail fs)
        fs unreadMessages.

Definition isMessageRead (message : Message) (senderEmail : string) : bool :=
  match readBy (fields message) with
  | None | Some [] => false
  | Some l =>
      existsb (fun e => bool_decide (toLowerCase e <> toLowerCase senderEmail)) l
  end.

(** *** View-once media *)

(** The update that a view makes to a document. *)
Definition viewed_by (userEmail : string) (d : MessageData) : MessageData :=
  set_viewedBy (arrayUnion (toLowerCase userEmail) (viewedBy d)) d.

(** [markAsViewed]: a failure is thrown again. *)
Definition markAsViewed (chatId : string) (messageId : jsstring) (userEmail : string)
    (fs : Firestore) : result unit * Firestore :=
  updateDoc_message chatId messageId (viewed_by userEmail) fs.

Definition deleteViewOnceMessage (chatId : string) (messageId : jsstring)
    (path : option jsstring) (fs : Firestore) : Firestore :=
  let fs1 := if truthy path then deleteObject_caught (default [] path) fs else fs in
  deleteDoc_message chatId messageId fs1.

Definition hasUserViewed (message : Message) (userEmail : string) : bool :=
  if negb (viewOnce (fields message)) then false
  else bool_decide (toLowerCase userEmail ∈ default [] (viewedBy (fields message))).

End WithPlatform.

(** *** Unsending *)

(** The order of the query [orderBy('createdAt', 'desc')]: documents
    without the field are left out; documents of the same time are
    ordered by their ids, compared here as strings of code units. *)
Definition newer (a b : jsstring * MessageData) : bool :=
  match createdAt a.2, createdAt b.2 with
  | Some ta, Some tb => (tb <? ta) || ((ta =? tb) && DmChat.ltb_units b.1 a.1)
  | Some _, None => true
  | None, _ => false
  end.

(** [snapshot.docs[0]] of the query with [limit(1)]. *)
Definition latest (docs : gmap jsstring MessageData) : option (jsstring * MessageData) :=
  foldr (fun a best =>
           match createdAt a.2, best with
           | None, _ => best
           | Some _, None => Some a
           | Some _, Some b => if newer a b then Some a else Some b
           end)
        None (map_to_list docs).

Definition photo : jsstring := [0xD83D; 0xDCF7] ++ lit " Photo".
Definition voice_message : jsstring := [0xD83C; 0xDFA4] ++ lit " Voice message".

(** The text that [updateChatLastMessage] shows for a message. *)
Definition lastMessageText (lastMsg : MessageData) : jsstring :=
  if bool_decide (type lastMsg = Some (lit "image")) then
    if truthy (caption lastMsg) then photo ++ lit ": " ++ default [] (caption lastMsg)
    else photo
  else if bool_decide (type lastMsg = Some (lit "audio")) then voice_message
  else if truthy (text lastMsg) then default [] (text lastMsg) else [].

(** [updateChatLastMessage]: the whole body is in a [try] block whose
    handler only logs; [updateDoc] fails when the conversation document
    does not exist. *)
Definition updateChatLastMessage (chatId : string) (fs : Firestore) : Firestore :=
  match lastMessages fs !! chatId with
  | None => fs
  | Some _ =>
      let updates :=
        match latest (default ∅ (messages fs !! chatId)) with
        | None => ([], [])
        | Some lastMsg =>
            (lastMessageText lastMsg.2,
             match email lastMsg.2 with
             | Some (String a e) => lit (String a e)
             | _ => []
             end)
        end in
      {| messages := messages fs;
         lastMessages := <[chatId := updates]> (lastMessages fs);
         files := files fs |}
  end.

Definition unsendMessage (chatId : string) (message : Message) (fs : Firestore)
    : Firestore :=
  let fs1 :=
    if truthy (filePath (fields message))
    then deleteObject_caught (default [] (filePath (fields message))) fs
    else fs in
  updateChatLastMessage chatId (deleteDoc_message chatId (id message) fs1).

End MessageDocs.

(** ** AES-GCM as the platform computes it

    [crypto.subtle.encrypt] and [decrypt] with [{ name: 'AES-GCM', iv }],
    without additional data and with the tag of 128 bits that is the
    default: the block cipher of FIPS 197 in the mode of NIST SP 800-38D.
    The small platform above has laws; this one has the values. *)

Module AesGcm.

(** *** The block cipher *)

(** Multiplication by [x] in the field of 256 elements, modulo
    [x^8 + x^4 + x^3 + x + 1]. *)
Definition xtime (a : N) : N :=
  let b := N.shiftl a 1 in
  if N.testbit b 8 then N.lxor b 0x11B else b.

Fixpoint gf_mul_loop (n : nat) (a b acc : N) : N :=
  match n with
  | O => acc
  | S n =>
      gf_mul_loop n (xtime a) (N.shiftr b 1)
        (if N.testbit b 0 then N.lxor acc a else acc)
  end.

Definition gf_mul (a b : N) : N := gf_mul_loop 8 a b 0.

Fixpoint gf_pow (a : N) (n : nat) : N :=
  match n with
  | O => 1
  | S n => gf_mul a (gf_pow a n)
  end.

Definition rotl8 (b n : N) : N :=
  N.land (N.lor (N.shiftl b n) (N.shiftr b (8 - n))) 0xFF.

(** The substitution of a byte: the inverse in the field (0 for 0), then
    the affine map. *)
Definition sbox_of (a : N) : N :=
  let b := gf_pow a 254 in
  N.lxor (N.lxor (N.lxor (N.lxor (N.lxor b (rotl8 b 1)) (rotl8 b 2)) (rotl8 b 3))
            (rotl8 b 4)) 0x63.

Definition sbox_table : list N :=
  Eval vm_compute in map (fun i => sbox_of (N.of_nat i)) (seq 0 256).

Definition sbox (a : N) : N := nth (N.to_nat a) sbox_table 0.

Definition byte_at (s : list N) (i : nat) : N := nth i s 0.

(** The words of a key, four bytes each. *)
Definition words (key : list N) : list (list N) :=
  map (fun i => take 4 (drop (4 * i) key)) (seq 0 (length key / 4)).

Definition sub_word (w : list N) : list N := map sbox w.

Definition rot_word (w : list N) : list N :=
  match w with
  | a :: rest => rest ++ [a]
  | [] => []
  end.

Definition xor_word (a b : list N) : list N := zip_with N.lxor a b.

Definition rcon (j : nat) : list N := [gf_pow 2 (j - 1); 0; 0; 0].

(** The key expansion: [steps] more words after those of [ws]. *)
Fixpoint expand (steps Nk : nat) (ws : list (list N)) : list (list N) :=
  match steps with
  | O => ws
  | S steps =>
      let i := length ws in
      let temp := nth (i - 1) ws [] in
      let temp :=
        if (i mod Nk =? 0)%nat then xor_word (sub_word (rot_word temp)) (rcon (i / Nk))
        else if (6 <? Nk)%nat && (i mod Nk =? 4)%nat then sub_word temp
        else temp in
      expand steps Nk (ws ++ [xor_word (nth (i - Nk) ws []) temp])
  end.

(** The number of rounds for a key: 10, 12 or 14. *)
Definition rounds_of (key : list N) : nat := (length key / 4 + 6)%nat.

Definition key_schedule (key : list N) : list (list N) :=
  let Nk := (length key / 4)%nat in
  expand (4 * (rounds_of key + 1) - Nk) Nk (words key).

(** The state is the block in the order of its bytes: row [i mod 4] of
    column [i / 4]. *)
Definition sub_bytes (s : list N) : list N := map sbox s.

Definition shift_rows (s : list N) : list N :=
  map (fun i => let r := (i mod 4)%nat in
                let c := (i / 4)%nat in
                byte_at s (r + 4 * ((c + r) mod 4)))
      (seq 0 16).

Definition mix_columns (s : list N) : list N :=
  map (fun i => let r := (i mod 4)%nat in
                let c := (i / 4)%nat in
                let a k := byte_at s (4 * c + (r + k) mod 4) in
                N.lxor (N.lxor (N.lxor (gf_mul 2 (a 0%nat)) (gf_mul 3 (a 1%nat)))
                          (a 2%nat)) (a 3%nat))
      (seq 0 16).

Definition add_round_key (schedule : list (list N)) (round : nat) (s : list N) : list N :=
  map (fun i => N.lxor (byte_at s i)
                  (byte_at (nth (4 * round + i / 4) schedule []) (i mod 4)))
      (seq 0 16).

Fixpoint middle_rounds (n round : nat) (schedule : list (list N)) (s : list N) : list N :=
  match n with
  | O => s
  | S n =>
      middle_rounds n (S round) schedule
        (add_round_key schedule round (mix_columns (shift_rows (sub_bytes s))))
  end.

(** The cipher of a block under an expanded key. *)
Definition cipher (schedule : list (list N)) (Nr : nat) (block : list N) : list N :=
  let s := add_round_key schedule 0 block in
  let s := middle_rounds (Nr - 1) 1 schedule s in
  add_round_key schedule Nr (shift_rows (sub_bytes s)).

Definition aes (key block : list N) : list N :=
  cipher (key_schedule key) (rounds_of key) block.

(** *** The mode *)

(** A block as a number, its first byte the most significant. *)
Definition block_of (bs : list N) : N := fold_left (fun acc b => acc * 256 + b) bs 0.

Definition bytes_of (x : N) : list byte :=
  map (fun i => byte_of_N (N.shiftr x (8 * (15 - N.of_nat i)))) (seq 0 16).

(** The cipher on blocks as numbers. *)
Definition encipher (schedule : list (list N)) (Nr : nat) (x : N) : N :=
  block_of (cipher schedule Nr (map N_of_byte (bytes_of x))).

(** Multiplication in the field of [2^128] elements, the leftmost bit of
    a block being the coefficient of degree 0. *)
Definition R : N := N.shiftl 0xE1 120.

Fixpoint mul_loop (n : nat) (x v z : N) : N :=
  match n with
  | O => z
  | S n =>
      mul_loop n x
        (if N.testbit v 0 then N.lxor (N.shiftr v 1) R else N.shiftr v 1)
        (if N.testbit x (N.of_nat n) then N.lxor z v else z)
  end.

Definition mul (x y : N) : N := mul_loop 128 x y 0.

Definition ghash (H : N) (blocks : list N) : N :=
  fold_left (fun y x => mul (N.lxor y x) H) blocks 0.

(** The number of blocks that [n] bytes fill. *)
Definition blocks_for (n : nat) : nat := ((n + 15) / 16)%nat.

(** The blocks of a string of bytes, the last one filled with zeros. *)
Definition blocks_of (bs : list byte) : list N :=
  map (fun i => block_of (map N_of_byte (take 16 (drop (16 * i) bs ++ replicate 16 Byte.x00))))
      (seq 0 (blocks_for (length bs))).

(** The counter block [i] places after [icb]: the last 32 bits count. *)
Definition counter (icb : N) (i : nat) : N :=
  (icb / 2 ^ 32) * 2 ^ 32 + (icb mod 2 ^ 32 + N.of_nat i) mod 2 ^ 32.

Definition xor_byte (a b : byte) : byte :=
  byte_of_N (N.lxor (N_of_byte a) (N_of_byte b)).

(** The key stream for [n] bytes from the counter block [icb] on. *)
Definition key_stream (E : N -> N) (icb : N) (n : nat) : list byte :=
  flat_map (fun i => bytes_of (E (counter icb i))) (seq 0 (blocks_for n)).

Definition gctr (E : N -> N) (icb : N) (data : list byte) : list byte :=
  zip_with xor_byte data (key_stream E icb (length data)).

(** The first counter block: the IV itself when it has 96 bits, its hash
    otherwise. *)
Definition J0 (H : N) (iv : list byte) : N :=
  if (length iv =? 12)%nat then block_of (map N_of_byte iv) * 2 ^ 32 + 1
  else ghash H (blocks_of iv ++ [8 * N.of_nat (length iv)]).

(** The tag of a ciphertext, there being no additional data. *)
Definition tag (E : N -> N) (iv body : list byte) : list byte :=
  let H := E 0 in
  let S := ghash H (blocks_of body ++ [8 * N.of_nat (length body)]) in
  bytes_of (N.lxor (E (J0 H iv)) S).

Definition block_cipher (key : list byte) : N -> N :=
  let key := map N_of_byte key in
  let schedule := key_schedule key in
  encipher schedule (rounds_of key).

(** [encrypt]: the ciphertext, then the tag. (The platform refuses an IV
    of no byte; the code never encrypts with one.) *)
Definition encrypt (key iv data : list byte) : list byte :=
  let E := block_cipher key in
  let body := gctr E (counter (J0 (E 0) iv) 1) data in
  body ++ tag E iv body.

(** [decrypt]: the tag is computed again and compared, and only then is
    the plaintext given out. *)
Definition decrypt (key iv data : list byte) : option (list byte) :=
  if (length iv =? 0)%nat || (length data <? 16)%nat then None
  else
    let E := block_cipher key in
    let n := (length data - 16)%nat in
    let body := take n data in
    if decide (drop n data = tag E iv body)
    then Some (gctr E (counter (J0 (E 0) iv) 1) body)
    else None.

(** The platform of the browser as far as AES-GCM goes; the other
    primitives are those of the small platform. *)
#[local] Instance platform : Platform := {|
  aes_gcm_encrypt := encrypt;
  aes_gcm_decrypt := decrypt;
  rsa_public_key := byte;
  rsa_private_key := byte;
  import_spki := Toy.import_key_byte;
  import_pkcs8 := Toy.import_key_byte;
  rsa_max_payload := fun _ => 190%nat;
  rsa_oaep_encrypt := Toy.wrap;
  rsa_oaep_decrypt := Toy.unwrap;
  rsa_keypair := eq;
  toLowerCase := Toy.lower;
|}.

(** Bytes written in hexadecimal. *)
Fixpoint hex (s : string) : list byte :=
  match s with
  | String a (String b rest) =>
      let digit (c : Ascii.ascii) : N :=
        let n := Ascii.N_of_ascii c in
        if n <? 58 then n - 48 else if n <? 71 then n - 55 else n - 87 in
      byte_of_N (16 * digit a + digit b) :: hex rest
  | _ => []
  end.

End AesGcm.

(** ** Two keys and a text for the cipher of the browser *)

Module AesGcmExamples.

Definition key_11 : CryptoKey := {| raw := replicate 32 Byte.x11 |}.
Definition key_22 : CryptoKey := {| raw := replicate 32 Byte.x22 |}.

(** A device whose random source yields the given bytes, then zeros. *)
Definition device_drawing (bs : list byte) : World :=
  {| chats := ∅; users := ∅; vault := ∅; userPrivateKey := None;
     entropy := fun n => nth n bs Byte.x00; drawn := 0; clock := 0 |}.

(** The IV that the text below goes with. *)
Definition colliding_iv : list byte := AesGcm.hex "00000000000000000083c625".

(** A text of sixteen characters whose ciphertext under [key_11] and
    [colliding_iv] has a tag that is also its tag under [key_22]. *)
Definition colliding_text : jsstring := lit "xcppY\rj1+,`I99y".

End AesGcmExamples.

(** * Properties *)

Ltac Zify.zify_post_hook ::= Z.to_euclidean_division_equations.

(** Case analysis on the comparisons of a goal. *)
Ltac split_compare :=
  repeat match goal with
  | |- context [N.ltb ?a ?b] => destruct (N.ltb_spec a b); try lia
  | |- context [N.leb ?a ?b] => destruct (N.leb_spec a b); try lia
  | |- context [N.eqb ?a ?b] => destruct (N.eqb_spec a b); try lia
  | _ => progress cbn [andb orb negb]
  end.

(** ** Bytes *)

Lemma N_of_byte_lt (b : byte) : N_of_byte b < 256.
Proof. pose proof (Byte.to_N_bounded b). unfold N_of_byte. lia. Qed.

Lemma byte_of_N_of_byte (b : byte) : byte_of_N (N_of_byte b) = b.
Proof.
  unfold byte_of_N. rewrite N.mod_small by apply N_of_byte_lt.
  unfold N_of_byte. now rewrite Byte.of_to_N.
Qed.

Lemma N_of_byte_of_N (n : N) : N_of_byte (byte_of_N n) = n mod 256.
Proof.
  unfold byte_of_N, N_of_byte.
  destruct (Byte.of_N (n mod 256)) as [b|] eqn:E.
  - now apply Byte.to_of_N.
  - apply Byte.of_N_None_iff in E. lia.
Qed.

Lemma byte_of_N_eq (n : N) (b : byte) : n mod 256 = N_of_byte b -> byte_of_N n = b.
Proof.
  intros H. rewrite <- (byte_of_N_of_byte b), <- H.
  unfold byte_of_N. now rewrite N.Div0.mod_mod.
Qed.

(** ** Base64 *)

Module Base64Facts.
Import Base64.

Lemma list_ind3 {A} (P : list A -> Prop) :
  P [] -> (forall a, P [a]) -> (forall a b, P [a; b]) ->
  (forall a b c r, P r -> P (a :: b :: c :: r)) ->
  forall l, P l.
Proof.
  intros H0 H1 H2 H3.
  assert (forall l, P l /\ (forall a, P (a :: l)) /\ (forall a b, P (a :: b :: l))) as H.
  { induction l as [|x l (IH0 & IH1 & IH2)]; repeat split; auto. }
  intros l. apply H.
Qed.

Lemma sextet_of_char_of_sextet (s : N) :
  s < 64 -> sextet_of_char (char_of_sextet s) = Some s.
Proof.
  intros Hs. unfold char_of_sextet.
  destruct (N.ltb_spec s 26); [|destruct (N.ltb_spec s 52);
    [|destruct (N.ltb_spec s 62); [|destruct (N.eqb_spec s 62)]]];
  unfold sextet_of_char; split_compare; try (f_equal; lia); lia.
Qed.

Lemma char_of_sextet_plain (s : N) :
  char_of_sextet s <> 61 /\ is_ascii_whitespace (char_of_sextet s) = false.
Proof.
  unfold char_of_sextet.
  destruct (N.ltb_spec s 26); [|destruct (N.ltb_spec s 52);
    [|destruct (N.ltb_spec s 62); [|destruct (N.eqb_spec s 62)]]];
  unfold is_ascii_whitespace; split_compare; split; try lia; reflexivity.
Qed.

Lemma sextets_lt (bs : list byte) : Forall (fun s => s < 64) (sextets bs).
Proof.
  induction bs as [|a|a b|a b c r IH] using list_ind3; simpl;
    try pose proof (N_of_byte_lt a);
    try pose proof (N_of_byte_lt b); try pose proof (N_of_byte_lt c);
    repeat (apply List.Forall_cons; [lia|]); auto using List.Forall_nil.
Qed.

Lemma decode_sextets_cons4 (a b c d : N) (rest : list N) :
  decode_sextets (a :: b :: c :: d :: rest) =
  byte_of_N ((a * 262144 + b * 4096 + c * 64 + d) / 65536)
    :: byte_of_N ((a * 262144 + b * 4096 + c * 64 + d) / 256)
    :: byte_of_N (a * 262144 + b * 4096 + c * 64 + d)
    :: decode_sextets rest.
Proof. reflexivity. Qed.

Lemma sextets_cons3 (a b c : byte) (rest : list byte) :
  sextets (a :: b :: c :: rest) =
  let n := N_of_byte a * 65536 + N_of_byte b * 256 + N_of_byte c in
  n / 262144 :: (n / 4096) mod 64 :: (n / 64) mod 64 :: n mod 64 :: sextets rest.
Proof. reflexivity. Qed.

Lemma decode_sextets_sextets (bs : list byte) : decode_sextets (sextets bs) = bs.
Proof.
  induction bs as [|a|a b|a b c r IH] using list_ind3.
  - reflexivity.
  - simpl. pose proof (N_of_byte_lt a). f_equal. apply byte_of_N_eq. lia.
  - simpl. pose proof (N_of_byte_lt a). pose proof (N_of_byte_lt b).
    set (n := N_of_byte a * 256 + N_of_byte b).
    assert (n / 1024 * 4096 + (n / 16) mod 64 * 64 + n mod 16 * 4 = n * 4) as -> by lia.
    f_equal; [|f_equal]; apply byte_of_N_eq; lia.
  - rewrite sextets_cons3. cbv zeta. rewrite decode_sextets_cons4, IH.
    pose proof (N_of_byte_lt a). pose proof (N_of_byte_lt b).
    pose proof (N_of_byte_lt c).
    set (n := N_of_byte a * 65536 + N_of_byte b * 256 + N_of_byte c).
    assert (n / 262144 * 262144 + (n / 4096) mod 64 * 4096
            + (n / 64) mod 64 * 64 + n mod 64 = n) as -> by lia.
    f_equal; [|f_equal; [|f_equal]]; apply byte_of_N_eq; lia.
Qed.

Lemma mapM_sextet_of_char (ss : list N) :
  Forall (fun s => s < 64) ss ->
  mapM sextet_of_char (map char_of_sextet ss) = Some ss.
Proof.
  induction 1 as [|s ss Hs _ IH]; [reflexivity|].
  cbn. rewrite sextet_of_char_of_sextet by assumption. cbn.
  now rewrite IH.
Qed.

Lemma encode_lengths (bs : list byte) :
  N.of_nat (length (encode bs)) mod 4 = 0 /\
  N.of_nat (length (sextets bs)) mod 4 <> 1.
Proof.
  unfold encode. rewrite length_app, length_map.
  induction bs as [|a|a b|a b c r IH] using list_ind3; simpl length.
  1-3: split; [reflexivity | discriminate].
  destruct IH as [IH1 IH2].
  change (padding (a :: b :: c :: r)) with (padding r).
  split; lia.
Qed.

Lemma encode_no_whitespace (bs : list byte) :
  List.filter (fun c => negb (is_ascii_whitespace c)) (encode bs) = encode bs.
Proof.
  apply forallb_filter_id, forallb_forall. intros c Hc.
  unfold encode in Hc. apply in_app_or in Hc as [Hc|Hc].
  - apply in_map_iff in Hc as (s & <- & _).
    now rewrite (proj2 (char_of_sextet_plain s)).
  - assert (c = 61) as ->; [|reflexivity].
    revert Hc. clear. induction bs as [|a|a b|a b c' r IH] using list_ind3; simpl;
      intuition.
Qed.

Lemma padding_cases (bs : list byte) :
  padding bs = [] \/ padding bs = [pad] \/ padding bs = [pad; pad].
Proof. induction bs using list_ind3; simpl; auto. Qed.

Lemma strip_padding_encode (bs : list byte) :
  strip_padding (encode bs) = map char_of_sextet (sextets bs).
Proof.
  unfold encode, strip_padding. set (cs := map char_of_sextet (sextets bs)).
  assert (match rev cs with 61 :: _ => False | _ => True end) as Hlast.
  { subst cs. rewrite <- map_rev. destruct (rev (sextets bs)) as [|s r]; simpl; [exact I|].
    pose proof (proj1 (char_of_sextet_plain s)) as Hne.
    destruct (char_of_sextet s) as [|p]; [exact I|].
    do 6 (destruct p as [p|p|]; try exact I). congruence. }
  destruct (padding_cases bs) as [-> | [-> | ->]]; rewrite ?app_nil_r, ?rev_app_distr; simpl.
  - destruct (rev cs) as [|c r] eqn:E; [reflexivity|].
    destruct c as [|p]; [reflexivity|].
    do 6 (destruct p as [p|p|]; try reflexivity). contradiction.
  - destruct (rev cs) as [|c r] eqn:E; [now rewrite <- (rev_involutive cs), E|].
    destruct c as [|p]; [now rewrite <- E, rev_involutive|].
    do 6 (destruct p as [p|p|]; try now rewrite <- E, rev_involutive). contradiction.
  - apply rev_involutive.
Qed.

(** [atob] undoes [btoa] on every byte sequence. *)
Lemma forgiving_decode_encode (bs : list byte) :
  forgiving_decode (encode bs) = Some bs.
Proof.
  unfold forgiving_decode. rewrite encode_no_whitespace.
  destruct (encode_lengths bs) as [-> Hne]. simpl N.eqb. cbv iota.
  rewrite strip_padding_encode, length_map.
  destruct (N.eqb_spec (N.of_nat (length (sextets bs)) mod 4) 1) as [E|_]; [contradiction|].
  rewrite mapM_sextet_of_char by apply sextets_lt.
  cbn. now rewrite decode_sextets_sextets.
Qed.

End Base64Facts.

(** ** UTF-8 *)

Module UtfFacts.
Import Utf.

Example encode_ascii : encode [72; 105] = [Byte.x48; Byte.x69].
Proof. reflexivity. Qed.

Example encode_euro : encode [0x20AC] = [Byte.xe2; Byte.x82; Byte.xac].
Proof. reflexivity. Qed.

Example decode_euro : decode [Byte.xe2; Byte.x82; Byte.xac] = [0x20AC].
Proof. reflexivity. Qed.

Example round_trip_pair : decode (encode [0xD83D; 0xDE00]) = [0xD83D; 0xDE00].
Proof. reflexivity. Qed.

Example encode_lone_surrogate : decode (encode [0xD800]) = [0xFFFD].
Proof. reflexivity. Qed.

Example decode_drops_bom : decode (encode [0xFEFF; 104; 105]) = [104; 105].
Proof. reflexivity. Qed.

Example decode_overlong : decode [Byte.xc0; Byte.x80] = [0xFFFD; 0xFFFD].
Proof. reflexivity. Qed.

Example decode_truncated : decode [Byte.xe2; Byte.x82] = [0xFFFD].
Proof. reflexivity. Qed.

Example decode_restart : decode [Byte.xe2; Byte.x41] = [0xFFFD; 0x41].
Proof. reflexivity. Qed.

Lemma lead_1 (b : N) : b <= 0x7F -> lead b = ([b], initial).
Proof. intros. unfold lead. now split_compare. Qed.

Lemma lead_2 (b : N) :
  0xC2 <= b <= 0xDF ->
  lead b = ([], {| code_point := b mod 32; bytes_needed := 1; bytes_seen := 0;
                   lower_boundary := 0x80; upper_boundary := 0xBF |}).
Proof. intros. unfold lead. now split_compare. Qed.

Lemma lead_3 (b : N) :
  0xE0 <= b <= 0xEF ->
  lead b = ([], {| code_point := b mod 16; bytes_needed := 2; bytes_seen := 0;
                   lower_boundary := if b =? 0xE0 then 0xA0 else 0x80;
                   upper_boundary := if b =? 0xED then 0x9F else 0xBF |}).
Proof.
  intros. unfold lead.
  destruct (N.leb_spec b 0x7F); [lia|].
  destruct (N.leb_spec 0xC2 b); [|lia].
  destruct (N.leb_spec b 0xDF); [lia|].
  destruct (N.leb_spec 0xE0 b); [|lia].
  destruct (N.leb_spec b 0xEF); [|lia]. reflexivity.
Qed.

Lemma lead_4 (b : N) :
  0xF0 <= b <= 0xF4 ->
  lead b = ([], {| code_point := b mod 8; bytes_needed := 3; bytes_seen := 0;
                   lower_boundary := if b =? 0xF0 then 0x90 else 0x80;
                   upper_boundary := if b =? 0xF4 then 0x8F else 0xBF |}).
Proof.
  intros. unfold lead.
  destruct (N.leb_spec b 0x7F); [lia|].
  destruct (N.leb_spec 0xC2 b); [|lia].
  destruct (N.leb_spec b 0xDF); [lia|].
  destruct (N.leb_spec 0xE0 b); [|lia].
  destruct (N.leb_spec b 0xEF); [lia|].
  destruct (N.leb_spec 0xF0 b); [|lia].
  destruct (N.leb_spec b 0xF4); [|lia]. reflexivity.
Qed.

Lemma step_last (c n k lo hi b : N) :
  n <> 0 -> lo <= b <= hi -> k + 1 = n ->
  step {| code_point := c; bytes_needed := n; bytes_seen := k;
          lower_boundary := lo; upper_boundary := hi |} b
  = ([c * 64 + b mod 64], initial).
Proof.
  intros Hn Hb Hk. unfold step. cbn [bytes_needed bytes_seen lower_boundary
    upper_boundary code_point].
  destruct (N.eqb_spec n 0); [lia|].
  destruct (N.ltb_spec b lo); [lia|].
  destruct (N.ltb_spec hi b); [lia|]. cbn [orb].
  destruct (N.eqb_spec (k + 1) n); [reflexivity|lia].
Qed.

Lemma step_more (c n k lo hi b : N) :
  n <> 0 -> lo <= b <= hi -> k + 1 <> n ->
  step {| code_point := c; bytes_needed := n; bytes_seen := k;
          lower_boundary := lo; upper_boundary := hi |} b
  = ([], {| code_point := c * 64 + b mod 64; bytes_needed := n;
            bytes_seen := k + 1;
            lower_boundary := 0x80; upper_boundary := 0xBF |}).
Proof.
  intros Hn Hb Hk. unfold step. cbn [bytes_needed bytes_seen lower_boundary
    upper_boundary code_point].
  destruct (N.eqb_spec n 0); [lia|].
  destruct (N.ltb_spec b lo); [lia|].
  destruct (N.ltb_spec hi b); [lia|]. cbn [orb].
  destruct (N.eqb_spec (k + 1) n); [lia|reflexivity].
Qed.

Lemma utf8_decode_cons (d : decoder) (b : byte) (rest : list byte) :
  utf8_decode d (b :: rest) =
  fst (step d (N_of_byte b)) ++ utf8_decode (snd (step d (N_of_byte b))) rest.
Proof. cbn [utf8_decode]. now destruct (step d (N_of_byte b)). Qed.

Lemma step_initial (b : N) : step initial b = lead b.
Proof. reflexivity. Qed.

(** The decoder reads the encoding of a scalar value back as that value. *)
Lemma utf8_decode_encode_cp (cp : N) (rest : list byte) :
  scalar cp ->
  utf8_decode initial (utf8_encode_cp cp ++ rest) = cp :: utf8_decode initial rest.
Proof.
  intros [Hmax Hsur]. unfold utf8_encode_cp.
  destruct (N.ltb_spec cp 0x80) as [H1|H1];
    [|destruct (N.ltb_spec cp 0x800) as [H2|H2];
      [|destruct (N.ltb_spec cp 0x10000) as [H3|H3]]];
  cbn [app]; rewrite utf8_decode_cons, N_of_byte_of_N, step_initial.
  - rewrite N.mod_small by lia. rewrite lead_1 by lia. reflexivity.
  - rewrite (N.mod_small (0xC0 + cp / 64)) by lia.
    rewrite lead_2 by lia. cbn [fst snd app].
    rewrite utf8_decode_cons, N_of_byte_of_N.
    rewrite (N.mod_small (0x80 + cp mod 64)) by lia.
    rewrite step_last by lia. cbn [fst snd app]. f_equal. lia.
  - rewrite (N.mod_small (0xE0 + cp / 4096)) by lia.
    rewrite lead_3 by lia. cbn [fst snd app].
    rewrite utf8_decode_cons, N_of_byte_of_N.
    rewrite (N.mod_small (0x80 + (cp / 64) mod 64)) by lia.
    rewrite step_more; [| lia | | lia].
    2:{ destruct (N.eqb_spec (0xE0 + cp / 4096) 0xE0);
        destruct (N.eqb_spec (0xE0 + cp / 4096) 0xED); lia. }
    cbn [fst snd app].
    rewrite utf8_decode_cons, N_of_byte_of_N.
    rewrite (N.mod_small (0x80 + cp mod 64)) by lia.
    rewrite step_last by lia. cbn [fst snd app]. f_equal. lia.
  - rewrite (N.mod_small (0xF0 + cp / 262144)) by lia.
    rewrite lead_4 by lia. cbn [fst snd app].
    rewrite utf8_decode_cons, N_of_byte_of_N.
    rewrite (N.mod_small (0x80 + (cp / 4096) mod 64)) by lia.
    rewrite step_more; [| lia | | lia].
    2:{ destruct (N.eqb_spec (0xF0 + cp / 262144) 0xF0);
        destruct (N.eqb_spec (0xF0 + cp / 262144) 0xF4); lia. }
    cbn [fst snd app].
    rewrite utf8_decode_cons, N_of_byte_of_N.
    rewrite (N.mod_small (0x80 + (cp / 64) mod 64)) by lia.
    rewrite step_more by lia. cbn [fst snd app].
    rewrite utf8_decode_cons, N_of_byte_of_N.
    rewrite (N.mod_small (0x80 + cp mod 64)) by lia.
    rewrite step_last by lia. cbn [fst snd app]. f_equal. lia.
Qed.

Lemma utf8_decode_encode (cps : list N) :
  Forall scalar cps ->
  utf8_decode initial (flat_map utf8_encode_cp cps) = cps.
Proof.
  induction 1 as [|cp cps Hcp _ IH]; [reflexivity|].
  cbn [flat_map]. rewrite utf8_decode_encode_cp by assumption. now rewrite IH.
Qed.

Lemma well_formed_ind (P : jsstring -> Prop) :
  P [] ->
  (forall u v r, is_high_surrogate u = true -> is_low_surrogate v = true ->
                 P r -> P (u :: v :: r)) ->
  (forall u r, is_high_surrogate u = false -> is_low_surrogate u = false ->
               u < 0x10000 -> P r -> P (u :: r)) ->
  forall s, well_formed s = true -> P s.
Proof.
  intros Hnil Hpair Hunit s.
  remember (length s) as n eqn:Hn. revert s Hn.
  induction n as [n IH] using lt_wf_ind. intros [|u rest] Hn Hwf; [exact Hnil|].
  cbn [well_formed] in Hwf. destruct (is_high_surrogate u) eqn:Hu.
  - destruct rest as [|v rest']; [discriminate|].
    apply andb_prop in Hwf as [Hv Hwf].
    apply Hpair; auto. apply (IH (length rest')); [cbn in Hn; lia | reflexivity | exact Hwf].
  - apply andb_prop in Hwf as [Hwf1 Hwf]. apply andb_prop in Hwf1 as [Hlo Hlt].
    apply negb_true_iff in Hlo. apply N.ltb_lt in Hlt.
    apply Hunit; auto. apply (IH (length rest)); [cbn in Hn; lia | reflexivity | exact Hwf].
Qed.

Lemma surrogate_bounds (u : N) :
  (is_high_surrogate u = true <-> 0xD800 <= u <= 0xDBFF) /\
  (is_low_surrogate u = true <-> 0xDC00 <= u <= 0xDFFF).
Proof.
  unfold is_high_surrogate, is_low_surrogate.
  rewrite !andb_true_iff, !N.leb_le. tauto.
Qed.

Lemma surrogate_bounds_false (u : N) :
  is_high_surrogate u = false -> is_low_surrogate u = false ->
  ~ (0xD800 <= u <= 0xDFFF).
Proof.
  intros Hh Hl [H1 H2].
  destruct (N.le_gt_cases u 0xDBFF).
  - apply not_true_iff_false in Hh. apply Hh, surrogate_bounds. lia.
  - apply not_true_iff_false in Hl. apply Hl, surrogate_bounds. lia.
Qed.

(** On a well-formed string the conversion to scalar values loses nothing. *)
Lemma to_scalar_values_well_formed (s : jsstring) :
  well_formed s = true ->
  Forall scalar (to_scalar_values s) /\
  flat_map units_of_code_point (to_scalar_values s) = s.
Proof.
  revert s. apply well_formed_ind;
    [|intros u v r Hu Hv [IH1 IH2]|intros u r Hu Hl Hlt [IH1 IH2]].
  - split; [constructor | reflexivity].
  - cbn [to_scalar_values]. rewrite Hu, Hv.
    apply surrogate_bounds in Hu. apply surrogate_bounds in Hv.
    split.
    + constructor; [|exact IH1]. unfold scalar. lia.
    + cbn [flat_map]. rewrite IH2. unfold units_of_code_point.
      destruct (N.ltb_spec (0x10000 + (u - 0xD800) * 0x400 + (v - 0xDC00)) 0x10000); [lia|].
      cbn [app]. f_equal; [|f_equal]; lia.
  - cbn [to_scalar_values]. rewrite Hu, Hl.
    pose proof (surrogate_bounds_false u Hu Hl).
    split.
    + constructor; [|exact IH1]. unfold scalar. lia.
    + cbn [flat_map]. rewrite IH2. unfold units_of_code_point.
      destruct (N.ltb_spec u 0x10000); [reflexivity|lia].
Qed.

Lemma strip_bom_to_scalar_values (s : jsstring) :
  starts_with_bom s = false ->
  strip_bom (to_scalar_values s) = to_scalar_values s.
Proof.
  destruct s as [|u rest]; [reflexivity|]. intros Hb.
  cbn [to_scalar_values].
  destruct (is_high_surrogate u) eqn:Hu.
  - destruct rest as [|v rest']; [reflexivity|].
    destruct (is_low_surrogate v) eqn:Hv; [|reflexivity].
    apply surrogate_bounds in Hu. apply surrogate_bounds in Hv.
    unfold strip_bom.
    destruct (N.eqb_spec (0x10000 + (u - 0xD800) * 0x400 + (v - 0xDC00)) 0xFEFF) as [E|E]; [lia|].
    destruct (0x10000 + (u - 0xD800) * 0x400 + (v - 0xDC00)) as [|p]; [reflexivity|].
    do 16 (destruct p as [p|p|]; try reflexivity). now contradict E.
  - destruct (is_low_surrogate u); [reflexivity|].
    unfold strip_bom. destruct u as [|p]; [reflexivity|].
    do 16 (destruct p as [p|p|]; try reflexivity). discriminate Hb.
Qed.

(** [TextDecoder.decode] undoes [TextEncoder.encode] on a well-formed string
    that does not begin with U+FEFF. *)
Lemma decode_encode (s : jsstring) :
  well_formed s = true -> starts_with_bom s = false ->
  decode (encode s) = s.
Proof.
  intros Hwf Hbom. unfold decode, encode.
  destruct (to_scalar_values_well_formed s Hwf) as [Hsc Hunits].
  now rewrite utf8_decode_encode, strip_bom_to_scalar_values.
Qed.

End UtfFacts.

(** Unfolding of the operations of [M]. *)
Ltac run_M :=
  unfold mbind, M_bind, mret, M_ret, lift, throw, try_catch, get_world, modify;
  cbn beta iota zeta.

(** ** Binary strings and base64 *)

Lemma charCodes_fromCharCode (bs : list byte) : charCodes (fromCharCode bs) = bs.
Proof.
  unfold charCodes, fromCharCode. rewrite map_map.
  rewrite <- (map_id bs) at 2. apply map_ext, byte_of_N_of_byte.
Qed.

Lemma btoa_fromCharCode (bs : list byte) :
  btoa (fromCharCode bs) = Ok (Base64.encode bs).
Proof.
  unfold btoa. fold (charCodes (fromCharCode bs)). rewrite charCodes_fromCharCode.
  assert (forallb (fun c => c <=? 255) (fromCharCode bs) = true) as ->; [|reflexivity].
  apply forallb_forall. intros c Hc. apply in_map_iff in Hc as (b & <- & _).
  pose proof (N_of_byte_lt b). apply N.leb_le. lia.
Qed.

Lemma atob_encode (bs : list byte) :
  atob (Base64.encode bs) = Ok (fromCharCode bs).
Proof. unfold atob. now rewrite Base64Facts.forgiving_decode_encode. Qed.

(** The bytes recovered from the base64 text of a byte sequence. *)
Lemma bytes_of_base64 (bs : list byte) :
  charCodes <$> atob (Base64.encode bs) = Ok bs.
Proof. rewrite atob_encode. cbn. now rewrite charCodes_fromCharCode. Qed.

Lemma getRandomValues_length (n : nat) (w : World) :
  exists bs, getRandomValues n w = (Ok bs, set_drawn (drawn w + n) w) /\ length bs = n.
Proof.
  eexists. split; [reflexivity|]. now rewrite length_map, length_seq.
Qed.

(** ** Symmetric cipher *)

Section CodecFacts.
Context {P : Platform}.

Lemma encryptText_eq (text : jsstring) (k : CryptoKey) (w : World) :
  let nonce := map (entropy w) (seq (drawn w) 12) in
  encryptText text k w =
  (Ok {| ciphertext := Base64.encode (subtle_encrypt nonce k (Utf.encode text));
         iv := Base64.encode nonce |},
   set_drawn (drawn w + 12) w).
Proof.
  cbv zeta. unfold encryptText, mbind, M_bind, lift. cbn [getRandomValues].
  now rewrite !btoa_fromCharCode.
Qed.

Lemma encryptFile_eq (file : list byte) (k : CryptoKey) (w : World) :
  let nonce := map (entropy w) (seq (drawn w) 12) in
  encryptFile file k w =
  (Ok {| blob := subtle_encrypt nonce k file; fileIv := Base64.encode nonce |},
   set_drawn (drawn w + 12) w).
Proof.
  cbv zeta. unfold encryptFile, mbind, M_bind, lift. cbn [getRandomValues].
  now rewrite !btoa_fromCharCode.
Qed.

Lemma decryptText_encoded (c nonce : list byte) (k : CryptoKey) :
  decryptText (Base64.encode c) (Base64.encode nonce) k =
  Utf.decode <$> subtle_decrypt nonce k c.
Proof.
  unfold decryptText. rewrite !bytes_of_base64. cbn.
  now destruct (subtle_decrypt nonce k c).
Qed.

Lemma decryptFile_encoded (c nonce : list byte) (k : CryptoKey) :
  decryptFile c k (Base64.encode nonce) = subtle_decrypt nonce k c.
Proof.
  unfold decryptFile. rewrite !bytes_of_base64. cbn.
  now destruct (subtle_decrypt nonce k c).
Qed.

End CodecFacts.

(** ** The small platform has the assumed laws *)

Module ToyFacts.
Import Toy.

Lemma unseal_seal (k nonce data : list byte) :
  unseal k nonce (seal k nonce data) = Some data.
Proof.
  unfold unseal, seal. rewrite <- length_app, app_assoc.
  rewrite take_app_length, drop_app_length.
  now destruct (decide (k ++ nonce = k ++ nonce)).
Defined.

Lemma aes_gcm_correct : AesGcmCorrect platform.
Proof. intros k nonce data _. apply unseal_seal. Defined.

Lemma aes_gcm_sound : AesGcmSound platform.
Proof.
  intros k nonce data plain. cbn. unfold unseal, seal.
  destruct (decide _) as [E|_]; [|discriminate]. intros [= <-].
  rewrite app_assoc, <- E. apply take_drop.
Defined.

Lemma rsa_oaep_correct : RsaOaepCorrect platform.
Proof.
  intros pub priv seed data Hpair Hseed Hlen. cbn in *. subst priv.
  unfold wrap, unwrap.
  destruct (decide (pub = pub)) as [_|]; [|contradiction].
  unfold oaep_seed_length in *. now rewrite <- Hseed, drop_app_length.
Defined.

End ToyFacts.

(** ** Round trip and authentication of the codecs *)

Lemma CryptoKey_raw_inj (k1 k2 : CryptoKey) : raw k1 = raw k2 -> k1 = k2.
Proof. destruct k1, k2. cbn. now intros ->. Qed.

Lemma base64_encode_inj (a b : list byte) : Base64.encode a = Base64.encode b -> a = b.
Proof.
  intros E. apply (f_equal Base64.forgiving_decode) in E.
  rewrite !Base64Facts.forgiving_decode_encode in E. congruence.
Qed.

(** C1, as amended: for every well-formed plaintext string P (no surrogate
    code unit outside a pair) that does not begin with U+FEFF, and every
    AES-GCM key K, [decryptText] applied to the ciphertext and the base64 IV
    returned by [encryptText P K], with K, yields P; and for every byte
    payload F, [decryptFile] applied to the blob and IV returned by
    [encryptFile F K], with K, yields F. AES-GCM is assumed to decrypt what
    it encrypted. *)
Theorem encrypt_decrypt_round_trip {P : Platform} (Hcorrect : AesGcmCorrect P) :
  (forall (text : jsstring) (k : CryptoKey) (w : World),
      Utf.well_formed text = true -> Utf.starts_with_bom text = false ->
      exists enc w',
        encryptText text k w = (Ok enc, w') /\
        decryptText (ciphertext enc) (iv enc) k = Ok text) /\
  (forall (file : list byte) (k : CryptoKey) (w : World),
      exists enc w',
        encryptFile file k w = (Ok enc, w') /\
        decryptFile (blob enc) k (fileIv enc) = Ok file).
Proof.
  split.
  - intros text k w Hwf Hbom. do 2 eexists. split; [apply encryptText_eq|].
    cbn [ciphertext iv]. rewrite decryptText_encoded.
    unfold subtle_decrypt, subtle_encrypt.
    rewrite Hcorrect by now rewrite length_map, length_seq.
    cbn. now rewrite UtfFacts.decode_encode.
  - intros file k w. do 2 eexists. split; [apply encryptFile_eq|].
    cbn [blob fileIv]. rewrite decryptFile_encoded.
    unfold subtle_decrypt, subtle_encrypt.
    now rewrite Hcorrect by now rewrite length_map, length_seq.
Qed.

Lemma encrypt_decrypt_round_trip_witness :
  Utf.well_formed (lit "hi") = true /\ Utf.starts_with_bom (lit "hi") = false /\
  exists enc w',
    encryptText (P := Toy.platform) (lit "hi") (Toy.key_of Byte.x01) Toy.empty_world
      = (Ok enc, w') /\
    decryptText (P := Toy.platform) (ciphertext enc) (iv enc) (Toy.key_of Byte.x01) = Ok (lit "hi").
Proof.
  split; [reflexivity|]. split; [reflexivity|].
  exact (proj1 (encrypt_decrypt_round_trip ToyFacts.aes_gcm_correct)
           (lit "hi") (Toy.key_of Byte.x01) Toy.empty_world eq_refl eq_refl).
Defined.

(** What [decryptText] returns for the encryption of any text, under the
    key of the encryption. *)
Lemma decryptText_encryptText {P : Platform} (Hcorrect : AesGcmCorrect P)
    (text : jsstring) (k : CryptoKey) (w : World) :
  exists enc w',
    encryptText text k w = (Ok enc, w') /\
    decryptText (ciphertext enc) (iv enc) k = Ok (Utf.decode (Utf.encode text)).
Proof.
  do 2 eexists. split; [apply encryptText_eq|].
  cbn [ciphertext iv]. rewrite decryptText_encoded.
  unfold subtle_decrypt, subtle_encrypt.
  now rewrite Hcorrect by now rewrite length_map, length_seq.
Qed.

(** C1 as stated fails on a string that holds a surrogate outside a pair:
    the one-unit string U+D800 is encrypted and decrypted to U+FFFD. *)
Lemma lone_surrogate_not_recovered :
  exists enc w',
    encryptText (P := Toy.platform) [0xD800] (Toy.key_of Byte.x01) Toy.empty_world
      = (Ok enc, w') /\
    decryptText (P := Toy.platform) (ciphertext enc) (iv enc) (Toy.key_of Byte.x01)
      = Ok [0xFFFD] /\
    [0xFFFD] <> [0xD800].
Proof.
  destruct (decryptText_encryptText ToyFacts.aes_gcm_correct [0xD800]
              (Toy.key_of Byte.x01) Toy.empty_world) as (enc & w' & Henc & Hdec).
  exists enc, w'. split; [exact Henc|]. split; [exact Hdec|discriminate].
Qed.

(** So does it on a string that begins with U+FEFF, which the decoder
    drops. *)
Example leading_bom_not_recovered :
  exists enc w',
    encryptText (P := Toy.platform) (0xFEFF :: lit "hi") (Toy.key_of Byte.x01)
      Toy.empty_world = (Ok enc, w') /\
    decryptText (P := Toy.platform) (ciphertext enc) (iv enc) (Toy.key_of Byte.x01) = Ok (lit "hi").
Proof.
  exact (decryptText_encryptText ToyFacts.aes_gcm_correct (0xFEFF :: lit "hi")
           (Toy.key_of Byte.x01) Toy.empty_world).
Qed.

(** ** AES-GCM: known answers and the laws it has *)

Module AesGcmFacts.
Import AesGcm.

(** The cipher of FIPS 197, appendix C.3 (a key of 256 bits) and C.1 (a
    key of 128 bits). *)
Example aes_256_known_answer :
  map byte_of_N
    (aes (map N_of_byte (hex "000102030405060708090a0b0c0d0e0f101112131415161718191a1b1c1d1e1f"))
         (map N_of_byte (hex "00112233445566778899aabbccddeeff")))
  = hex "8ea2b7ca516745bfeafc49904b496089".
Proof. vm_compute. reflexivity. Qed.

Example aes_128_known_answer :
  map byte_of_N
    (aes (map N_of_byte (hex "000102030405060708090a0b0c0d0e0f"))
         (map N_of_byte (hex "00112233445566778899aabbccddeeff")))
  = hex "69c4e0d86a7b0430d8cdb78070b4c55a".
Proof. vm_compute. reflexivity. Qed.

(** The mode: test cases 13 and 14 of the GCM specification (a key of
    256 zero bits, an IV of 96 zero bits; no plaintext, and a block of
    zeros). *)
Example gcm_known_answer_13 :
  encrypt (replicate 32 Byte.x00) (replicate 12 Byte.x00) []
  = hex "530f8afbc74536b9a963b4f1c4cb738b".
Proof. vm_compute. reflexivity. Qed.

Example gcm_known_answer_14 :
  encrypt (replicate 32 Byte.x00) (replicate 12 Byte.x00) (replicate 16 Byte.x00)
  = hex "cea7403d4d606b6e074ec5d3baf39d18d0d1c8a799996bf0265b98b5d48ab919".
Proof. vm_compute. reflexivity. Qed.

Lemma lxor_byte_lt (a b : N) : a < 256 -> b < 256 -> N.lxor a b < 256.
Proof.
  intros Ha Hb.
  assert (forall x, x < 256 -> N.log2 x < 8) as Hlog.
  { intros x Hx. destruct (N.eq_dec x 0) as [->|Hne]; [reflexivity|].
    apply N.log2_lt_pow2; [lia|exact Hx]. }
  destruct (N.eq_dec (N.lxor a b) 0) as [->|Hne]; [reflexivity|].
  change 256 with (2 ^ 8). apply N.log2_lt_pow2; [lia|].
  pose proof (N.log2_lxor a b). pose proof (Hlog a Ha). pose proof (Hlog b Hb). lia.
Qed.

Lemma xor_byte_cancel (a b : byte) : xor_byte (xor_byte a b) b = a.
Proof.
  unfold xor_byte. rewrite N_of_byte_of_N.
  rewrite N.mod_small by (apply lxor_byte_lt; apply N_of_byte_lt).
  rewrite N.lxor_assoc, N.lxor_nilpotent, N.lxor_0_r. apply byte_of_N_of_byte.
Qed.

Lemma zip_with_xor_cancel (d s : list byte) :
  (length d <= length s)%nat ->
  zip_with xor_byte (zip_with xor_byte d s) s = d.
Proof.
  revert s. induction d as [|a d IH]; intros [|b s] Hlen; cbn in *; try reflexivity; [lia|].
  rewrite xor_byte_cancel, IH by lia. reflexivity.
Qed.

Lemma length_bytes_of (x : N) : length (bytes_of x) = 16%nat.
Proof. reflexivity. Qed.

Lemma length_key_stream (E : N -> N) (icb : N) (n : nat) :
  length (key_stream E icb n) = (16 * blocks_for n)%nat.
Proof.
  unfold key_stream.
  assert (forall m from,
            length (flat_map (fun i => bytes_of (E (counter icb i))) (seq from m))
            = (16 * m)%nat) as H; [|apply H].
  induction m as [|m IH]; intros from; [reflexivity|].
  cbn [seq flat_map]. rewrite length_app, IH, length_bytes_of. lia.
Qed.

Lemma blocks_for_enough (n : nat) : (n <= 16 * blocks_for n)%nat.
Proof.
  unfold blocks_for.
  pose proof (Nat.div_mod_eq (n + 15) 16). pose proof (Nat.mod_upper_bound (n + 15) 16). lia.
Qed.

Lemma length_gctr (E : N -> N) (icb : N) (data : list byte) :
  length (gctr E icb data) = length data.
Proof.
  unfold gctr. rewrite length_zip_with, length_key_stream.
  pose proof (blocks_for_enough (length data)). lia.
Qed.

Lemma gctr_cancel (E : N -> N) (icb : N) (data : list byte) :
  gctr E icb (gctr E icb data) = data.
Proof.
  unfold gctr at 1. rewrite length_gctr. unfold gctr.
  apply zip_with_xor_cancel. rewrite length_key_stream. apply blocks_for_enough.
Qed.

Lemma length_tag (E : N -> N) (iv body : list byte) : length (tag E iv body) = 16%nat.
Proof. reflexivity. Qed.

Lemma decrypt_encrypt (key iv data : list byte) :
  iv <> [] -> decrypt key iv (encrypt key iv data) = Some data.
Proof.
  intros Hiv. unfold decrypt, encrypt.
  set (E := block_cipher key). set (icb := counter (J0 (E 0) iv) 1).
  set (body := gctr E icb data).
  assert ((length iv =? 0)%nat = false) as ->
    by (apply Nat.eqb_neq; destruct iv; [congruence|discriminate]).
  rewrite length_app, length_tag.
  assert ((length body + 16 <? 16)%nat = false) as -> by (apply Nat.ltb_ge; lia).
  cbn [orb]. replace (length body + 16 - 16)%nat with (length body) by lia.
  rewrite take_app_length, drop_app_length.
  rewrite decide_True by reflexivity. unfold body. now rewrite gctr_cancel.
Qed.

Lemma gcm_correct : AesGcmCorrect platform.
Proof.
  intros k iv data Hlen. apply decrypt_encrypt. intros ->. discriminate.
Qed.

Lemma encrypt_decrypt (key iv data plain : list byte) :
  decrypt key iv data = Some plain -> encrypt key iv plain = data.
Proof.
  unfold decrypt, encrypt.
  destruct (_ || _); [discriminate|].
  set (E := block_cipher key). set (icb := counter (J0 (E 0) iv) 1).
  set (n := (length data - 16)%nat).
  destruct (decide _) as [Htag|_]; [|discriminate]. intros [= <-].
  rewrite gctr_cancel, <- Htag. apply take_drop.
Qed.

Lemma gcm_sound : AesGcmSound platform.
Proof. intros k iv data plain. apply encrypt_decrypt. Qed.

Lemma length_encrypt (key iv data : list byte) :
  length (encrypt key iv data) = (length data + 16)%nat.
Proof. unfold encrypt. now rewrite length_app, length_tag, length_gctr. Qed.

Lemma gcm_nonempty : AesGcmNonEmpty (P := platform).
Proof.
  intros k iv data _ H. apply (f_equal length) in H.
  change (aes_gcm_encrypt k iv data) with (encrypt k iv data) in H.
  rewrite length_encrypt in H. rewrite Nat.add_comm in H. discriminate.
Qed.

End AesGcmFacts.

(** ** Decryption with another key, another IV, other bytes *)

(** C7, as amended: [decryptText] and [decryptFile] give the stored bytes
    and the stored IV to AES-GCM as they are and catch nothing. Whatever
    bytes, key and IV they are given (a ciphertext made under another
    key, an IV that is not the one of the encryption, bytes that were
    tampered with), either the decryption error of the platform (the
    AuthenticationError of the specification) reaches the caller, or the
    bytes are exactly the AES-GCM encryption, under the key and IV given,
    of the plaintext that is returned. In particular, decrypting under K2
    or under another IV what [encryptText] or [encryptFile] made under K1
    raises the error unless that ciphertext is also the encryption of
    some plaintext under K2 or under the other IV. AES-GCM is assumed to
    compare the tag before it gives anything out. *)
Theorem decrypt_authentication_error {P : Platform} (Hsound : AesGcmSound P) :
  (forall (ciphertext ivBase64 : jsstring) (k : CryptoKey) (nonce data : list byte),
      charCodes <$> atob ivBase64 = Ok nonce ->
      charCodes <$> atob ciphertext = Ok data ->
      match aes_gcm_decrypt (raw k) nonce data with
      | None => decryptText ciphertext ivBase64 k = Err OperationError
      | Some plain =>
          decryptText ciphertext ivBase64 k = Ok (Utf.decode plain) /\
          aes_gcm_encrypt (raw k) nonce plain = data
      end) /\
  (forall (blob : list byte) (ivBase64 : jsstring) (k : CryptoKey) (nonce : list byte),
      charCodes <$> atob ivBase64 = Ok nonce ->
      match aes_gcm_decrypt (raw k) nonce blob with
      | None => decryptFile blob k ivBase64 = Err OperationError
      | Some plain =>
          decryptFile blob k ivBase64 = Ok plain /\
          aes_gcm_encrypt (raw k) nonce plain = blob
      end) /\
  (forall (text : jsstring) (k1 k2 : CryptoKey) (w w' : World) (enc : EncryptedText)
          (nonce' : list byte),
      encryptText text k1 w = (Ok enc, w') ->
      let nonce := map (entropy w) (seq (drawn w) 12) in
      let sealed := aes_gcm_encrypt (raw k1) nonce (Utf.encode text) in
      (decryptText (ciphertext enc) (iv enc) k2 = Err OperationError \/
       exists plain,
         aes_gcm_encrypt (raw k2) nonce plain = sealed /\
         decryptText (ciphertext enc) (iv enc) k2 = Ok (Utf.decode plain)) /\
      (decryptText (ciphertext enc) (Base64.encode nonce') k1 = Err OperationError \/
       exists plain,
         aes_gcm_encrypt (raw k1) nonce' plain = sealed /\
         decryptText (ciphertext enc) (Base64.encode nonce') k1 = Ok (Utf.decode plain))) /\
  (forall (file : list byte) (k1 k2 : CryptoKey) (w w' : World) (enc : EncryptedFile)
          (nonce' : list byte),
      encryptFile file k1 w = (Ok enc, w') ->
      let nonce := map (entropy w) (seq (drawn w) 12) in
      let sealed := aes_gcm_encrypt (raw k1) nonce file in
      (decryptFile (blob enc) k2 (fileIv enc) = Err OperationError \/
       exists plain,
         aes_gcm_encrypt (raw k2) nonce plain = sealed /\
         decryptFile (blob enc) k2 (fileIv enc) = Ok plain) /\
      (decryptFile (blob enc) k1 (Base64.encode nonce') = Err OperationError \/
       exists plain,
         aes_gcm_encrypt (raw k1) nonce' plain = sealed /\
         decryptFile (blob enc) k1 (Base64.encode nonce') = Ok plain)) /\
  (forall (ciphertext ivBase64 : jsstring) (k : CryptoKey) (text : jsstring),
      decryptText ciphertext ivBase64 k = Ok text ->
      exists nonce data plain,
        charCodes <$> atob ivBase64 = Ok nonce /\
        charCodes <$> atob ciphertext = Ok data /\
        aes_gcm_decrypt (raw k) nonce data = Some plain /\
        aes_gcm_encrypt (raw k) nonce plain = data /\
        text = Utf.decode plain).
Proof.
  assert (forall (k : CryptoKey) (nonce data : list byte),
            match aes_gcm_decrypt (raw k) nonce data with
            | None => subtle_decrypt nonce k data = Err OperationError
            | Some plain => subtle_decrypt nonce k data = Ok plain /\
                            aes_gcm_encrypt (raw k) nonce plain = data
            end) as Hplatform.
  { intros k nonce data. unfold subtle_decrypt.
    destruct (aes_gcm_decrypt (raw k) nonce data) as [plain|] eqn:Hd; [|reflexivity].
    split; [reflexivity|now apply Hsound]. }
  assert (forall (k : CryptoKey) (nonce data : list byte),
            subtle_decrypt nonce k data = Err OperationError \/
            exists plain, aes_gcm_encrypt (raw k) nonce plain = data /\
                          subtle_decrypt nonce k data = Ok plain) as Heither.
  { intros k nonce data. pose proof (Hplatform k nonce data) as H.
    destruct (aes_gcm_decrypt (raw k) nonce data) as [plain|]; [right|now left].
    exists plain. now destruct H. }
  split; [|split; [|split; [|split]]].
  - intros ct ivb k nonce data Hiv Hct. pose proof (Hplatform k nonce data) as H.
    unfold decryptText. rewrite Hiv, Hct. cbn [mbind result_bind].
    destruct (aes_gcm_decrypt (raw k) nonce data) as [plain|].
    + destruct H as [-> H]. now split.
    + now rewrite H.
  - intros b ivb k nonce Hiv. pose proof (Hplatform k nonce b) as H.
    unfold decryptFile. rewrite Hiv. cbn [mbind result_bind].
    destruct (aes_gcm_decrypt (raw k) nonce b) as [plain|].
    + destruct H as [-> H]. now split.
    + now rewrite H.
  - intros text k1 k2 w w' enc nonce' Henc nonce sealed.
    assert (ciphertext enc = Base64.encode sealed /\ iv enc = Base64.encode nonce)
      as [-> ->] by (rewrite encryptText_eq in Henc; now injection Henc as <- <-).
    rewrite !decryptText_encoded. split.
    + destruct (Heither k2 nonce sealed) as [H|(plain & H1 & H)]; rewrite H;
        [now left|right; eauto].
    + destruct (Heither k1 nonce' sealed) as [H|(plain & H1 & H)]; rewrite H;
        [now left|right; eauto].
  - intros file k1 k2 w w' enc nonce' Henc nonce sealed.
    assert (blob enc = sealed /\ fileIv enc = Base64.encode nonce)
      as [-> ->] by (rewrite encryptFile_eq in Henc; now injection Henc as <- <-).
    rewrite !decryptFile_encoded. split.
    + destruct (Heither k2 nonce sealed) as [H|(plain & H1 & H)]; rewrite H;
        [now left|right; eauto].
    + destruct (Heither k1 nonce' sealed) as [H|(plain & H1 & H)]; rewrite H;
        [now left|right; eauto].
  - intros ct ivb k text Hdec. unfold decryptText in Hdec.
    destruct (charCodes <$> atob ivb) as [nonce|]; [|discriminate].
    destruct (charCodes <$> atob ct) as [data|]; [|discriminate].
    cbn in Hdec. unfold subtle_decrypt in Hdec.
    destruct (aes_gcm_decrypt (raw k) nonce data) as [plain|] eqn:Hplain; [|discriminate].
    cbn in Hdec. injection Hdec as <-. exists nonce, data, plain.
    repeat split; auto.
Qed.

(** On the cipher of the browser: a text encrypted under one key is
    refused under another. *)
Lemma decrypt_authentication_error_witness :
  exists enc w',
    encryptText (P := AesGcm.platform) (lit "hi") AesGcmExamples.key_11 Toy.empty_world
      = (Ok enc, w') /\
    decryptText (P := AesGcm.platform) (ciphertext enc) (iv enc) AesGcmExamples.key_22
      = Err OperationError.
Proof.
  do 2 eexists. split; [apply encryptText_eq|]. cbn [ciphertext iv].
  pose proof (proj1 (decrypt_authentication_error AesGcmFacts.gcm_sound)
                _ _ AesGcmExamples.key_22 _ _
                (bytes_of_base64 (map (entropy Toy.empty_world)
                                    (seq (drawn Toy.empty_world) 12)))
                (bytes_of_base64
                   (subtle_encrypt (P := AesGcm.platform)
                      (map (entropy Toy.empty_world) (seq (drawn Toy.empty_world) 12))
                      AesGcmExamples.key_11 (Utf.encode (lit "hi"))))) as H.
  match type of H with
  | match ?d with _ => _ end =>
      assert (d = None) as Hd by (vm_compute; reflexivity); rewrite Hd in H
  end.
  exact H.
Defined.

(** C7 as stated fails: AES-GCM does not commit to its key. The text
    below, encrypted under one key of 256 bits, is accepted under
    another: [decryptText] raises nothing and returns a text that is not
    the one that was encrypted. *)
Lemma wrong_key_accepted :
  exists enc w' garbled,
    encryptText (P := AesGcm.platform) AesGcmExamples.colliding_text AesGcmExamples.key_11
      (AesGcmExamples.device_drawing AesGcmExamples.colliding_iv) = (Ok enc, w') /\
    length (raw AesGcmExamples.key_11) = 32%nat /\
    length (raw AesGcmExamples.key_22) = 32%nat /\
    AesGcmExamples.key_11 <> AesGcmExamples.key_22 /\
    decryptText (P := AesGcm.platform) (ciphertext enc) (iv enc) AesGcmExamples.key_11
      = Ok AesGcmExamples.colliding_text /\
    decryptText (P := AesGcm.platform) (ciphertext enc) (iv enc) AesGcmExamples.key_22
      = Ok garbled /\
    garbled <> AesGcmExamples.colliding_text.
Proof.
  do 3 eexists. split; [vm_compute; reflexivity|].
  split; [reflexivity|]. split; [reflexivity|]. split; [discriminate|].
  split; [vm_compute; reflexivity|]. split; [vm_compute; reflexivity|].
  discriminate.
Qed.

(** The same bytes as a file: [decryptFile] under the other key returns
    sixteen bytes that were never encrypted. *)
Example wrong_key_accepted_file :
  exists enc w',
    encryptFile (P := AesGcm.platform) (AesGcm.hex "78637070595c726a312b2c6049393979")
      AesGcmExamples.key_11 (AesGcmExamples.device_drawing AesGcmExamples.colliding_iv)
    = (Ok enc, w') /\
    blob enc = AesGcm.hex "c794be5ed2e1991b58191ffa2a33e894aca29d190d6be8e171956aebdd864d47" /\
    decryptFile (P := AesGcm.platform) (blob enc) AesGcmExamples.key_22 (fileIv enc)
    = Ok (AesGcm.hex "50ebe3bc159d87066bca90cf02eabd53").
Proof.
  do 2 eexists. split; [vm_compute; reflexivity|].
  split; vm_compute; reflexivity.
Qed.

(** ** Wrapping a key for a recipient *)

Section PublicKeyFacts.
Context {P : Platform}.

Lemma encryptWithPublicKey_eq (data : list byte) (pub : rsa_public_key) (w : World) :
  (length data <= rsa_max_payload pub)%nat ->
  let seed := map (entropy w) (seq (drawn w) oaep_seed_length) in
  encryptWithPublicKey data pub w =
  (Ok (Base64.encode (rsa_oaep_encrypt pub seed data)),
   set_drawn (drawn w + oaep_seed_length) w).
Proof.
  intros Hlen. cbv zeta. unfold encryptWithPublicKey, subtle_encrypt_rsa.
  apply Nat.leb_le in Hlen. rewrite Hlen.
  unfold mbind, M_bind, lift, mret, M_ret. cbn [getRandomValues].
  now rewrite btoa_fromCharCode.
Qed.

Lemma encryptWithPublicKey_too_long (data : list byte) (pub : rsa_public_key) (w : World) :
  (rsa_max_payload pub < length data)%nat ->
  encryptWithPublicKey data pub w = (Err OperationError, w).
Proof.
  intros Hlen. unfold encryptWithPublicKey, subtle_encrypt_rsa.
  apply Nat.leb_gt in Hlen. now rewrite Hlen.
Qed.

Lemma decryptWithPrivateKey_encoded (c : list byte) (priv : rsa_private_key) :
  decryptWithPrivateKey (Base64.encode c) priv =
  or_throw OperationError (rsa_oaep_decrypt priv c).
Proof.
  unfold decryptWithPrivateKey. rewrite bytes_of_base64. cbn.
  now destruct (rsa_oaep_decrypt priv c).
Qed.

End PublicKeyFacts.

(** The package that [encryptWithPublicKey] makes of a key of 256 bits
    under a public key of 2048 bits is unwrapped by the private key of
    the pair: [decryptWithPrivateKey] returns exactly the bytes of the
    key. RSA-OAEP is assumed to decrypt what it encrypted. *)
Lemma unwrap_wrap {P : Platform} (Hcorrect : RsaOaepCorrect P)
    (pub : rsa_public_key) (priv : rsa_private_key) (S : list byte) (w : World) :
  rsa_keypair pub priv -> rsa_max_payload pub = 190%nat -> length S = 32%nat ->
  exists wrapped w',
    encryptWithPublicKey S pub w = (Ok wrapped, w') /\
    decryptWithPrivateKey wrapped priv = Ok S.
Proof.
  intros Hpair Hmax HS. do 2 eexists.
  split; [apply encryptWithPublicKey_eq; lia|].
  rewrite decryptWithPrivateKey_encoded, Hcorrect;
    [reflexivity | assumption | now rewrite length_map, length_seq | lia].
Qed.

(** With any private key, [decryptWithPrivateKey] catches nothing: it
    raises the decryption error of the platform when the padding check
    fails and returns what the platform returns when it does not. *)
Lemma decryptWithPrivateKey_platform {P : Platform} (wrapped : jsstring)
    (priv : rsa_private_key) (encrypted : list byte) :
  charCodes <$> atob wrapped = Ok encrypted ->
  decryptWithPrivateKey wrapped priv
  = match rsa_oaep_decrypt priv encrypted with
    | Some data => Ok data
    | None => Err OperationError
    end.
Proof.
  intros H. unfold decryptWithPrivateKey. rewrite H. cbn.
  now destruct (rsa_oaep_decrypt priv encrypted).
Qed.

(** ** The local key vault *)

Lemma foldl_insert_union {A} (l : list (string * A)) (m : gmap string A) :
  foldl (fun m d => <[d.1 := d.2]> m) m l = list_to_map (reverse l) ∪ m.
Proof.
  revert m. induction l as [|[i x] l IH]; intros m; cbn [foldl].
  - rewrite reverse_nil, list_to_map_nil. now rewrite (left_id ∅ (∪)).
  - rewrite IH, reverse_cons, list_to_map_app. cbn.
    rewrite <- (assoc (∪)). f_equal.
    now rewrite insert_union_singleton_l, insert_empty.
Qed.



Lemma vault_keys_storeKey (chatId : string) (keyBytes : list byte) (w : World) :
  vault_keys (storeKey chatId keyBytes w).2 = <[chatId := keyBytes]> (vault_keys w).
Proof. unfold vault_keys. cbn. now rewrite fmap_insert. Qed.

Lemma importKeys_entries_spec (entries : list (string * jsstring)) (w : World) :
  (importKeys_entries entries w).1 = import_status entries /\
  vault_keys (importKeys_entries entries w).2
  = foldl (fun m d => <[d.1 := d.2]> m) (vault_keys w) (stored_entries entries).
Proof.
  revert w. induction entries as [|[chatId keyBase64] rest IH]; intros w.
  - split; reflexivity.
  - cbn [importKeys_entries stored_entries import_status].
    destruct (charCodes <$> atob keyBase64) as [keyBytes|e];
      run_M; [|split; reflexivity].
    unfold storeKey; cbn beta iota.
    destruct (IH (storeKey chatId keyBytes w).2) as [IH1 IH2].
    cbn [storeKey snd] in IH1, IH2. split; [exact IH1|].
    rewrite IH2. cbn [foldl fst snd]. f_equal.
    unfold vault_keys. cbn. now rewrite fmap_insert.
Qed.

Lemma importKeys_eq (keysObject : gmap string jsstring) :
  importKeys keysObject = importKeys_entries (map_to_list keysObject).
Proof.
  unfold importKeys. destruct (map_to_list keysObject); reflexivity.
Qed.










Example export_example :
  (exportAllKeys (storeKey "a__b"%string [Byte.x01; Byte.x02; Byte.x03] Toy.empty_world).2).1
  = Ok {[ "a__b"%string := lit "AQID" ]}.
Proof. vm_compute. reflexivity. Qed.

Example import_example :
  vault_keys (importKeys {[ "a__b"%string := lit "AQID" ]} Toy.empty_world).2
  = {[ "a__b"%string := [Byte.x01; Byte.x02; Byte.x03] ]}.
Proof. vm_compute. reflexivity. Qed.

(** ** Conversation keys *)

Section KeyManagerFacts.
Context {P : Platform}.

Lemma same_stores_refl (w : World) : same_stores w w.
Proof. repeat split. Qed.

Lemma same_stores_trans (w1 w2 w3 : World) :
  same_stores w1 w2 -> same_stores w2 w3 -> same_stores w1 w3.
Proof. unfold same_stores. intuition congruence. Qed.

Lemma same_stores_set_drawn (n : nat) (w : World) : same_stores w (set_drawn n w).
Proof. repeat split. Qed.

Lemma getUserPublicKey_world (email : string) (w : World) :
  (getUserPublicKey email w).2 = w.
Proof.
  unfold getUserPublicKey. run_M.
  now destruct (negb (truthy (users w !! toLowerCase email))).
Qed.

Lemma getMyPrivateKey_world (w : World) : (getMyPrivateKey w).2 = w.
Proof.
  unfold getMyPrivateKey. run_M. now destruct (negb (truthy (userPrivateKey w))).
Qed.

(** One round of the loop of [shareKeyWithParticipants]. *)
Lemma share_step (rawKey : list byte) (email : string)
    (keyPackages : gmap string jsstring) (w : World) :
  exists w',
    same_stores w w' /\
    ((exists pub seed,
         wrappable w rawKey email pub /\ length seed = oaep_seed_length /\
         try_catch
           (publicKey ← getUserPublicKey email;
            encryptedKey ← encryptWithPublicKey rawKey publicKey;
            mret (<[toLowerCase email := encryptedKey]> keyPackages))
           (fun _ => mret keyPackages) w
         = (Ok (<[toLowerCase email :=
                    Base64.encode (rsa_oaep_encrypt pub seed rawKey)]> keyPackages), w'))
     \/
     ((forall pub, ~ wrappable w rawKey email pub) /\
      try_catch
        (publicKey ← getUserPublicKey email;
         encryptedKey ← encryptWithPublicKey rawKey publicKey;
         mret (<[toLowerCase email := encryptedKey]> keyPackages))
        (fun _ => mret keyPackages) w
      = (Ok keyPackages, w'))).
Proof.
  pose proof (getUserPublicKey_world email w) as Hw.
  destruct (getUserPublicKey email w) as [[pub|e] w0] eqn:Hget; cbn in Hw; subst w0.
  - destruct (Nat.le_gt_cases (length rawKey) (rsa_max_payload pub)) as [Hlen|Hlen].
    + exists (set_drawn (drawn w + oaep_seed_length) w).
      split; [apply same_stores_set_drawn|]. left.
      exists pub, (map (entropy w) (seq (drawn w) oaep_seed_length)).
      split; [now split|]. split; [now rewrite length_map, length_seq|].
      run_M. rewrite Hget. now rewrite encryptWithPublicKey_eq by exact Hlen.
    + exists w. split; [apply same_stores_refl|]. right. split.
      * intros pub' [Hget' Hlen']. rewrite Hget in Hget'. injection Hget' as <-. lia.
      * run_M. rewrite Hget. now rewrite encryptWithPublicKey_too_long by exact Hlen.
  - exists w. split; [apply same_stores_refl|]. right. split.
    + intros pub' [Hget' _]. rewrite Hget in Hget'. discriminate.
    + run_M. now rewrite Hget.
Qed.


Lemma getUserPublicKey_users (email : string) (w w' : World) :
  users w' = users w ->
  (getUserPublicKey email w').1 = (getUserPublicKey email w).1.
Proof.
  intros Hu. unfold getUserPublicKey. run_M. rewrite Hu.
  now destruct (negb (truthy (users w !! toLowerCase email))).
Qed.

Lemma wrappable_users (w w' : World) rawKey email pub :
  users w' = users w -> wrappable w rawKey email pub -> wrappable w' rawKey email pub.
Proof.
  intros Hu [Hget Hlen]. split; [|exact Hlen].
  pose proof (getUserPublicKey_users email w w' Hu) as H1.
  pose proof (getUserPublicKey_world email w') as H2.
  destruct (getUserPublicKey email w') as [r w'']. cbn in *. subst w''.
  now rewrite H1, Hget.
Qed.

(** The packages that the loop of [shareKeyWithParticipants] adds. *)
Lemma share_loop_spec (rawKey : list byte) (emails : list string)
    (acc : gmap string jsstring) (w : World) :
  exists packages w',
    share_loop rawKey emails acc w = (Ok packages, w') /\
    same_stores w w' /\
    (forall i v, packages !! i = Some v ->
       acc !! i = Some v \/
       exists email pub seed,
         email ∈ emails /\ toLowerCase email = i /\ wrappable w rawKey email pub /\
         length seed = oaep_seed_length /\
         v = Base64.encode (rsa_oaep_encrypt pub seed rawKey)) /\
    (forall email pub, email ∈ emails -> wrappable w rawKey email pub ->
       is_Some (packages !! toLowerCase email)) /\
    (forall i, is_Some (acc !! i) -> is_Some (packages !! i)).
Proof.
  revert acc w. induction emails as [|email rest IH]; intros acc w.
  - exists acc, w. split; [reflexivity|]. split; [apply same_stores_refl|].
    split; [auto|]. split; [|auto]. intros email pub Hin. inversion Hin.
  - cbn [share_loop]. unfold mbind at 1, M_bind at 1.
    destruct (share_step rawKey email acc w) as (w1 & Hs1 & Hstep).
    assert (users w1 = users w) as Hu1 by apply Hs1.
    assert (users w = users w1) as Hu1' by now symmetry.
    destruct Hstep as [(pub & seed & Hwrap & Hseed & ->) | (Hno & ->)].
    + destruct (IH (<[toLowerCase email :=
                        Base64.encode (rsa_oaep_encrypt pub seed rawKey)]> acc) w1)
        as (pk & w' & Hrun & Hs & Hin & Hout & Hacc).
      exists pk, w'. split; [exact Hrun|]. split; [eapply same_stores_trans; eauto|].
      split; [|split].
      * intros i v Hv. destruct (Hin i v Hv) as [Hacc'|(e & pub' & seed' & He & Hi & Hw & Hl & ->)].
        -- destruct (decide (toLowerCase email = i)) as [<-|Hne].
           ++ rewrite lookup_insert_eq in Hacc'. injection Hacc' as <-.
              right. exists email, pub, seed. repeat split; auto; try apply Hwrap.
              apply list_elem_of_here.
           ++ rewrite lookup_insert_ne in Hacc' by exact Hne. now left.
        -- right. exists e, pub', seed'. repeat split; auto.
           ++ now apply list_elem_of_further.
           ++ apply (wrappable_users w1 w _ _ _ Hu1' Hw).
           ++ apply (wrappable_users w1 w _ _ _ Hu1' Hw).
      * intros e pub' He Hw. apply elem_of_cons in He as [->|He].
        -- apply Hacc. rewrite lookup_insert_eq. eauto.
        -- apply (Hout e pub' He). apply (wrappable_users w w1 _ _ _ Hu1 Hw).
      * intros i Hi. apply Hacc. destruct (decide (toLowerCase email = i)) as [<-|Hne].
        -- rewrite lookup_insert_eq. eauto.
        -- now rewrite lookup_insert_ne.
    + destruct (IH acc w1) as (pk & w' & Hrun & Hs & Hin & Hout & Hacc).
      exists pk, w'. split; [exact Hrun|]. split; [eapply same_stores_trans; eauto|].
      split; [|split].
      * intros i v Hv. destruct (Hin i v Hv) as [Hacc'|(e & pub' & seed' & He & Hi & Hw & Hl & ->)].
        -- now left.
        -- right. exists e, pub', seed'. repeat split; auto.
           ++ now apply list_elem_of_further.
           ++ apply (wrappable_users w1 w _ _ _ Hu1' Hw).
           ++ apply (wrappable_users w1 w _ _ _ Hu1' Hw).
      * intros e pub' He Hw. apply elem_of_cons in He as [->|He].
        -- exfalso. apply (Hno pub' Hw).
        -- apply (Hout e pub' He). apply (wrappable_users w w1 _ _ _ Hu1 Hw).
      * exact Hacc.
Qed.



Lemma next_key_length (w : World) : length (next_key w) = 32%nat.
Proof. unfold next_key. now rewrite length_map, length_seq. Qed.

Lemma importKey_next_key (w : World) : importKey (next_key w) = Ok {| raw := next_key w |}.
Proof. unfold importKey. now rewrite next_key_length. Qed.

Lemma updateDoc_chat_eq (chatId : string) (f : ChatDoc -> ChatDoc) (d : ChatDoc) (w : World) :
  chats w !! chatId = Some d ->
  updateDoc_chat chatId f w = (Ok tt, set_chats (insert chatId (f d)) w).
Proof. intros H. unfold updateDoc_chat. now rewrite H. Qed.

(** Priority 4 on a document that lists its participants. *)
Lemma generate_and_share_spec (chatId : string) (chatData : ChatDoc) (w : World)
    (emails : list string) :
  chats w !! chatId = Some chatData -> participants chatData = Some emails ->
  exists packages w',
    generate_and_share chatId chatData w = (Ok {| raw := next_key w |}, w') /\
    vault w' = <[chatId := {| key := next_key w; createdAt := clock w |}]> (vault w) /\
    chats w' = <[chatId := {| participants := Some emails;
                              keyPackages := Some packages;
                              e2eeEnabled := true;
                              e2eeVersion := Some 1;
                              encryptionKey := encryptionKey chatData;
                              lastKeyUpdate := Some (clock w) |}]> (chats w) /\
    users w' = users w /\
    (forall i v, packages !! i = Some v ->
       exists email pub seed,
         email ∈ emails /\ toLowerCase email = i /\ wrappable w (next_key w) email pub /\
         length seed = oaep_seed_length /\
         v = Base64.encode (rsa_oaep_encrypt pub seed (next_key w))) /\
    (forall email pub, email ∈ emails -> wrappable w (next_key w) email pub ->
       is_Some (packages !! toLowerCase email)).
Proof.
  intros Hdoc Hps. unfold generate_and_share, generateChatKey.
  unfold mbind at 1, M_bind at 1. cbn [getRandomValues]. fold (next_key w).
  unfold mbind at 1, M_bind at 1. cbn [storeKey].
  set (w1 := set_vault _ (set_drawn _ w)).
  unfold mbind at 1, M_bind at 1. unfold try_catch at 1.
  rewrite Hps. unfold shareKeyWithParticipants.
  unfold mbind at 1, M_bind at 1.
  destruct (share_loop_spec (next_key w) emails ∅ w1)
    as (packages & w2 & -> & Hs & Hin & Hout & _).
  destruct Hs as (Hc2 & Hu2 & Hv2 & Hp2 & He2 & Hk2).
  unfold mbind at 1, M_bind at 1, get_world.
  assert (chats w2 !! chatId = Some chatData) as Hdoc2 by (rewrite Hc2; exact Hdoc).
  rewrite (updateDoc_chat_eq _ _ _ _ Hdoc2).
  set (w3 := set_chats _ w2).
  unfold mbind at 1, M_bind at 1.
  assert (chats w3 !! chatId = Some
            {| participants := participants chatData; keyPackages := Some packages;
               e2eeEnabled := e2eeEnabled chatData; e2eeVersion := e2eeVersion chatData;
               encryptionKey := encryptionKey chatData;
               lastKeyUpdate := Some (clock w2) |}) as Hdoc3
    by (unfold w3; cbn; apply lookup_insert_eq).
  rewrite (updateDoc_chat_eq _ _ _ _ Hdoc3).
  unfold lift. rewrite importKey_next_key.
  do 2 eexists. split; [reflexivity|].
  assert (users w1 = users w) as Hu1 by reflexivity.
  assert (users w = users w1) as Hu1' by reflexivity.
  split; [|split; [|split; [|split]]].
  - cbn. rewrite Hv2. reflexivity.
  - cbn. rewrite insert_insert_eq, Hc2, Hk2, Hps. reflexivity.
  - cbn. rewrite Hu2. reflexivity.
  - intros i v Hv. destruct (Hin i v Hv) as [Hemp|(e & pub & seed & He & Hi & Hw & Hl & ->)].
    + rewrite lookup_empty in Hemp. discriminate.
    + exists e, pub, seed. repeat split; auto; apply (wrappable_users w1 w _ _ _ Hu1' Hw).
  - intros e pub He Hw. apply (Hout e pub He). apply (wrappable_users w w1 _ _ _ Hu1 Hw).
Qed.



(** Priority 4 returns the generated key whatever becomes of the sharing. *)
Lemma generate_and_share_ok (chatId : string) (chatData : ChatDoc) (w : World) :
  chats w !! chatId = Some chatData ->
  exists w', generate_and_share chatId chatData w = (Ok {| raw := next_key w |}, w').
Proof.
  intros Hdoc. destruct (participants chatData) as [emails|] eqn:Hps.
  - destruct (generate_and_share_spec chatId chatData w emails Hdoc Hps)
      as (pk & w' & H & _). eauto.
  - unfold generate_and_share, generateChatKey.
    unfold mbind at 1, M_bind at 1. cbn [getRandomValues]. fold (next_key w).
    unfold mbind at 1, M_bind at 1. cbn [storeKey].
    set (w1 := set_vault _ (set_drawn _ w)).
    unfold mbind at 1, M_bind at 1. unfold try_catch at 1.
    rewrite Hps. unfold shareKeyWithParticipants, throw, mret, M_ret.
    assert (chats w1 !! chatId = Some chatData) as Hdoc1 by exact Hdoc.
    unfold mbind at 1, M_bind at 1.
    rewrite (updateDoc_chat_eq _ _ _ _ Hdoc1).
    unfold lift. rewrite importKey_next_key. eauto.
Qed.

(** Priority 1 when it yields no key. *)
Lemma unwrap_my_package_none (chatId : string) (myEmail : option string)
    (chatData : ChatDoc) (w : World) :
  truthy_id myEmail = false \/
  truthy (my_package chatData myEmail) = false \/
  (exists pkg, my_package chatData myEmail = Some pkg /\ unwrap_fails w pkg) ->
  unwrap_my_package chatId myEmail chatData w = (Ok None, w).
Proof.
  intros H. unfold unwrap_my_package.
  destruct (truthy_id myEmail); [|reflexivity].
  destruct (bool_decide (is_Some (keyPackages chatData))); [|reflexivity].
  destruct (truthy (my_package chatData myEmail)) eqn:Ht; [|reflexivity].
  destruct H as [H|[H|(pkg & Hpkg & Hfail)]]; try discriminate.
  cbn [andb]. rewrite Hpkg. cbn [from_option]. unfold id. unfold unwrap_fails in Hfail.
  unfold try_catch. unfold mbind at 1, M_bind at 1.
  pose proof (getMyPrivateKey_world w) as Hw.
  destruct (getMyPrivateKey w) as [[priv|e] w0]; cbn in Hw; subst w0; [|reflexivity].
  destruct Hfail as [e He]. cbn beta iota.
  unfold mbind at 1, M_bind at 1, lift. now rewrite He.
Qed.

(** Priority 1 when the package unwraps. *)
Lemma unwrap_my_package_some (chatId email : string) (chatData : ChatDoc) (w : World)
    (pkg : jsstring) (priv : rsa_private_key) (rawKey : list byte) :
  truthy_id (Some email) = true ->
  my_package chatData (Some email) = Some pkg -> truthy (Some pkg) = true ->
  getMyPrivateKey w = (Ok priv, w) -> decryptWithPrivateKey pkg priv = Ok rawKey ->
  unwrap_my_package chatId (Some email) chatData w
  = (Ok (Some rawKey), (storeKey chatId rawKey w).2).
Proof.
  intros He Hpkg Ht Hpriv Hdec. unfold unwrap_my_package. rewrite He, Hpkg, Ht.
  assert (bool_decide (is_Some (keyPackages chatData)) = true) as ->.
  { apply bool_decide_eq_true. unfold my_package in Hpkg.
    destruct (keyPackages chatData); [eauto|discriminate]. }
  cbn [andb from_option]. unfold id. unfold try_catch. unfold mbind at 1, M_bind at 1.
  rewrite Hpriv. unfold mbind at 1, M_bind at 1, lift. rewrite Hdec.
  reflexivity.
Qed.

Lemma keyPromise_eq (chatId : string) (myEmail : option string) (chatData : ChatDoc)
    (w : World) :
  chats w !! chatId = Some chatData ->
  keyPromise chatId myEmail w =
  match unwrap_my_package chatId myEmail chatData w with
  | (Ok (Some rawKey), w') => (importKey rawKey, w')
  | (Ok None, w') => from_local_storage chatId myEmail chatData w'
  | (Err e, w') => (Err e, w')
  end.
Proof.
  intros Hdoc. unfold keyPromise. unfold mbind at 1, M_bind at 1, getDoc_chat.
  rewrite Hdoc. unfold mbind at 1, M_bind at 1.
  destruct (unwrap_my_package chatId myEmail chatData w) as [[[rawKey|]|e] w']; reflexivity.
Qed.

Lemma keyPromise_no_chat (chatId : string) (myEmail : option string) (w : World) :
  chats w !! chatId = None ->
  keyPromise chatId myEmail w = (Err ChatNotFound, w).
Proof.
  intros Hdoc. unfold keyPromise. unfold mbind at 1, M_bind at 1, getDoc_chat.
  now rewrite Hdoc.
Qed.

(** Priority 2 when the vault holds no key. *)
Lemma from_local_storage_empty (chatId : string) (myEmail : option string)
    (chatData : ChatDoc) (w : World) :
  vault w !! chatId = None ->
  from_local_storage chatId myEmail chatData w = from_legacy_key chatId chatData w.
Proof.
  intros Hv. unfold from_local_storage. unfold mbind at 1, M_bind at 1, getKey.
  rewrite Hv. reflexivity.
Qed.

(** Priority 2 when the vault holds a key. *)
Lemma from_local_storage_held (chatId : string) (myEmail : option string)
    (chatData : ChatDoc) (w : World) (r : VaultRecord) :
  vault w !! chatId = Some r ->
  from_local_storage chatId myEmail chatData w =
  if orphaned myEmail chatData
  then from_legacy_key chatId chatData (set_vault (delete chatId) w)
  else (importKey (key r), w).
Proof.
  intros Hv. unfold from_local_storage, orphaned.
  unfold mbind at 1, M_bind at 1, getKey. rewrite Hv. cbn [fmap option_fmap option_map].
  destruct (bool_decide (is_Some (keyPackages chatData))); [|reflexivity].
  destruct (truthy_id myEmail); [|reflexivity].
  destruct (truthy (my_package chatData myEmail)); [reflexivity|].
  destruct (e2eeEnabled chatData); reflexivity.
Qed.



(** C3, as amended: when the document of a conversation lists its
    participants and has no key packages and no legacy key, and the vault
    holds no key for it, [getChatKey] generates a fresh 256-bit key, stores
    it in the vault, sets [e2eeEnabled] on the document and publishes a map
    of key packages that has one package, under the lowercased e-mail, for
    each participant whose public key is published, imports and takes the
    key, and no other; each package is the key encrypted under such a
    participant's public key; the new key is returned. *)
Theorem first_call_generates_key (chatId : string) (myEmail : option string)
    (chatData : ChatDoc) (w : World) (emails : list string) :
  chats w !! chatId = Some chatData ->
  participants chatData = Some emails ->
  keyPackages chatData = None ->
  truthy (encryptionKey chatData) = false ->
  vault w !! chatId = None ->
  exists packages w' d',
    keyPromise chatId myEmail w = (Ok {| raw := next_key w |}, w') /\
    length (next_key w) = 32%nat /\
    vault_keys w' !! chatId = Some (next_key w) /\
    chats w' !! chatId = Some d' /\
    e2eeEnabled d' = true /\
    keyPackages d' = Some packages /\
    (forall i, is_Some (packages !! i) <->
       exists email pub,
         email ∈ emails /\ toLowerCase email = i /\
         wrappable w (next_key w) email pub) /\
    (forall i v, packages !! i = Some v ->
       exists email pub seed,
         email ∈ emails /\ toLowerCase email = i /\
         wrappable w (next_key w) email pub /\
         length seed = oaep_seed_length /\
         v = Base64.encode (rsa_oaep_encrypt pub seed (next_key w))).
Proof.
  intros Hdoc Hps Hpk Hleg Hvault.
  rewrite (keyPromise_eq _ _ _ _ Hdoc).
  rewrite unwrap_my_package_none.
  2: { right. left. unfold my_package. now rewrite Hpk. }
  rewrite (from_local_storage_empty _ _ _ _ Hvault).
  unfold from_legacy_key. rewrite Hleg.
  destruct (generate_and_share_spec chatId chatData w emails Hdoc Hps)
    as (packages & w' & Hrun & Hv & Hc & Hu & Hin & Hout).
  exists packages, w'. eexists. split; [exact Hrun|].
  split; [apply next_key_length|].
  split; [unfold vault_keys; rewrite Hv, lookup_fmap, lookup_insert_eq; reflexivity|].
  split; [rewrite Hc; apply lookup_insert_eq|].
  split; [reflexivity|]. split; [reflexivity|]. split; [|exact Hin].
  intros i. split.
  - intros [v Hv']. destruct (Hin i v Hv') as (e & pub & seed & He & Hi & Hw & _).
    eauto.
  - intros (e & pub & He & <- & Hw). eauto.
Qed.


(** C5: when the document holds a package under the caller's lowercased
    e-mail and unwrapping it fails, [getChatKey] does not fail for that: it
    goes on with the local vault, the legacy key and the generation of a key,
    and returns a key in each of the three cases: the key of the vault when
    there is one, else the legacy key when the document has one, else a
    fresh one. *)
Theorem unwrap_failure_falls_through (chatId email : string) (chatData : ChatDoc)
    (w : World) (pkg : jsstring) :
  chats w !! chatId = Some chatData ->
  truthy_id (Some email) = true ->
  my_package chatData (Some email) = Some pkg -> truthy (Some pkg) = true ->
  unwrap_fails w pkg ->
  keyPromise chatId (Some email) w = from_local_storage chatId (Some email) chatData w /\
  (forall r k,
      vault w !! chatId = Some r -> importKey (key r) = Ok k ->
      keyPromise chatId (Some email) w = (Ok k, w)) /\
  (forall rawKey k,
      vault w !! chatId = None -> truthy (encryptionKey chatData) = true ->
      charCodes <$> atob (default [] (encryptionKey chatData)) = Ok rawKey ->
      importKey rawKey = Ok k ->
      keyPromise chatId (Some email) w = (Ok k, (storeKey chatId rawKey w).2)) /\
  (vault w !! chatId = None -> truthy (encryptionKey chatData) = false ->
   exists w', keyPromise chatId (Some email) w = (Ok {| raw := next_key w |}, w')).
Proof.
  intros Hdoc He Hpkg Ht Hfail.
  assert (keyPromise chatId (Some email) w
          = from_local_storage chatId (Some email) chatData w) as Hfall.
  { rewrite (keyPromise_eq _ _ _ _ Hdoc). rewrite unwrap_my_package_none; [reflexivity|].
    right. right. eauto. }
  split; [exact Hfall|]. rewrite Hfall. split; [|split].
  - intros r k Hv Hk. rewrite (from_local_storage_held _ _ _ _ _ Hv).
    unfold orphaned. rewrite Hpkg, Ht. cbn [negb andb].
    rewrite andb_false_r. cbn [andb]. now rewrite Hk.
  - intros rawKey k Hv Hleg Hraw Hk. rewrite (from_local_storage_empty _ _ _ _ Hv).
    unfold from_legacy_key. rewrite Hleg.
    unfold mbind at 1, M_bind at 1, lift. rewrite Hraw.
    unfold mbind at 1, M_bind at 1. cbn [storeKey]. now rewrite Hk.
  - intros Hv Hleg. rewrite (from_local_storage_empty _ _ _ _ Hv).
    unfold from_legacy_key. rewrite Hleg. now apply generate_and_share_ok.
Qed.


End KeyManagerFacts.

Lemma first_call_generates_key_witness :
  exists packages w' d',
    keyPromise (P := Toy.platform) Toy.conversation (Some Toy.alice)
      (Toy.world_of Toy.plain_doc None)
    = (Ok {| raw := next_key (Toy.world_of Toy.plain_doc None) |}, w') /\
    chats w' !! Toy.conversation = Some d' /\
    e2eeEnabled d' = true /\
    keyPackages d' = Some packages /\
    is_Some (packages !! Toy.alice).
Proof.
  destruct (first_call_generates_key (P := Toy.platform) Toy.conversation
              (Some Toy.alice) Toy.plain_doc (Toy.world_of Toy.plain_doc None)
              [Toy.alice; Toy.bob] eq_refl eq_refl eq_refl eq_refl eq_refl)
    as (packages & w' & d' & Hrun & _ & _ & Hd & He & Hp & Hdom & _).
  exists packages, w', d'. repeat split; try assumption.
  apply Hdom. exists Toy.alice, Byte.x01. split; [apply list_elem_of_here|].
  split; [reflexivity|]. split; [reflexivity|]. cbn. vm_compute. lia.
Defined.

(** C3 as stated fails when a participant has published no public key: of
    the two participants of this conversation only the first gets a
    package. *)
Lemma participant_without_package :
  let w' := (keyPromise (P := Toy.platform) Toy.conversation (Some Toy.alice)
               (Toy.world_of Toy.plain_doc None)).2 in
  participants Toy.plain_doc = Some [Toy.alice; Toy.bob] /\
  (d ← chats w' !! Toy.conversation; dom <$> keyPackages d) = Some {[ Toy.alice ]} /\
  (d ← chats w' !! Toy.conversation; Some (e2eeEnabled d)) = Some true.
Proof. vm_compute. repeat split. Qed.

Lemma unwrap_failure_falls_through_witness :
  let doc := Toy.packaged_doc Byte.x02 (replicate 32 Byte.x0b) in
  let w := Toy.world_of doc (Some (replicate 32 Byte.x0a)) in
  unwrap_fails (P := Toy.platform) w (Toy.package Byte.x02 (replicate 32 Byte.x0b)) /\
  keyPromise (P := Toy.platform) Toy.conversation (Some Toy.alice) w
  = (Ok (Toy.key_of Byte.x0a), w).
Proof.
  cbv zeta.
  assert (unwrap_fails (P := Toy.platform)
            (Toy.world_of (Toy.packaged_doc Byte.x02 (replicate 32 Byte.x0b))
               (Some (replicate 32 Byte.x0a)))
            (Toy.package Byte.x02 (replicate 32 Byte.x0b))) as Hfail.
  { vm_compute. eexists. reflexivity. }
  split; [exact Hfail|].
  exact (proj1 (proj2 (unwrap_failure_falls_through (P := Toy.platform)
           Toy.conversation Toy.alice
           (Toy.packaged_doc Byte.x02 (replicate 32 Byte.x0b))
           (Toy.world_of (Toy.packaged_doc Byte.x02 (replicate 32 Byte.x0b))
              (Some (replicate 32 Byte.x0a)))
           (Toy.package Byte.x02 (replicate 32 Byte.x0b))
           eq_refl eq_refl eq_refl eq_refl Hfail))
         {| key := replicate 32 Byte.x0a; createdAt := 0 |} (Toy.key_of Byte.x0a)
         eq_refl eq_refl).
Defined.



(** ** Awaiting the key of a conversation *)

Section AwaitFacts.
Context {P : Platform}.

(** The state in which a resolution leaves the page: the promise is
    settled and the timer of the [finally] block is set. *)
Lemma await_getChatKey_fresh (chatId : string) (myEmail : option string) (rt : Runtime) :
  keyCachePromises rt !! chatId = None ->
  await_getChatKey chatId myEmail rt
  = Some ((keyPromise chatId myEmail (world rt)).1,
          {| world := (keyPromise chatId myEmail (world rt)).2;
             keyCachePromises := <[chatId := length (promises rt)]> (keyCachePromises rt);
             promises :=
               promises rt ++ [Settled chatId (keyPromise chatId myEmail (world rt)).1];
             timers :=
               timers rt ++
               [{| due := clock (keyPromise chatId myEmail (world rt)).2 + cleanup_delay;
                   timer_chat := chatId |}] |}).
Proof.
  intros Hnone. unfold await_getChatKey, getChatKey. rewrite Hnone.
  unfold settle, awaited. cbn [promises world keyCachePromises timers].
  rewrite list_lookup_middle by reflexivity.
  destruct (keyPromise chatId myEmail (world rt)) as [r w]. cbn [promises fst snd].
  rewrite insert_app_r_alt by reflexivity. rewrite Nat.sub_diag. cbn [insert list_insert].
  rewrite list_lookup_middle by reflexivity. reflexivity.
Qed.

Lemma await_getChatKey_settled (chatId : string) (myEmail : option string) (rt : Runtime)
    (p : nat) (c : string) (r : result CryptoKey) :
  keyCachePromises rt !! chatId = Some p ->
  promises rt !! p = Some (Settled c r) ->
  await_getChatKey chatId myEmail rt = Some (r, rt).
Proof.
  intros Hp Hs. unfold await_getChatKey, getChatKey. rewrite Hp.
  unfold settle, awaited. now rewrite Hs, Hs.
Qed.

Lemma await_getChatKey_pending (chatId : string) (myEmail : option string) (rt : Runtime)
    (p : nat) (c : string) (first : option string) :
  keyCachePromises rt !! chatId = Some p ->
  promises rt !! p = Some (Pending c first) ->
  await_getChatKey chatId myEmail rt
  = Some ((keyPromise c first (world rt)).1,
          {| world := (keyPromise c first (world rt)).2;
             keyCachePromises := keyCachePromises rt;
             promises := <[p := Settled c (keyPromise c first (world rt)).1]> (promises rt);
             timers :=
               timers rt ++
               [{| due := clock (keyPromise c first (world rt)).2 + cleanup_delay;
                   timer_chat := c |}] |}).
Proof.
  intros Hp Hs. unfold await_getChatKey, getChatKey. rewrite Hp.
  unfold settle, awaited. rewrite Hs.
  destruct (keyPromise c first (world rt)) as [r w]. cbn [promises fst snd].
  rewrite list_lookup_insert_eq by (now apply lookup_lt_Some in Hs). reflexivity.
Qed.

(** What an [await] that came back has done: nothing, or a resolution. *)
Lemma await_getChatKey_inv (chatId : string) (myEmail : option string) (rt rt' : Runtime)
    (r : result CryptoKey) :
  await_getChatKey chatId myEmail rt = Some (r, rt') ->
  rt' = rt \/
  exists c first, keyPromise c first (world rt) = (r, world rt') /\
                  (keyCachePromises rt !! chatId = None -> c = chatId /\ first = myEmail).
Proof.
  intros Hrun. destruct (keyCachePromises rt !! chatId) as [p|] eqn:Hp.
  - destruct (promises rt !! p) as [[c first|c r0]|] eqn:Hs.
    + rewrite (await_getChatKey_pending _ _ _ _ _ _ Hp Hs) in Hrun.
      injection Hrun as <- <-. right. exists c, first. cbn [world].
      split; [now destruct (keyPromise c first (world rt))|discriminate].
    + rewrite (await_getChatKey_settled _ _ _ _ _ _ Hp Hs) in Hrun.
      injection Hrun as <- <-. now left.
    + unfold await_getChatKey, getChatKey in Hrun. rewrite Hp in Hrun.
      unfold settle, awaited in Hrun. now rewrite Hs, Hs in Hrun.
  - rewrite (await_getChatKey_fresh _ _ _ Hp) in Hrun.
    injection Hrun as <- <-. right. exists chatId, myEmail. cbn [world].
    split; [now destruct (keyPromise chatId myEmail (world rt))|auto].
Qed.

End AwaitFacts.

(** ** Message subscription *)

Section MessageFacts.
Context {P : Platform}.

Lemma deliver_lookup (k : CryptoKey) (docs : list DocSnap) (i : nat) (d : DocSnap) :
  docs !! i = Some d ->
  exists ms, deliver (Ok k) docs = onMessages ms /\
             length ms = length docs /\
             ms !! i = Some (decrypt_doc k d).
Proof.
  intros Hd. eexists. split; [reflexivity|]. split; [apply length_map|].
  change (map (decrypt_doc k) docs) with (decrypt_doc k <$> docs).
  now rewrite list_lookup_fmap, Hd.
Qed.

(** C8, as amended: when [getChatKey] has resolved to a key and the
    decryption of the text of a message raises an error, the message is
    delivered as a placeholder, with the text '[Decryption failed]' and the
    flag [decryptionError], among the other messages of the snapshot, each
    delivered as it would be alone; when [getChatKey] rejects, no message is
    delivered and the error is passed to [onError], be the rejected
    promise the one of the map or that of a resolution begun by the
    call. *)
Theorem decryption_failure_placeholder :
  (forall (k : CryptoKey) (docs : list DocSnap) (i : nat) (d : DocSnap) (e : error),
      docs !! i = Some d ->
      truthy_val (data d !! "encryptedText"%string) = true ->
      truthy_val (data d !! "textIv"%string) = true ->
      decryptText (to_string (data d !! "encryptedText"%string))
                  (to_string (data d !! "textIv"%string)) k = Err e ->
      exists ms,
        deliver (Ok k) docs = onMessages ms /\
        length ms = length docs /\
        ms !! i = Some (placeholder d) /\
        placeholder d !! "text"%string = Some (VStr (lit "[Decryption failed]")) /\
        placeholder d !! "decryptionError"%string = Some (VBool true) /\
        forall j d', docs !! j = Some d' -> ms !! j = Some (decrypt_doc k d')) /\
  (forall (e : error) (docs : list DocSnap), deliver (Err e) docs = onError e) /\
  (forall (chatId : string) (userEmail : option string) (docs : list DocSnap)
          (rt rt' : Runtime) (e : error),
      await_getChatKey chatId userEmail rt = Some (Err e, rt') ->
      on_snapshot chatId userEmail docs rt = Some (onError e, rt')) /\
  (forall (chatId : string) (userEmail : option string) (docs : list DocSnap)
          (rt : Runtime) (w' : World) (e : error),
      keyCachePromises rt !! chatId = None ->
      keyPromise chatId userEmail (world rt) = (Err e, w') ->
      exists rt',
        on_snapshot chatId userEmail docs rt = Some (onError e, rt') /\ world rt' = w').
Proof.
  split; [|split; [reflexivity|split]].
  2: { intros chatId userEmail docs rt rt' e Hkey. unfold on_snapshot. now rewrite Hkey. }
  2: { intros chatId userEmail docs rt w' e Hnone Hkey. unfold on_snapshot.
       rewrite (await_getChatKey_fresh _ _ _ Hnone), Hkey. eexists. split; reflexivity. }
  intros k docs i d e Hd Hct Hiv Hdec.
  exists (decrypt_doc k <$> docs). split; [reflexivity|].
  split; [apply length_fmap|]. split; [|split; [|split]].
  - rewrite list_lookup_fmap, Hd. cbn. unfold decrypt_doc.
    now rewrite Hct, Hiv, Hdec.
  - unfold placeholder. now rewrite lookup_insert_ne, lookup_insert_eq.
  - unfold placeholder. now rewrite lookup_insert_eq.
  - intros j d' Hj. now rewrite list_lookup_fmap, Hj.
Qed.

(** C10, as amended: whenever [getChatKey] has resolved to a key, a
    message document without the field [encryptedText] or without the field
    [textIv] is delivered with every stored field as it is (the field
    [encrypted] apart) and with [encrypted] set to false, whatever the key
    and whatever the other messages of the snapshot; its text is not
    decrypted and its delivery raises no error. *)
Theorem legacy_message_delivered (k : CryptoKey) (docs : list DocSnap) (i : nat)
    (d : DocSnap) :
  docs !! i = Some d ->
  data d !! "encryptedText"%string = None \/ data d !! "textIv"%string = None ->
  decrypt_doc k d = legacy d /\
  legacy d !! "encrypted"%string = Some (VBool false) /\
  (forall f v, f <> "encrypted"%string -> data d !! f = Some v -> legacy d !! f = Some v) /\
  (exists ms, deliver (Ok k) docs = onMessages ms /\
              length ms = length docs /\
              ms !! i = Some (legacy d)) /\
  (forall (chatId : string) (userEmail : option string) (rt rt' : Runtime),
      await_getChatKey chatId userEmail rt = Some (Ok k, rt') ->
      exists ms, on_snapshot chatId userEmail docs rt = Some (onMessages ms, rt') /\
                 ms !! i = Some (legacy d)) /\
  (forall (chatId : string) (userEmail : option string) (rt : Runtime) (w' : World),
      keyCachePromises rt !! chatId = None ->
      keyPromise chatId userEmail (world rt) = (Ok k, w') ->
      exists ms rt', on_snapshot chatId userEmail docs rt = Some (onMessages ms, rt') /\
                     world rt' = w' /\
                     ms !! i = Some (legacy d)).
Proof.
  intros Hd Hlacks.
  assert (decrypt_doc k d = legacy d) as Hleg.
  { unfold decrypt_doc, legacy. destruct Hlacks as [-> | ->]; cbn [truthy_val];
      [reflexivity | now rewrite andb_false_r]. }
  split; [exact Hleg|]. split; [apply lookup_insert_eq|]. split.
  - intros f v Hf Hv. unfold legacy, with_id.
    rewrite lookup_insert_ne by congruence.
    now apply lookup_union_Some_l.
  - destruct (deliver_lookup k docs i d Hd) as (ms & H1 & H2 & H3).
    rewrite Hleg in H3. split; [eauto|]. split.
    + intros chatId userEmail rt rt' Hkey. exists ms.
      unfold on_snapshot. rewrite Hkey. cbn [mbind option_bind]. now rewrite H1.
    + intros chatId userEmail rt w' Hnone Hkey. exists ms. unfold on_snapshot.
      rewrite (await_getChatKey_fresh _ _ _ Hnone), Hkey. cbn [mbind option_bind fst snd].
      rewrite H1. eexists. split; [reflexivity|]. split; [reflexivity|exact H3].
Qed.

End MessageFacts.

Lemma legacy_message_delivered_witness :
  decrypt_doc (P := Toy.platform) (Toy.key_of Byte.x01) Toy.clear_message
  = legacy Toy.clear_message /\
  legacy Toy.clear_message !! "text"%string = Some (VStr (lit "hello")) /\
  exists ms,
    deliver (P := Toy.platform) (Ok (Toy.key_of Byte.x01))
      [Toy.sealed_message; Toy.clear_message] = onMessages ms /\
    ms !! 1%nat = Some (legacy Toy.clear_message).
Proof.
  destruct (legacy_message_delivered (P := Toy.platform) (Toy.key_of Byte.x01)
              [Toy.sealed_message; Toy.clear_message] 1 Toy.clear_message
              eq_refl (or_introl eq_refl))
    as (H1 & _ & H3 & (ms & H4 & _ & H5) & _).
  split; [exact H1|]. split; [apply H3; [discriminate|reflexivity]|].
  exists ms. split; assumption.
Defined.

(** C8 as stated fails when no usable key is available: on a page just
    loaded, the vault holds a key of three bytes, which [importKey]
    rejects; the snapshot callback calls [onError] and delivers no
    message, not even as a placeholder. *)
Lemma no_key_no_placeholder :
  let w := Toy.world_of Toy.plain_doc (Some [Byte.x01; Byte.x02; Byte.x03]) in
  exists rt',
    on_snapshot (P := Toy.platform) Toy.conversation (Some Toy.alice)
      [Toy.sealed_message; Toy.clear_message] (start w)
    = Some (onError DataError, rt') /\
    world rt' = w.
Proof. eexists. split; vm_compute; reflexivity. Qed.

(** C10 as stated fails when [getChatKey] rejects: a snapshot that holds
    only a message stored in the clear is not delivered; [onError] is
    called. *)
Lemma legacy_message_not_delivered :
  let w := Toy.world_of Toy.plain_doc (Some [Byte.x01; Byte.x02; Byte.x03]) in
  data Toy.clear_message !! "encryptedText"%string = None /\
  exists rt',
    on_snapshot (P := Toy.platform) Toy.conversation (Some Toy.alice)
      [Toy.clear_message] (start w)
    = Some (onError DataError, rt') /\
    world rt' = w.
Proof. split; [reflexivity|]. eexists. split; vm_compute; reflexivity. Qed.

Example sealed_message_placeholder :
  deliver (P := Toy.platform) (Ok (Toy.key_of Byte.x01))
    [Toy.sealed_message; Toy.clear_message]
  = onMessages [placeholder Toy.sealed_message; legacy Toy.clear_message].
Proof. vm_compute. reflexivity. Qed.

(** ** The map of pending resolutions *)

Section RuntimeFacts.
Context {P : Platform}.

Lemma coalescing_start (w : World) : coalescing (start w).
Proof.
  repeat split; cbn.
  - intros p c e H. now rewrite lookup_nil in H.
  - intros t H. now apply elem_of_nil in H.
  - intros c p H. now rewrite lookup_empty in H.
  - constructor.
Qed.

Lemma getChatKey_cached (chatId : string) (myEmail : option string) (rt : Runtime) (p : nat) :
  keyCachePromises rt !! chatId = Some p -> getChatKey chatId myEmail rt = (p, rt).
Proof. intros H. unfold getChatKey. now rewrite H. Qed.

Lemma getChatKey_fresh (chatId : string) (myEmail : option string) (rt : Runtime) :
  keyCachePromises rt !! chatId = None ->
  getChatKey chatId myEmail rt =
  (length (promises rt),
   {| world := world rt;
      keyCachePromises := <[chatId := length (promises rt)]> (keyCachePromises rt);
      promises := promises rt ++ [Pending chatId myEmail];
      timers := timers rt |}).
Proof. intros H. unfold getChatKey. now rewrite H. Qed.

Lemma coalescing_call (chatId : string) (myEmail : option string) (rt : Runtime) :
  coalescing rt -> coalescing (getChatKey chatId myEmail rt).2.
Proof.
  intros (Ha & Hb & Hc & Hd).
  destruct (keyCachePromises rt !! chatId) as [p0|] eqn:Hm.
  { rewrite (getChatKey_cached _ _ _ _ Hm). now repeat split. }
  rewrite (getChatKey_fresh _ _ _ Hm). cbn [snd].
  split; [|split; [|split]]; cbn.
  - intros p c e Hp. apply lookup_app_Some in Hp as [Hp|[Hlen Hp]].
    + pose proof (Ha p c e Hp) as Hmc.
      rewrite lookup_insert_ne; [exact Hmc|]. intros <-. congruence.
    + destruct (p - length (promises rt))%nat as [|n] eqn:En; [|now destruct n].
      cbn in Hp. injection Hp as <- <-.
      replace p with (length (promises rt)) by lia. apply lookup_insert_eq.
  - intros t Ht. destruct (Hb t Ht) as (p & r & Hmt & Hp).
    exists p, r. split.
    + rewrite lookup_insert_ne; [exact Hmt|]. intros E. rewrite <- E in Hmt. congruence.
    + now apply lookup_app_l_Some.
  - intros c p Hcp. destruct (decide (chatId = c)) as [<-|Hne].
    + rewrite lookup_insert_eq in Hcp. injection Hcp as <-.
      exists (Pending chatId myEmail). split; [|reflexivity].
      rewrite lookup_app_r by lia. now rewrite Nat.sub_diag.
    + rewrite lookup_insert_ne in Hcp by exact Hne.
      destruct (Hc c p Hcp) as (q & Hq & Hchat). exists q. split; [|exact Hchat].
      now apply lookup_app_l_Some.
  - exact Hd.
Qed.

Lemma settle_pending (p : nat) (rt : Runtime) (chatId : string) (myEmail : option string) :
  promises rt !! p = Some (Pending chatId myEmail) ->
  settle p rt =
  {| world := (keyPromise chatId myEmail (world rt)).2;
     keyCachePromises := keyCachePromises rt;
     promises := <[p := Settled chatId (keyPromise chatId myEmail (world rt)).1]> (promises rt);
     timers := timers rt ++
       [{| due := clock (keyPromise chatId myEmail (world rt)).2 + cleanup_delay;
           timer_chat := chatId |}] |}.
Proof.
  intros H. unfold settle. rewrite H.
  now destruct (keyPromise chatId myEmail (world rt)).
Qed.

Lemma settle_other (p : nat) (rt : Runtime) :
  (forall c e, promises rt !! p <> Some (Pending c e)) -> settle p rt = rt.
Proof.
  intros H. unfold settle. destruct (promises rt !! p) as [[c e|c r]|] eqn:E; auto.
  now destruct (H c e).
Qed.

Lemma coalescing_settle (p : nat) (rt : Runtime) :
  coalescing rt -> coalescing (settle p rt).
Proof.
  intros (Ha & Hb & Hc & Hd).
  destruct (promises rt !! p) as [[c e|c r]|] eqn:Hp.
  2,3: rewrite settle_other by congruence; now repeat split.
  rewrite (settle_pending _ _ _ _ Hp).
  assert (p < length (promises rt))%nat as Hlt by (eapply lookup_lt_Some; eauto).
  split; [|split; [|split]]; cbn.
  - intros p' c' e' Hp'. destruct (decide (p = p')) as [<-|Hne].
    + rewrite list_lookup_insert_eq in Hp' by exact Hlt. discriminate.
    + rewrite list_lookup_insert_ne in Hp' by exact Hne. eauto.
  - intros t Ht. apply elem_of_app in Ht as [Ht|Ht].
    + destruct (Hb t Ht) as (p0 & r & Hm & Hp0). exists p0, r. split; [exact Hm|].
      rewrite list_lookup_insert_ne; [exact Hp0|]. intros <-. congruence.
    + apply list_elem_of_singleton in Ht as ->. cbn.
      exists p. eexists. split; [eauto|]. now apply list_lookup_insert_eq.
  - intros c' p' Hm. destruct (Hc c' p' Hm) as (q & Hq & Hchat).
    destruct (decide (p = p')) as [<-|Hne].
    + eexists. split; [now apply list_lookup_insert_eq|].
      rewrite Hp in Hq. injection Hq as <-. exact Hchat.
    + exists q. split; [|exact Hchat]. now rewrite list_lookup_insert_ne.
  - rewrite fmap_app. cbn. apply NoDup_app. split; [exact Hd|]. split.
    + intros c' Hin Hin'. apply list_elem_of_singleton in Hin' as ->.
      apply list_elem_of_fmap in Hin as (t & Hc' & Ht).
      destruct (Hb t Ht) as (p0 & r & Hm & Hp0). rewrite <- Hc' in Hm.
      rewrite (Ha p c e Hp) in Hm. injection Hm as <-. congruence.
    + apply NoDup_singleton.
Qed.

Lemma without_nth {A B} (f : A -> B) (l : list A) (i : nat) (t t' : A) :
  NoDup (f <$> l) -> l !! i = Some t ->
  t' ∈ take i l ++ drop (S i) l ->
  t' ∈ l /\ f t' <> f t /\ NoDup (f <$> (take i l ++ drop (S i) l)).
Proof.
  intros Hnd Hi Hin. pose proof (take_drop_middle l i t Hi) as El.
  set (a := take i l) in *. set (b := drop (S i) l) in *.
  rewrite <- El in Hnd. rewrite fmap_app, fmap_cons in Hnd.
  apply NoDup_app in Hnd as (Hnd1 & Hdisj & Hnd2).
  apply NoDup_cons in Hnd2 as (Hnot & Hnd2).
  split; [|split].
  - rewrite <- El.
    apply elem_of_app in Hin as [Hin|Hin]; apply elem_of_app; [now left|right].
    now apply list_elem_of_further.
  - intros E. apply elem_of_app in Hin as [Hin|Hin].
    + apply (Hdisj (f t')); [now apply list_elem_of_fmap_2|]. rewrite E. apply list_elem_of_here.
    + apply Hnot. rewrite <- E. now apply list_elem_of_fmap_2.
  - rewrite fmap_app. apply NoDup_app. split; [exact Hnd1|]. split; [|exact Hnd2].
    intros y Hy Hy'. apply (Hdisj y Hy). now apply list_elem_of_further.
Qed.

Lemma fire_due (i : nat) (rt : Runtime) (t : Timer) :
  timers rt !! i = Some t -> due t <= clock (world rt) ->
  fire i rt =
  {| world := world rt;
     keyCachePromises := delete (timer_chat t) (keyCachePromises rt);
     promises := promises rt;
     timers := take i (timers rt) ++ drop (S i) (timers rt) |}.
Proof.
  intros Ht Hdue. unfold fire. rewrite Ht.
  apply N.leb_le in Hdue. now rewrite Hdue.
Qed.

Lemma fire_not_due (i : nat) (rt : Runtime) (t : Timer) :
  timers rt !! i = Some t -> clock (world rt) < due t -> fire i rt = rt.
Proof.
  intros Ht Hdue. unfold fire. rewrite Ht.
  apply N.leb_gt in Hdue. now rewrite Hdue.
Qed.

Lemma coalescing_fire (i : nat) (rt : Runtime) :
  coalescing rt -> coalescing (fire i rt).
Proof.
  intros (Ha & Hb & Hc & Hd).
  destruct (timers rt !! i) as [t|] eqn:Ht; [|unfold fire; rewrite Ht; now repeat split].
  destruct (N.le_gt_cases (due t) (clock (world rt))) as [Hdue|Hdue].
  2: { rewrite (fire_not_due _ _ _ Ht Hdue). now repeat split. }
  rewrite (fire_due _ _ _ Ht Hdue).
  assert (t ∈ timers rt) as Hin by (eapply list_elem_of_lookup_2; eauto).
  destruct (Hb t Hin) as (p0 & r0 & Hm0 & Hp0).
  split; [|split; [|split]]; cbn.
  - intros p c e Hp. pose proof (Ha p c e Hp) as Hm.
    rewrite lookup_delete_ne; [exact Hm|]. intros E. rewrite E in Hm0.
    rewrite Hm in Hm0. injection Hm0 as <-. congruence.
  - intros t' Ht'.
    destruct (without_nth timer_chat _ _ _ _ Hd Ht Ht') as (Hin' & Hne & _).
    destruct (Hb t' Hin') as (p & r & Hm & Hp). exists p, r. split; [|exact Hp].
    rewrite lookup_delete_ne; [exact Hm|]. congruence.
  - intros c p Hm. apply lookup_delete_Some in Hm as [_ Hm]. eauto.
  - destruct (take i (timers rt) ++ drop (S i) (timers rt)) as [|t' l'] eqn:E;
      [constructor|].
    rewrite <- E.
    refine (proj2 (proj2 (without_nth timer_chat _ _ _ t' Hd Ht _))).
    rewrite E. apply list_elem_of_here.
Qed.

Lemma coalescing_tick (dt : N) (rt : Runtime) : coalescing rt -> coalescing (tick dt rt).
Proof. intros H. exact H. Qed.

Lemma coalescing_run_event (e : event) (rt : Runtime) :
  coalescing rt -> coalescing (run_event e rt).
Proof.
  destruct e; cbn [run_event].
  - apply coalescing_call.
  - apply coalescing_settle.
  - apply coalescing_fire.
  - apply coalescing_tick.
Qed.

Lemma coalescing_run (es : list event) (rt : Runtime) :
  coalescing rt -> coalescing (run es rt).
Proof.
  revert rt. induction es as [|e es IH]; intros rt H; [exact H|].
  apply IH, coalescing_run_event, H.
Qed.

(** A promise keeps its conversation. *)
Lemma promise_chat_run_event (e : event) (rt : Runtime) (p : nat) (q : promise) :
  promises rt !! p = Some q ->
  exists q', promises (run_event e rt) !! p = Some q' /\ promise_chat q' = promise_chat q.
Proof.
  intros Hq. destruct e as [c e|p'|i|dt]; cbn [run_event].
  - unfold getChatKey. destruct (keyCachePromises rt !! c); cbn; [eauto|].
    exists q. split; [now apply lookup_app_l_Some|reflexivity].
  - destruct (promises rt !! p') as [[c e|c r]|] eqn:Hp'.
    2,3: rewrite settle_other by congruence; eauto.
    rewrite (settle_pending _ _ _ _ Hp'). cbn.
    destruct (decide (p' = p)) as [->|Hne].
    + eexists. split; [apply list_lookup_insert_eq; eapply lookup_lt_Some; eauto|].
      rewrite Hq in Hp'. now injection Hp' as ->.
    + exists q. split; [now rewrite list_lookup_insert_ne|reflexivity].
  - unfold fire. destruct (timers rt !! i); [|eauto].
    destruct (due t <=? clock (world rt)); cbn; eauto.
  - cbn. eauto.
Qed.

Lemma promise_chat_run (es : list event) (rt : Runtime) (p : nat) (q : promise) :
  promises rt !! p = Some q ->
  exists q', promises (run es rt) !! p = Some q' /\ promise_chat q' = promise_chat q.
Proof.
  revert rt q. induction es as [|e es IH]; intros rt q Hq; [eauto|].
  destruct (promise_chat_run_event e rt p q Hq) as (q1 & Hq1 & Hc1).
  destruct (IH (run_event e rt) q1 Hq1) as (q2 & Hq2 & Hc2).
  exists q2. split; [exact Hq2|congruence].
Qed.

(** C4: in any state the event loop reaches in which the map has no entry
    for a conversation, a call of [getChatKey] creates a promise and stores
    it in the map; while that resolution is in flight, whatever else runs in
    between, a second call for the conversation returns the stored promise
    and starts nothing, so that both callers await one promise and get what
    it resolves to; when the resolution settles, the entry stays and a timer
    is set that removes it once [cleanup_delay] (1000 ms) has passed, and
    not before. *)
Theorem concurrent_calls_share_resolution (w : World) (before between : list event)
    (chatId : string) (email1 email2 : option string) (p1 : nat) (rt1 : Runtime) :
  keyCachePromises (run before (start w)) !! chatId = None ->
  getChatKey chatId email1 (run before (start w)) = (p1, rt1) ->
  pending p1 (run between rt1) ->
  let rt2 := run between rt1 in
  let rt3 := settle p1 rt2 in
  let i := length (timers rt2) in
  keyCachePromises rt1 !! chatId = Some p1 /\
  getChatKey chatId email2 rt2 = (p1, rt2) /\
  (forall later : list event,
      awaited (getChatKey chatId email2 rt2).1 (run later rt2)
      = awaited p1 (run later rt2)) /\
  (exists r, awaited p1 rt3 = Some r) /\
  keyCachePromises rt3 !! chatId = Some p1 /\
  timers rt3 !! i = Some {| due := clock (world rt3) + cleanup_delay; timer_chat := chatId |} /\
  (forall dt, dt < cleanup_delay ->
              keyCachePromises (fire i (tick dt rt3)) !! chatId = Some p1) /\
  (forall dt, cleanup_delay <= dt ->
              keyCachePromises (fire i (tick dt rt3)) !! chatId = None).
Proof.
  intros Hnew Hcall Hpend rt2 rt3 i.
  rewrite (getChatKey_fresh _ _ _ Hnew) in Hcall. injection Hcall as <- <-.
  set (rt0 := run before (start w)) in *.
  set (rt1 := {| world := world rt0;
                 keyCachePromises := <[chatId := length (promises rt0)]> (keyCachePromises rt0);
                 promises := promises rt0 ++ [Pending chatId email1];
                 timers := timers rt0 |}) in *.
  set (p1 := length (promises rt0)) in *.
  assert (coalescing rt0) as H0 by apply coalescing_run, coalescing_start.
  assert (coalescing rt1) as H1.
  { pose proof (coalescing_call chatId email1 rt0 H0) as H.
    now rewrite (getChatKey_fresh _ _ _ Hnew) in H. }
  assert (coalescing rt2) as H2 by apply coalescing_run, H1.
  assert (promises rt1 !! p1 = Some (Pending chatId email1)) as Hp1.
  { cbn. rewrite lookup_app_r by (unfold p1; lia). now rewrite Nat.sub_diag. }
  assert (exists e, promises rt2 !! p1 = Some (Pending chatId e)) as [e Hp2].
  { destruct Hpend as (c & e & Hp). exists e.
    destruct (promise_chat_run between rt1 p1 _ Hp1) as (q & Hq & Hchat).
    rewrite Hp in Hq. injection Hq as <-. cbn in Hchat. subst c. exact Hp. }
  assert (keyCachePromises rt2 !! chatId = Some p1) as Hm2 by (apply H2 in Hp2; exact Hp2).
  split; [apply lookup_insert_eq|].
  split; [now apply getChatKey_cached|].
  split; [intros later; now rewrite (getChatKey_cached _ _ _ _ Hm2)|].
  unfold rt3. rewrite (settle_pending _ _ _ _ Hp2).
  assert (p1 < length (promises rt2))%nat as Hlt by (eapply lookup_lt_Some; eauto).
  split; [|split; [|split; [|split]]].
  - unfold awaited. cbn. rewrite list_lookup_insert_eq by exact Hlt. eauto.
  - exact Hm2.
  - cbn. rewrite lookup_app_r by (unfold i; lia). unfold i. now rewrite Nat.sub_diag.
  - intros dt Hdt. erewrite fire_not_due; [exact Hm2| |].
    + cbn. rewrite lookup_app_r by (unfold i; lia). unfold i.
      rewrite Nat.sub_diag. reflexivity.
    + cbn. lia.
  - intros dt Hdt.
    rewrite (fire_due i _ {| due := clock (keyPromise chatId e (world rt2)).2 + cleanup_delay;
                             timer_chat := chatId |}).
    + cbn. apply lookup_delete_eq.
    + cbn. rewrite lookup_app_r by (unfold i; lia). unfold i.
      rewrite Nat.sub_diag. reflexivity.
    + cbn. lia.
Qed.

End RuntimeFacts.

Lemma concurrent_calls_share_resolution_witness :
  let w := Toy.world_of Toy.plain_doc None in
  let rt1 := (getChatKey Toy.conversation (Some Toy.alice) (start w)).2 in
  let rt2 := run (P := Toy.platform) [Tick 5; Call "other"%string None] rt1 in
  pending 0 rt2 /\
  getChatKey Toy.conversation (Some Toy.bob) rt2 = (0%nat, rt2) /\
  keyCachePromises (fire 0 (tick 1000 (settle (P := Toy.platform) 0 rt2)))
    !! Toy.conversation = None.
Proof.
  cbv zeta.
  assert (pending 0
            (run (P := Toy.platform) [Tick 5; Call "other"%string None]
               (getChatKey Toy.conversation (Some Toy.alice)
                  (start (Toy.world_of Toy.plain_doc None))).2)) as Hpend.
  { exists Toy.conversation, (Some Toy.alice). reflexivity. }
  split; [exact Hpend|].
  destruct (concurrent_calls_share_resolution (P := Toy.platform)
              (Toy.world_of Toy.plain_doc None) [] [Tick 5; Call "other"%string None]
              Toy.conversation (Some Toy.alice) (Some Toy.bob) 0 _
              eq_refl eq_refl Hpend)
    as (_ & Hsame & _ & _ & _ & _ & _ & Hgone).
  split; [exact Hsame|]. apply (Hgone 1000). apply N.le_refl.
Defined.

(** ** Resolutions of a conversation key: what they change and what they yield *)

Section KeyManagerMore.
Context {P : Platform}.

Lemma touches_only_refl (chatId : string) (w : World) : touches_only chatId w w.
Proof.
  unfold touches_only. repeat split; auto.
  destruct (chats w !! chatId) as [d|]; eauto.
Qed.

Lemma touches_only_trans (chatId : string) (w1 w2 w3 : World) :
  touches_only chatId w1 w2 -> touches_only chatId w2 w3 -> touches_only chatId w1 w3.
Proof.
  intros (Hu & Hp & He & Hc & Hd & Hch & Hv & Hdoc) (Hu' & Hp' & He' & Hc' & Hd' & Hch' & Hv' & Hdoc').
  unfold touches_only. repeat split; try congruence; try lia.
  - intros c Hne. now rewrite Hch', Hch.
  - intros c Hne. now rewrite Hv', Hv.
  - destruct (chats w1 !! chatId) as [d|].
    + destruct Hdoc as (d' & Hd2 & Hpa & Hen). rewrite Hd2 in Hdoc'.
      destruct Hdoc' as (d'' & Hd3 & Hpa' & Hen'). exists d''. repeat split; congruence.
    + now rewrite Hdoc in Hdoc'.
Qed.

Lemma touches_only_same_stores (chatId : string) (w w' : World) :
  same_stores w w' -> (drawn w <= drawn w')%nat -> touches_only chatId w w'.
Proof.
  intros (Hc & Hu & Hv & Hp & He & Hk) Hd. unfold touches_only.
  repeat split; auto; try (intros; congruence).
  rewrite Hc. destruct (chats w !! chatId); eauto.
Qed.

Lemma touches_only_set_vault (chatId : string) (w : World)
    (f : gmap string VaultRecord -> gmap string VaultRecord) :
  (forall c, c <> chatId -> f (vault w) !! c = vault w !! c) ->
  touches_only chatId w (set_vault f w).
Proof.
  intros Hf. unfold touches_only. cbn. repeat split; auto.
  destruct (chats w !! chatId); eauto.
Qed.

Lemma touches_only_storeKey (chatId : string) (keyBytes : list byte) (w : World) :
  touches_only chatId w (storeKey chatId keyBytes w).2.
Proof.
  apply touches_only_set_vault. intros c Hne. now rewrite lookup_insert_ne.
Qed.

Lemma touches_only_updateDoc (chatId : string) (f : ChatDoc -> ChatDoc) (w : World) :
  (forall d, participants (f d) = participants d /\ encryptionKey (f d) = encryptionKey d) ->
  touches_only chatId w (updateDoc_chat chatId f w).2.
Proof.
  intros Hf. unfold updateDoc_chat.
  destruct (chats w !! chatId) as [d|] eqn:Hd; [|apply touches_only_refl].
  unfold touches_only. cbn. repeat split; auto.
  - intros c Hne. now rewrite lookup_insert_ne.
  - rewrite Hd. exists (f d). rewrite lookup_insert_eq. split; [reflexivity|apply Hf].
Qed.

(** Composition of effects that respect a reflexive and transitive relation
    on worlds. *)
Section Effects.
Variable R : World -> World -> Prop.
Hypothesis R_refl : forall w, R w w.
Hypothesis R_trans : forall w1 w2 w3, R w1 w2 -> R w2 w3 -> R w1 w3.

Lemma respects_mret {A} (a : A) : respects R (mret a).
Proof. intros w. apply R_refl. Qed.

Lemma respects_throw {A} (e : error) : respects R (@throw A e).
Proof. intros w. apply R_refl. Qed.

Lemma respects_lift {A} (r : result A) : respects R (lift r).
Proof. intros w. apply R_refl. Qed.

Lemma respects_get_world : respects R get_world.
Proof. intros w. apply R_refl. Qed.

Lemma respects_bind {A B} (m : M A) (f : A -> M B) :
  respects R m -> (forall a, respects R (f a)) -> respects R (m ≫= f).
Proof.
  intros Hm Hf w. unfold mbind, M_bind. specialize (Hm w).
  destruct (m w) as [[a|e] w1]; cbn in *; [|exact Hm].
  eapply R_trans; [exact Hm|apply Hf].
Qed.

Lemma respects_try_catch {A} (body : M A) (handler : error -> M A) :
  respects R body -> (forall e, respects R (handler e)) -> respects R (try_catch body handler).
Proof.
  intros Hm Hf w. unfold try_catch. specialize (Hm w).
  destruct (body w) as [[a|e] w1]; cbn in *; [exact Hm|].
  eapply R_trans; [exact Hm|apply Hf].
Qed.

End Effects.

Lemma keyPromise_respects (chatId : string) (myEmail : option string) :
  respects (touches_only chatId) (keyPromise chatId myEmail).
Proof.
  pose proof (touches_only_refl chatId) as Hr.
  pose proof (touches_only_trans chatId) as Ht.
  pose proof (fun A B => @respects_bind _ Ht A B) as bind.
  pose proof (fun A => @respects_try_catch _ Ht A) as catch.
  pose proof (fun A => @respects_mret _ Hr A) as ret.
  pose proof (fun A => @respects_throw _ Hr A) as thr.
  pose proof (fun A => @respects_lift _ Hr A) as lft.
  assert (forall n, respects (touches_only chatId) (getRandomValues n)) as Hrand.
  { intros n w. apply touches_only_same_stores; [apply same_stores_set_drawn|cbn; lia]. }
  assert (forall k, respects (touches_only chatId) (storeKey chatId k)) as Hstore
    by (intros k w; apply touches_only_storeKey).
  assert (forall e, respects (touches_only chatId) (getUserPublicKey e)) as Hpub.
  { intros e w. rewrite getUserPublicKey_world. apply Hr. }
  assert (respects (touches_only chatId) getMyPrivateKey) as Hpriv.
  { intros w. rewrite getMyPrivateKey_world. apply Hr. }
  assert (forall data pub, respects (touches_only chatId) (encryptWithPublicKey data pub)) as Henc.
  { intros data pub. unfold encryptWithPublicKey, subtle_encrypt_rsa.
    apply bind; [|intros; apply lft].
    destruct (_ <=? _)%nat; [|apply thr].
    apply bind; [apply Hrand|intros; apply ret]. }
  assert (forall rawKey emails acc,
             respects (touches_only chatId) (share_loop rawKey emails acc)) as Hloop.
  { intros rawKey emails. induction emails as [|e rest IH]; intros acc; cbn [share_loop].
    - apply ret.
    - apply bind; [|intros; apply IH]. apply catch; [|intros; apply ret].
      apply bind; [apply Hpub|]. intros pub.
      apply bind; [apply Henc|intros; apply ret]. }
  assert (forall f, (forall d, participants (f d) = participants d /\
                               encryptionKey (f d) = encryptionKey d) ->
                    respects (touches_only chatId) (updateDoc_chat chatId f)) as Hupd
    by (intros f Hf w; now apply touches_only_updateDoc).
  assert (forall chatData, respects (touches_only chatId) (generate_and_share chatId chatData))
    as Hgen.
  { intros chatData. unfold generate_and_share, generateChatKey.
    apply bind; [apply Hrand|]. intros rawKey.
    apply bind; [apply Hstore|]. intros _.
    apply bind.
    - apply catch; [|intros; apply ret].
      unfold shareKeyWithParticipants.
      destruct (participants chatData); [|apply thr].
      apply bind; [apply Hloop|]. intros pk.
      apply bind; [apply respects_get_world, Hr|].
      intros w0. apply Hupd. now intros d.
    - intros _. apply bind; [apply Hupd; now intros d|].
      intros; apply lft. }
  assert (forall chatData, respects (touches_only chatId) (from_legacy_key chatId chatData))
    as Hleg.
  { intros chatData. unfold from_legacy_key.
    destruct (truthy (encryptionKey chatData)); [|apply Hgen].
    apply bind; [apply lft|]. intros rawKey.
    apply bind; [apply Hstore|]. intros; apply lft. }
  assert (respects (touches_only chatId) (deleteKey chatId)) as Hdel.
  { intros w. apply touches_only_set_vault. intros c Hne. now rewrite lookup_delete_ne. }
  unfold keyPromise. apply bind.
  { intros w. apply Hr. }
  intros [chatData|]; [|apply thr].
  apply bind.
  - unfold unwrap_my_package. destruct (_ && _); [|apply ret].
    apply catch; [|intros; apply ret].
    apply bind; [apply Hpriv|]. intros priv.
    apply bind; [apply lft|]. intros rawKey.
    apply bind; [apply Hstore|]. intros; apply ret.
  - intros [rawKey|]; [apply lft|].
    unfold from_local_storage. apply bind.
    { intros w. apply Hr. }
    intros rawKey. apply bind.
    + destruct rawKey as [k|]; [|apply ret].
      destruct (_ && _); [|apply ret].
      destruct (negb _); [|apply ret].
      destruct (negb _); [|apply ret].
      apply bind; [apply Hdel|]. intros; apply ret.
    + intros [k|]; [apply lft|apply Hleg].
Qed.

Lemma bind_inv {A B} (m : M A) (f : A -> M B) (w : World) (b : B) (w' : World) :
  (m ≫= f) w = (Ok b, w') ->
  exists a w1, m w = (Ok a, w1) /\ f a w1 = (Ok b, w').
Proof.
  unfold mbind, M_bind. destruct (m w) as [[a|e] w1]; [eauto|discriminate].
Qed.

Lemma importKey_inv (rawKey : list byte) (k : CryptoKey) :
  importKey rawKey = Ok k -> raw k = rawKey /\ key_length_ok (length rawKey).
Proof.
  unfold importKey, key_length_ok.
  destruct (_ =? 16)%nat eqn:H16; [intros [= <-]; apply Nat.eqb_eq in H16; auto|].
  destruct (_ =? 24)%nat eqn:H24; [intros [= <-]; apply Nat.eqb_eq in H24; auto|].
  destruct (_ =? 32)%nat eqn:H32; [intros [= <-]; apply Nat.eqb_eq in H32; auto|].
  discriminate.
Qed.

Lemma respects_run {A} (R : World -> World -> Prop) (m : M A) (w : World)
    (r : result A) (w' : World) :
  respects R m -> m w = (r, w') -> R w w'.
Proof. intros Hm H. specialize (Hm w). now rewrite H in Hm. Qed.

Lemma shareKeyWithParticipants_same_vault (chatId : string) (rawKey : list byte)
    (recipients : option (list string)) :
  respects same_vault (shareKeyWithParticipants chatId rawKey recipients).
Proof.
  intros w. unfold shareKeyWithParticipants. destruct recipients as [emails|]; [|reflexivity].
  destruct (share_loop_spec rawKey emails ∅ w) as (pk & w1 & Hloop & Hs & _).
  unfold mbind at 1, M_bind at 1. rewrite Hloop.
  unfold mbind at 1, M_bind at 1. cbn [get_world].
  unfold updateDoc_chat. destruct Hs as (_ & _ & Hv & _).
  destruct (chats w1 !! chatId); exact Hv.
Qed.

Lemma updateDoc_chat_same_vault (chatId : string) (f : ChatDoc -> ChatDoc) :
  respects same_vault (updateDoc_chat chatId f).
Proof. intros w. unfold updateDoc_chat. now destruct (chats w !! chatId). Qed.

Lemma same_vault_refl (w : World) : same_vault w w.
Proof. reflexivity. Qed.

Lemma same_vault_trans (w1 w2 w3 : World) :
  same_vault w1 w2 -> same_vault w2 w3 -> same_vault w1 w3.
Proof. unfold same_vault. congruence. Qed.

Lemma storeKey_then_import (chatId : string) (rawKey : list byte) (rest : M unit)
    (w : World) (k : CryptoKey) (w' : World) :
  respects same_vault rest ->
  (storeKey chatId rawKey;; rest;; lift (importKey rawKey)) w = (Ok k, w') ->
  vault_keys w' !! chatId = Some (raw k) /\ key_length_ok (length (raw k)).
Proof.
  intros Hrest H.
  apply bind_inv in H as ([] & w1 & H1 & H).
  apply bind_inv in H as ([] & w2 & H2 & H).
  unfold lift in H. injection H as Hk <-.
  apply importKey_inv in Hk as [-> Hlen]. split; [|exact Hlen].
  specialize (Hrest w1). rewrite H2 in Hrest. cbn in Hrest.
  unfold vault_keys. rewrite lookup_fmap, Hrest.
  injection H1 as <-. cbn. now rewrite lookup_insert_eq.
Qed.

Lemma generate_and_share_stored (chatId : string) (chatData : ChatDoc) (w : World)
    (k : CryptoKey) (w' : World) :
  generate_and_share chatId chatData w = (Ok k, w') ->
  vault_keys w' !! chatId = Some (raw k) /\ key_length_ok (length (raw k)).
Proof.
  unfold generate_and_share. intros H.
  apply bind_inv in H as (rawKey & w1 & _ & H).
  apply bind_inv in H as ([] & w2 & H2 & H).
  apply bind_inv in H as ([] & w3 & H3 & H).
  apply bind_inv in H as ([] & w4 & H4 & H).
  unfold lift in H. injection H as Hk <-.
  apply importKey_inv in Hk as [-> Hlen]. split; [|exact Hlen].
  apply (respects_run same_vault) in H4 as Hv4; [|apply updateDoc_chat_same_vault].
  apply (respects_run same_vault) in H3 as Hv3.
  2:{ apply (respects_try_catch _ same_vault_trans).
      - apply shareKeyWithParticipants_same_vault.
      - intros e. apply (respects_mret _ same_vault_refl). }
  unfold vault_keys. rewrite lookup_fmap.
  unfold same_vault in *. rewrite Hv4, Hv3.
  injection H2 as <-. cbn. now rewrite lookup_insert_eq.
Qed.

Lemma from_legacy_key_stored (chatId : string) (chatData : ChatDoc) (w : World)
    (k : CryptoKey) (w' : World) :
  from_legacy_key chatId chatData w = (Ok k, w') ->
  vault_keys w' !! chatId = Some (raw k) /\ key_length_ok (length (raw k)).
Proof.
  unfold from_legacy_key. destruct (truthy _); [|apply generate_and_share_stored].
  intros H. apply bind_inv in H as (rawKey & w1 & _ & H).
  apply (storeKey_then_import chatId rawKey (mret tt) w1).
  - apply (respects_mret _ same_vault_refl).
  - exact H.
Qed.

Lemma keyPromise_stored (chatId : string) (myEmail : option string) (w : World)
    (k : CryptoKey) (w' : World) :
  keyPromise chatId myEmail w = (Ok k, w') ->
  vault_keys w' !! chatId = Some (raw k) /\ key_length_ok (length (raw k)).
Proof.
  unfold keyPromise. intros H.
  apply bind_inv in H as ([chatData|] & w1 & _ & H); [|discriminate].
  apply bind_inv in H as (unwrapped & w2 & Hu & H).
  destruct unwrapped as [rawKey|].
  - unfold lift in H. injection H as Hk <-.
    apply importKey_inv in Hk as [-> Hlen]. split; [|exact Hlen].
    unfold unwrap_my_package in Hu. destruct (_ && _); [|discriminate].
    unfold try_catch in Hu.
    destruct (_ ≫= _) as [[a|e] w3] eqn:Hbody in Hu; [|discriminate].
    injection Hu as -> ->.
    apply bind_inv in Hbody as (priv & w4 & _ & Hbody).
    apply bind_inv in Hbody as (rawKey' & w5 & _ & Hbody).
    apply bind_inv in Hbody as ([] & w6 & Hst & Hbody).
    injection Hbody as <- <-. injection Hst as <-.
    unfold vault_keys. rewrite lookup_fmap. cbn. now rewrite lookup_insert_eq.
  - unfold from_local_storage in H.
    apply bind_inv in H as (held & w3 & Hget & H).
    apply bind_inv in H as ([rawKey|] & w4 & Hsel & H);
      [|now apply from_legacy_key_stored in H].
    unfold lift in H. injection H as Hk <-.
    apply importKey_inv in Hk as [-> Hlen]. split; [|exact Hlen].
    injection Hget as <- <-.
    assert (key <$> vault w2 !! chatId = Some rawKey /\ w4 = w2) as [Hv ->].
    { destruct (key <$> vault w2 !! chatId) as [k0|]; [|discriminate].
      destruct (_ && _) in Hsel; [|injection Hsel as -> ->; auto].
      destruct (negb _) in Hsel; [|injection Hsel as -> ->; auto].
      destruct (negb _) in Hsel; [|injection Hsel as -> ->; auto].
      apply bind_inv in Hsel as (? & ? & _ & Hsel). discriminate. }
    unfold vault_keys. now rewrite lookup_fmap.
Qed.

(** X2: when a resolution yields a key, from whichever of the four
    sources, the vault then holds the raw bytes of that key under the
    conversation, they are 16, 24 or 32 bytes, and [chatHasKey] answers
    true. *)
Theorem resolved_key_is_stored (chatId : string) (myEmail : option string) (w : World)
    (k : CryptoKey) (w' : World) :
  keyPromise chatId myEmail w = (Ok k, w') ->
  vault_keys w' !! chatId = Some (raw k) /\
  key_length_ok (length (raw k)) /\
  chatHasKey chatId w' = (Ok true, w').
Proof.
  intros Hrun. destruct (keyPromise_stored _ _ _ _ _ Hrun) as [Hv Hlen].
  split; [exact Hv|]. split; [exact Hlen|].
  unfold chatHasKey, hasKey, getKey. run_M. cbn.
  unfold vault_keys in Hv. rewrite lookup_fmap in Hv. now rewrite Hv.
Qed.

End KeyManagerMore.

Lemma resolved_key_is_stored_witness :
  let doc := Toy.packaged_doc Byte.x01 (replicate 32 Byte.x0b) in
  let w := Toy.world_of doc (Some (replicate 32 Byte.x0a)) in
  let w' := (keyPromise (P := Toy.platform) Toy.conversation (Some Toy.alice) w).2 in
  vault_keys w' !! Toy.conversation = Some (replicate 32 Byte.x0b) /\
  key_length_ok 32 /\
  chatHasKey Toy.conversation w' = (Ok true, w').
Proof.
  intros doc w w'.
  apply (resolved_key_is_stored (P := Toy.platform) Toy.conversation (Some Toy.alice) w
           (Toy.key_of Byte.x0b) w').
  vm_compute. reflexivity.
Defined.

Section KeyExchange.
Context {P : Platform}.

Lemma encode_nonempty (bs : list byte) : bs <> [] -> truthy (Some (Base64.encode bs)) = true.
Proof.
  destruct bs as [|a [|b [|c r]]]; [congruence|reflexivity..].
Qed.

Lemma getUserPublicKey_lower (email email' : string) (w : World) (pub : rsa_public_key) :
  toLowerCase email = toLowerCase email' ->
  getUserPublicKey email w = (Ok pub, w) -> getUserPublicKey email' w = (Ok pub, w).
Proof.
  unfold getUserPublicKey. run_M. intros ->.
  destruct (negb _); [discriminate|auto].
Qed.

(** Before any key exists the resolution is the generation of one. *)
Lemma first_call_eq (chatId : string) (myEmail : option string) (chatData : ChatDoc)
    (w : World) :
  chats w !! chatId = Some chatData ->
  keyPackages chatData = None ->
  truthy (encryptionKey chatData) = false ->
  vault w !! chatId = None ->
  keyPromise chatId myEmail w = generate_and_share chatId chatData w.
Proof.
  intros Hdoc Hpk Hleg Hvault.
  rewrite (keyPromise_eq _ _ _ _ Hdoc).
  rewrite unwrap_my_package_none.
  2: { right. left. unfold my_package. now rewrite Hpk. }
  rewrite (from_local_storage_empty _ _ _ _ Hvault).
  unfold from_legacy_key. now rewrite Hleg.
Qed.

(** The key that one participant generates is the key that another
    participant unwraps from the package made for them. *)
Lemma key_exchange (chatId : string) (creator : option string)
    (chatData : ChatDoc) (w : World) (emails : list string)
    (recipient : string) (pub : rsa_public_key) (priv : rsa_private_key)
    (device : World) :
  RsaOaepCorrect P -> RsaOaepNonEmpty ->
  chats w !! chatId = Some chatData ->
  participants chatData = Some emails ->
  keyPackages chatData = None ->
  truthy (encryptionKey chatData) = false ->
  vault w !! chatId = None ->
  recipient ∈ emails ->
  truthy_id (Some recipient) = true ->
  wrappable w (next_key w) recipient pub ->
  chats device = chats (keyPromise chatId creator w).2 ->
  getMyPrivateKey device = (Ok priv, device) ->
  rsa_keypair pub priv ->
  (keyPromise chatId creator w).1 = Ok {| raw := next_key w |} /\
  exists device',
    keyPromise chatId (Some recipient) device = (Ok {| raw := next_key w |}, device') /\
    vault_keys device' !! chatId = Some (next_key w).
Proof.
  intros Hrsa Hne Hdoc Hps Hpk Hleg Hvault Hin Hid Hwrap Hchats Hpriv Hpair.
  rewrite (first_call_eq _ _ _ _ Hdoc Hpk Hleg Hvault) in *.
  destruct (generate_and_share_spec chatId chatData w emails Hdoc Hps)
    as (packages & w' & Hrun & Hv & Hc & Hu & Hfrom & Hto).
  rewrite Hrun in *. cbn [fst snd] in *. split; [reflexivity|].
  destruct (Hto recipient pub Hin Hwrap) as [v Hv'].
  destruct (Hfrom _ _ Hv') as (email & pub' & seed & _ & Hlow & Hwrap' & Hseed & ->).
  assert (pub' = pub) as ->.
  { destruct Hwrap as [Hget _], Hwrap' as [Hget' _].
    apply (getUserPublicKey_lower _ recipient) in Hget'; [|exact Hlow]. congruence. }
  set (d' := {| participants := Some emails; keyPackages := Some packages;
                e2eeEnabled := true; e2eeVersion := Some 1;
                encryptionKey := encryptionKey chatData;
                lastKeyUpdate := Some (clock w) |}) in *.
  assert (chats device !! chatId = Some d') as Hdoc'
    by (rewrite Hchats, Hc; apply lookup_insert_eq).
  assert (my_package d' (Some recipient)
          = Some (Base64.encode (rsa_oaep_encrypt pub seed (next_key w)))) as Hmine
    by exact Hv'.
  rewrite (keyPromise_eq _ _ _ _ Hdoc').
  rewrite (unwrap_my_package_some chatId recipient d' device _ priv (next_key w) Hid Hmine).
  - rewrite importKey_next_key. eexists. split; [reflexivity|].
    unfold vault_keys. rewrite lookup_fmap. cbn. now rewrite lookup_insert_eq.
  - apply encode_nonempty, Hne.
  - exact Hpriv.
  - rewrite decryptWithPrivateKey_encoded, Hrsa; [reflexivity|exact Hpair|exact Hseed|].
    apply Hwrap.
Qed.

(** X3: the key exchange. One participant resolves the key of a
    conversation that has none yet, which generates it; another
    participant, whose published public key takes the key and whose
    device holds the private key of the pair, then resolves the key on
    that device from the document the first one left, and obtains the
    same key, which is then in the vault of that device. *)
Theorem key_exchange_converges (chatId : string) (creator : option string)
    (chatData : ChatDoc) (w : World) (emails : list string)
    (recipient : string) (pub : rsa_public_key) (priv : rsa_private_key)
    (device : World) :
  RsaOaepCorrect P -> RsaOaepNonEmpty ->
  chats w !! chatId = Some chatData ->
  participants chatData = Some emails ->
  keyPackages chatData = None ->
  truthy (encryptionKey chatData) = false ->
  vault w !! chatId = None ->
  recipient ∈ emails ->
  truthy_id (Some recipient) = true ->
  wrappable w (next_key w) recipient pub ->
  chats device = chats (keyPromise chatId creator w).2 ->
  getMyPrivateKey device = (Ok priv, device) ->
  rsa_keypair pub priv ->
  (keyPromise chatId creator w).1 = Ok {| raw := next_key w |} /\
  exists device',
    keyPromise chatId (Some recipient) device = (Ok {| raw := next_key w |}, device') /\
    vault_keys device' !! chatId = Some (next_key w).
Proof. apply key_exchange. Qed.

End KeyExchange.

Lemma toy_rsa_oaep_nonempty : RsaOaepNonEmpty (P := Toy.platform).
Proof. intros pub seed data. discriminate. Defined.

Lemma key_exchange_converges_witness :
  let w := Toy.world_of Toy.plain_doc None in
  let sent := keyPromise (P := Toy.platform) Toy.conversation (Some Toy.alice) w in
  let device :=
    {| chats := chats sent.2; users := users w; vault := ∅;
       userPrivateKey := Some (Base64.encode [Byte.x01]);
       entropy := Toy.counting; drawn := 0; clock := 7 |} in
  sent.1 = Ok {| raw := next_key w |} /\
  exists device',
    keyPromise (P := Toy.platform) Toy.conversation (Some Toy.alice) device
    = (Ok {| raw := next_key w |}, device') /\
    vault_keys device' !! Toy.conversation = Some (next_key w).
Proof.
  intros w sent device.
  apply (key_exchange_converges (P := Toy.platform) Toy.conversation (Some Toy.alice)
           Toy.plain_doc w [Toy.alice; Toy.bob] Toy.alice Byte.x01 Byte.x01 device
           ToyFacts.rsa_oaep_correct toy_rsa_oaep_nonempty
           eq_refl eq_refl eq_refl eq_refl eq_refl).
  - apply list_elem_of_here.
  - reflexivity.
  - split; [reflexivity|]. cbn. vm_compute. lia.
  - vm_compute. reflexivity.
  - vm_compute. reflexivity.
  - reflexivity.
Defined.

Section LegacyKey.
Context {P : Platform}.

Lemma set_vault_insert_again (chatId : string) (r : VaultRecord) (w : World) :
  set_vault (insert chatId r) (set_vault (delete chatId) (set_vault (insert chatId r) w))
  = set_vault (insert chatId r) w.
Proof.
  destruct w. unfold set_vault. cbn. f_equal.
  apply map_eq. intros c. destruct (decide (c = chatId)) as [->|Hne].
  - now rewrite !lookup_insert_eq.
  - now rewrite !lookup_insert_ne, lookup_delete_ne, lookup_insert_ne.
Qed.

(** The third source: the legacy field of the document, for a caller
    without a package and a vault without a key. *)
Lemma legacy_first (chatId : string) (myEmail : option string) (chatData : ChatDoc)
    (w : World) :
  chats w !! chatId = Some chatData ->
  truthy_id myEmail = false \/ truthy (my_package chatData myEmail) = false ->
  vault w !! chatId = None ->
  truthy (encryptionKey chatData) = true ->
  keyPromise chatId myEmail w =
  match charCodes <$> atob (default [] (encryptionKey chatData)) with
  | Ok rawKey => (importKey rawKey, (storeKey chatId rawKey w).2)
  | Err e => (Err e, w)
  end.
Proof.
  intros Hdoc Hno Hvault Hleg.
  rewrite (keyPromise_eq _ _ _ _ Hdoc).
  rewrite unwrap_my_package_none by tauto.
  rewrite (from_local_storage_empty _ _ _ _ Hvault).
  unfold from_legacy_key. rewrite Hleg. run_M.
  destruct (charCodes <$> atob _) as [rawKey|e]; [|reflexivity].
  cbn. now destruct (importKey rawKey).
Qed.

(** After the migration the vault answers, or is emptied as orphaned and
    filled again from the legacy field: the outcome is the same. *)
Lemma legacy_again (chatId : string) (myEmail : option string) (chatData : ChatDoc)
    (w : World) (rawKey : list byte) :
  chats w !! chatId = Some chatData ->
  truthy_id myEmail = false \/ truthy (my_package chatData myEmail) = false ->
  truthy (encryptionKey chatData) = true ->
  charCodes <$> atob (default [] (encryptionKey chatData)) = Ok rawKey ->
  let w' := (storeKey chatId rawKey w).2 in
  keyPromise chatId myEmail w' = (importKey rawKey, w').
Proof.
  intros Hdoc Hno Hleg Hdec w'.
  assert (chats w' !! chatId = Some chatData) as Hdoc' by exact Hdoc.
  rewrite (keyPromise_eq _ _ _ _ Hdoc').
  rewrite unwrap_my_package_none by tauto.
  rewrite (from_local_storage_held _ _ _ _ {| key := rawKey; createdAt := clock w |})
    by apply lookup_insert_eq.
  destruct (orphaned myEmail chatData); [|reflexivity].
  unfold from_legacy_key. rewrite Hleg, Hdec. run_M. cbn.
  unfold w'. cbn. rewrite set_vault_insert_again.
  now destruct (importKey rawKey).
Qed.


(** X5: a legacy field that is unusable. If it is not base64, the
    resolution fails with the exception of [atob] and changes nothing. If
    it decodes to bytes of a length no AES key has, they are written to
    the vault before [importKey] rejects them, and the next resolution
    fails in the same way: no key is ever generated for the
    conversation. *)
Theorem unusable_legacy_key (chatId : string) (myEmail : option string)
    (chatData : ChatDoc) (w : World) :
  chats w !! chatId = Some chatData ->
  truthy_id myEmail = false \/ truthy (my_package chatData myEmail) = false ->
  vault w !! chatId = None ->
  truthy (encryptionKey chatData) = true ->
  (forall e, charCodes <$> atob (default [] (encryptionKey chatData)) = Err e ->
     keyPromise chatId myEmail w = (Err e, w)) /\
  (forall rawKey,
     charCodes <$> atob (default [] (encryptionKey chatData)) = Ok rawKey ->
     ~ key_length_ok (length rawKey) ->
     let w' := (keyPromise chatId myEmail w).2 in
     keyPromise chatId myEmail w = (Err DataError, w') /\
     vault_keys w' !! chatId = Some rawKey /\
     keyPromise chatId myEmail w' = (Err DataError, w')).
Proof.
  intros Hdoc Hno Hvault Hleg.
  rewrite (legacy_first _ _ _ _ Hdoc Hno Hvault Hleg). split.
  - now intros e ->.
  - intros rawKey Hdec Hlen. rewrite Hdec. cbn [snd].
    assert (importKey rawKey = Err DataError) as Himp.
    { unfold importKey, key_length_ok in *.
      destruct (_ =? 16)%nat eqn:H16; [apply Nat.eqb_eq in H16; tauto|].
      destruct (_ =? 24)%nat eqn:H24; [apply Nat.eqb_eq in H24; tauto|].
      destruct (_ =? 32)%nat eqn:H32; [apply Nat.eqb_eq in H32; tauto|].
      reflexivity. }
    rewrite Himp. split; [reflexivity|]. split.
    { unfold vault_keys. rewrite lookup_fmap. cbn. now rewrite lookup_insert_eq. }
    rewrite <- Himp. exact (legacy_again chatId myEmail chatData w rawKey Hdoc Hno Hleg Hdec).
Qed.

End LegacyKey.


Lemma unusable_legacy_key_witness :
  let w := Toy.world_of (Examples.legacy_doc (lit "AAAA")) None in
  let w' := (keyPromise (P := Toy.platform) Toy.conversation (Some Toy.alice) w).2 in
  keyPromise (P := Toy.platform) Toy.conversation (Some Toy.alice) w = (Err DataError, w') /\
  vault_keys w' !! Toy.conversation = Some [Byte.x00; Byte.x00; Byte.x00] /\
  keyPromise (P := Toy.platform) Toy.conversation (Some Toy.alice) w' = (Err DataError, w').
Proof.
  intros w.
  apply (proj2 (unusable_legacy_key (P := Toy.platform) Toy.conversation (Some Toy.alice)
                  (Examples.legacy_doc (lit "AAAA")) w
                  eq_refl (or_intror eq_refl) eq_refl eq_refl)
           [Byte.x00; Byte.x00; Byte.x00]).
  - vm_compute. reflexivity.
  - unfold key_length_ok. cbn. lia.
Defined.

Section Stability.
Context {P : Platform}.

Lemma getMyPrivateKey_private (w w2 : World) :
  userPrivateKey w2 = userPrivateKey w ->
  (getMyPrivateKey w2).1 = (getMyPrivateKey w).1.
Proof. unfold getMyPrivateKey. run_M. intros ->. now destruct (negb _). Qed.

Lemma getMyPrivateKey_eq (w : World) : getMyPrivateKey w = ((getMyPrivateKey w).1, w).
Proof. rewrite <- (getMyPrivateKey_world w) at 3. now destruct (getMyPrivateKey w). Qed.

Lemma unwrap_my_package_unwrapped (chatId : string) (myEmail : option string)
    (chatData : ChatDoc) (w : World) :
  unwrap_my_package chatId myEmail chatData w =
  match unwrapped myEmail chatData w with
  | Some rawKey => (Ok (Some rawKey), (storeKey chatId rawKey w).2)
  | None => (Ok None, w)
  end.
Proof.
  unfold unwrap_my_package, unwrapped.
  destruct (truthy_id myEmail); [|reflexivity]. cbn [andb].
  destruct (truthy (my_package chatData myEmail)) eqn:Ht;
    [|now rewrite andb_false_r].
  assert (bool_decide (is_Some (keyPackages chatData)) = true) as ->.
  { apply bool_decide_eq_true. unfold my_package in Ht.
    destruct (keyPackages chatData); [eauto|discriminate]. }
  cbn [andb]. unfold try_catch. unfold mbind at 1, M_bind at 1.
  rewrite (getMyPrivateKey_eq w).
  destruct (getMyPrivateKey w).1 as [priv|e]; [|reflexivity]. cbn [fst].
  unfold mbind at 1, M_bind at 1, lift.
  destruct (decryptWithPrivateKey _ priv) as [rawKey|e]; reflexivity.
Qed.

Lemma unwrapped_ext (myEmail : option string) (d d2 : ChatDoc) (w w2 : World) :
  my_package d2 myEmail = my_package d myEmail ->
  userPrivateKey w2 = userPrivateKey w ->
  unwrapped myEmail d2 w2 = unwrapped myEmail d w.
Proof.
  intros Hp Hk. unfold unwrapped. now rewrite Hp, (getMyPrivateKey_private w w2 Hk).
Qed.

Lemma from_legacy_key_eq (chatId : string) (chatData : ChatDoc) (w : World) :
  from_legacy_key chatId chatData w =
  if truthy (encryptionKey chatData) then
    match charCodes <$> atob (default [] (encryptionKey chatData)) with
    | Ok rawKey => (importKey rawKey, (storeKey chatId rawKey w).2)
    | Err e => (Err e, w)
    end
  else generate_and_share chatId chatData w.
Proof.
  unfold from_legacy_key. destruct (truthy _); [|reflexivity]. run_M.
  destruct (charCodes <$> atob _) as [rawKey|e]; [|reflexivity].
  cbn. now destruct (importKey rawKey).
Qed.

Lemma keyPromise_sources (chatId : string) (myEmail : option string) (chatData : ChatDoc)
    (w : World) :
  chats w !! chatId = Some chatData ->
  keyPromise chatId myEmail w =
  match unwrapped myEmail chatData w with
  | Some rawKey => (importKey rawKey, (storeKey chatId rawKey w).2)
  | None =>
      match vault w !! chatId with
      | Some r =>
          if orphaned myEmail chatData
          then from_legacy_key chatId chatData (set_vault (delete chatId) w)
          else (importKey (key r), w)
      | None => from_legacy_key chatId chatData w
      end
  end.
Proof.
  intros Hdoc. rewrite (keyPromise_eq _ _ _ _ Hdoc), unwrap_my_package_unwrapped.
  destruct (unwrapped myEmail chatData w); [reflexivity|].
  destruct (vault w !! chatId) as [r|] eqn:Hv.
  - apply (from_local_storage_held _ _ _ _ _ Hv).
  - apply (from_local_storage_empty _ _ _ _ Hv).
Qed.

(** The document that the generation of a key leaves. *)
Lemma generate_and_share_doc (chatId : string) (chatData : ChatDoc) (w : World) :
  chats w !! chatId = Some chatData ->
  exists w' d',
    generate_and_share chatId chatData w = (Ok {| raw := next_key w |}, w') /\
    chats w' !! chatId = Some d' /\
    e2eeEnabled d' = true /\
    (participants chatData = None -> keyPackages d' = keyPackages chatData) /\
    (forall emails, participants chatData = Some emails ->
       exists packages,
         keyPackages d' = Some packages /\
         forall i v, packages !! i = Some v ->
           exists pub seed,
             length seed = oaep_seed_length /\
             v = Base64.encode (rsa_oaep_encrypt pub seed (next_key w))).
Proof.
  intros Hdoc. destruct (participants chatData) as [emails|] eqn:Hps.
  - destruct (generate_and_share_spec chatId chatData w emails Hdoc Hps)
      as (pk & w' & Hrun & _ & Hc & _ & Hfrom & _).
    exists w'. eexists. split; [exact Hrun|].
    split; [rewrite Hc; apply lookup_insert_eq|]. split; [reflexivity|].
    split; [discriminate|]. intros ? [= <-]. exists pk. split; [reflexivity|].
    intros i v Hv. destruct (Hfrom i v Hv) as (_ & pub & seed & _ & _ & _ & Hseed & ->). eauto.
  - unfold generate_and_share, generateChatKey.
    unfold mbind at 1, M_bind at 1. cbn [getRandomValues]. fold (next_key w).
    unfold mbind at 1, M_bind at 1. cbn [storeKey].
    set (w1 := set_vault _ (set_drawn _ w)).
    unfold mbind at 1, M_bind at 1. unfold try_catch at 1.
    rewrite Hps. unfold shareKeyWithParticipants, throw, mret, M_ret.
    assert (chats w1 !! chatId = Some chatData) as Hdoc1 by exact Hdoc.
    unfold mbind at 1, M_bind at 1.
    rewrite (updateDoc_chat_eq _ _ _ _ Hdoc1).
    unfold lift. rewrite importKey_next_key.
    eexists. eexists. split; [reflexivity|]. cbn.
    split; [apply lookup_insert_eq|]. split; [reflexivity|].
    split; [reflexivity|]. discriminate.
Qed.

Lemma importKey_raw (k : CryptoKey) :
  key_length_ok (length (raw k)) -> importKey (raw k) = Ok k.
Proof.
  destruct k as [rk]. cbn. unfold importKey.
  intros [-> | [-> | ->]]; reflexivity.
Qed.

(** A later resolution on a device that holds the key [k]: the vault
    answers, unless the entry counts as orphaned and the legacy field is
    used again. *)
Lemma later_from_vault (chatId : string) (myEmail : option string) (d : ChatDoc)
    (w2 : World) (k : CryptoKey) :
  chats w2 !! chatId = Some d ->
  unwrapped myEmail d w2 = None ->
  vault_keys w2 !! chatId = Some (raw k) ->
  importKey (raw k) = Ok k ->
  (orphaned myEmail d = true ->
   truthy (encryptionKey d) = true /\
   charCodes <$> atob (default [] (encryptionKey d)) = Ok (raw k)) ->
  (keyPromise chatId myEmail w2).1 = Ok k.
Proof.
  intros Hdoc Hun Hv Himp Horph.
  rewrite (keyPromise_sources _ _ _ _ Hdoc), Hun.
  unfold vault_keys in Hv. rewrite lookup_fmap in Hv.
  destruct (vault w2 !! chatId) as [r|]; [|discriminate]. injection Hv as Hv.
  destruct (orphaned myEmail d).
  - destruct Horph as [Hleg Hdec]; [reflexivity|].
    rewrite from_legacy_key_eq, Hleg, Hdec. exact Himp.
  - cbn. now rewrite Hv.
Qed.

(** How the third and fourth source yield a key. *)
Lemma from_legacy_key_outcome (chatId : string) (chatData : ChatDoc) (w : World)
    (k : CryptoKey) (w' : World) :
  chats w !! chatId = Some chatData ->
  from_legacy_key chatId chatData w = (Ok k, w') ->
  (truthy (encryptionKey chatData) = true /\
   charCodes <$> atob (default [] (encryptionKey chatData)) = Ok (raw k) /\
   chats w' = chats w) \/
  (exists d',
     chats w' !! chatId = Some d' /\ e2eeEnabled d' = true /\
     (participants chatData = None -> keyPackages d' = keyPackages chatData) /\
     (forall emails, participants chatData = Some emails ->
        exists packages,
          keyPackages d' = Some packages /\
          forall i v, packages !! i = Some v ->
            exists pub seed,
              length seed = oaep_seed_length /\
              v = Base64.encode (rsa_oaep_encrypt pub seed (raw k)))).
Proof.
  intros Hdoc. rewrite from_legacy_key_eq.
  destruct (truthy (encryptionKey chatData)).
  - destruct (charCodes <$> atob _) as [rawKey|e]; [|discriminate].
    intros [= Himp <-]. apply importKey_inv in Himp as [-> _]. left. auto.
  - destruct (generate_and_share_doc chatId chatData w Hdoc)
      as (w1 & d' & Hrun & Hd' & He & Hnone & Hsome).
    rewrite Hrun. intros [= <- <-]. right. exists d'. auto.
Qed.

(** X6: a resolved key is stable. Once a resolution has yielded a key,
    every later resolution for the same caller yields the same key, in
    any world in which the document of the conversation and the private
    key are as the resolution left them and the vault still holds the
    key: whichever source the key came from, a later call does not come
    to generate another one. *)
Theorem resolved_key_is_stable (chatId : string) (myEmail : option string) (w : World)
    (k : CryptoKey) (w' w2 : World) :
  RsaOaepUnambiguous ->
  keyPromise chatId myEmail w = (Ok k, w') ->
  chats w2 !! chatId = chats w' !! chatId ->
  userPrivateKey w2 = userPrivateKey w' ->
  vault_keys w2 !! chatId = Some (raw k) ->
  (keyPromise chatId myEmail w2).1 = Ok k.
Proof.
  intros Hrsa Hrun Hchats Hpriv Hvault.
  destruct (keyPromise_stored _ _ _ _ _ Hrun) as [_ Hlen].
  pose proof (importKey_raw k Hlen) as Himp.
  pose proof (keyPromise_respects chatId myEmail w) as Hframe.
  rewrite Hrun in Hframe. destruct Hframe as (_ & Hpriv' & _). cbn [snd] in Hpriv'.
  rewrite Hpriv' in Hpriv.
  destruct (chats w !! chatId) as [d|] eqn:Hdoc;
    [|rewrite (keyPromise_no_chat _ _ _ Hdoc) in Hrun; discriminate].
  rewrite (keyPromise_sources _ _ _ _ Hdoc) in Hrun.
  destruct (unwrapped myEmail d w) as [rawKey|] eqn:Hun.
  { injection Hrun as Hk <-. cbn in Hchats. rewrite Hdoc in Hchats.
    rewrite (keyPromise_sources _ _ _ _ Hchats), (unwrapped_ext _ d d w w2 eq_refl Hpriv), Hun.
    exact Hk. }
  assert (forall w0, chats w0 !! chatId = Some d ->
            from_legacy_key chatId d w0 = (Ok k, w') ->
            (keyPromise chatId myEmail w2).1 = Ok k) as Hlater.
  { intros w0 Hdoc0 Hleg.
    destruct (from_legacy_key_outcome _ _ _ _ _ Hdoc0 Hleg)
      as [(Ht & Hdec & Hc) | (d' & Hd' & He & Hnone & Hsome)].
    - rewrite Hc, Hdoc0 in Hchats. apply (later_from_vault chatId myEmail d); auto.
      now rewrite (unwrapped_ext _ d d w w2 eq_refl Hpriv).
    - rewrite Hd' in Hchats.
      assert (orphaned myEmail d' = false) as Ho
        by (unfold orphaned; rewrite He; apply andb_false_r).
      destruct (unwrapped myEmail d' w2) as [rawKey'|] eqn:Hun2.
      + assert (rawKey' = raw k) as ->.
        { destruct (participants d) as [emails|] eqn:Hps.
          - destruct (Hsome emails eq_refl) as (packages & Hpk & Hall).
            unfold unwrapped in Hun2.
            destruct (truthy_id myEmail && _) eqn:Hc; [|discriminate].
            apply andb_true_iff in Hc as [_ Htr].
            unfold my_package in Htr, Hun2. rewrite Hpk in Htr, Hun2. cbn in Htr, Hun2.
            destruct (packages !! _) as [v|] eqn:Hv; [|discriminate].
            destruct (Hall _ _ Hv) as (pub & seed & Hseed & ->).
            destruct (getMyPrivateKey w2).1 as [priv|]; [|discriminate].
            cbn [default from_option] in Hun2. unfold id in Hun2.
            rewrite decryptWithPrivateKey_encoded in Hun2.
            destruct (rsa_oaep_decrypt priv _) as [x|] eqn:Hdecr; [|discriminate].
            injection Hun2 as <-. exact (Hrsa _ _ _ _ _ Hseed Hdecr).
          - rewrite (unwrapped_ext myEmail d d' w w2) in Hun2; [congruence| |exact Hpriv].
            unfold my_package. now rewrite (Hnone eq_refl). }
        rewrite (keyPromise_sources _ _ _ _ Hchats), Hun2. exact Himp.
      + apply (later_from_vault chatId myEmail d'); auto. congruence. }
  destruct (vault w !! chatId) as [r|] eqn:Hv; [|exact (Hlater w Hdoc Hrun)].
  destruct (orphaned myEmail d) eqn:Ho;
    [exact (Hlater (set_vault (delete chatId) w) Hdoc Hrun)|].
  injection Hrun as Hk <-. rewrite Hdoc in Hchats.
  apply (later_from_vault chatId myEmail d); auto; [|congruence].
  now rewrite (unwrapped_ext _ d d w w2 eq_refl Hpriv).
Qed.

End Stability.

Lemma toy_rsa_oaep_unambiguous : RsaOaepUnambiguous (P := Toy.platform).
Proof.
  intros pub priv seed data recovered Hseed H. cbn in H. unfold Toy.wrap, Toy.unwrap in H.
  case_decide; [|discriminate].
  injection H as <-. unfold oaep_seed_length in *. now rewrite <- Hseed, drop_app_length.
Defined.

Lemma resolved_key_is_stable_witness :
  let w := Toy.world_of Toy.plain_doc None in
  let w' := (keyPromise (P := Toy.platform) Toy.conversation (Some Toy.alice) w).2 in
  (keyPromise (P := Toy.platform) Toy.conversation (Some Toy.alice) w').1
  = Ok {| raw := next_key w |}.
Proof.
  intros w w'.
  apply (resolved_key_is_stable (P := Toy.platform) Toy.conversation (Some Toy.alice) w
           {| raw := next_key w |} w' w' toy_rsa_oaep_unambiguous).
  - vm_compute. reflexivity.
  - reflexivity.
  - reflexivity.
  - vm_compute. reflexivity.
Defined.

(** ** What a resolution writes into the conversation document *)

Section Written.
Context {P : Platform}.




End Written.

Section RuntimeMore.
Context {P : Platform}.

Lemma filter_at_most_one {A} (f : A -> bool) (l : list A) :
  (forall i j x y, l !! i = Some x -> l !! j = Some y -> f x = true -> f y = true -> i = j) ->
  (length (List.filter f l) <= 1)%nat.
Proof.
  induction l as [|a l IH]; intros H; cbn; [lia|].
  assert (length (List.filter f l) <= 1)%nat as IH'.
  { apply IH. intros i j x y Hi Hj Hx Hy.
    specialize (H (S i) (S j) x y Hi Hj Hx Hy). lia. }
  destruct (f a) eqn:Ha; [|exact IH'].
  cbn. destruct (List.filter f l) as [|b r] eqn:Hf; [cbn; lia|].
  exfalso.
  assert (In b (List.filter f l)) as Hb by (rewrite Hf; now left).
  apply filter_In in Hb as [Hin Hfb].
  apply list_elem_of_In, list_elem_of_lookup in Hin as [j Hj].
  specialize (H 0%nat (S j) a b eq_refl Hj Ha Hfb). discriminate.
Qed.

(** In every state that the page reaches, an [await] of [getChatKey]
    comes back. *)
Lemma await_getChatKey_returns (w : World) (es : list event) (chatId : string)
    (myEmail : option string) :
  is_Some (await_getChatKey chatId myEmail (run es (start w))).
Proof.
  pose proof (coalescing_run es (start w) (coalescing_start w)) as (_ & _ & Hentry & _).
  set (rt := run es (start w)) in *.
  destruct (keyCachePromises rt !! chatId) as [p|] eqn:Hp.
  - destruct (Hentry _ _ Hp) as ([c first|c r] & Hq & _).
    + rewrite (await_getChatKey_pending _ _ _ _ _ _ Hp Hq). eauto.
    + rewrite (await_getChatKey_settled _ _ _ _ _ _ Hp Hq). eauto.
  - rewrite (await_getChatKey_fresh _ _ _ Hp). eauto.
Qed.

(** X7: at no time are two resolutions in flight for one conversation,
    whatever calls, settlements, timers and delays the event loop has
    gone through since the page was loaded. *)
Theorem one_resolution_in_flight (w : World) (es : list event) (chatId : string) :
  (in_flight chatId (run es (start w)) <= 1)%nat.
Proof.
  pose proof (coalescing_run es (start w) (coalescing_start w)) as (Hone & _).
  apply filter_at_most_one. intros i j x y Hi Hj Hx Hy.
  destruct x as [c e|]; [|discriminate]. destruct y as [c' e'|]; [|discriminate].
  cbn in Hx, Hy. apply bool_decide_eq_true in Hx as ->. apply bool_decide_eq_true in Hy as ->.
  pose proof (Hone _ _ _ Hi) as H1. pose proof (Hone _ _ _ Hj) as H2. congruence.
Qed.


End RuntimeMore.


(** ** The vault of a device: how its operations compose *)

Section VaultMore.

Lemma atob_error (s : jsstring) (e : error) :
  charCodes <$> atob s = Err e -> e = InvalidCharacterError.
Proof.
  unfold atob. destruct (Base64.forgiving_decode s); cbn; congruence.
Qed.

Lemma stored_entries_all (entries : list (string * jsstring)) :
  (forall c v, (c, v) ∈ entries -> exists bs, charCodes <$> atob v = Ok bs) ->
  import_status entries = Ok tt /\
  forall c v bs, (c, v) ∈ entries -> charCodes <$> atob v = Ok bs ->
                 (c, bs) ∈ stored_entries entries.
Proof.
  induction entries as [|[c0 v0] rest IH]; intros Hall; cbn.
  - split; [reflexivity|]. intros c v bs Hin. inversion Hin.
  - destruct (Hall c0 v0) as [bs0 Hdec]; [left|]. rewrite Hdec.
    destruct IH as [Hst Hin]; [intros c v H; apply (Hall c v); now right|].
    split; [exact Hst|]. intros c v bs H Hd.
    apply elem_of_cons in H as [[= -> ->]|H].
    + rewrite Hdec in Hd. injection Hd as <-. left.
    + right. eauto.
Qed.

Lemma stored_entries_some (entries : list (string * jsstring)) (c : string) (v : jsstring)
    (e : error) :
  (c, v) ∈ entries -> charCodes <$> atob v = Err e ->
  import_status entries = Err InvalidCharacterError.
Proof.
  induction entries as [|[c0 v0] rest IH]; intros Hin Hdec; [inversion Hin|]. cbn.
  destruct (charCodes <$> atob v0) as [bs0|e0] eqn:Hd0.
  - apply elem_of_cons in Hin as [[= -> ->]|Hin]; [congruence|auto].
  - now rewrite (atob_error _ _ Hd0).
Qed.

Lemma stored_entries_from (entries : list (string * jsstring)) (c : string) (bs : list byte) :
  (c, bs) ∈ stored_entries entries ->
  exists v, (c, v) ∈ entries /\ charCodes <$> atob v = Ok bs.
Proof.
  induction entries as [|[c0 v0] rest IH]; cbn; intros Hin; [inversion Hin|].
  destruct (charCodes <$> atob v0) as [bs0|e0] eqn:Hd0; [|inversion Hin].
  apply elem_of_cons in Hin as [[= -> ->]|Hin].
  - exists v0. split; [left|exact Hd0].
  - destruct (IH Hin) as (v & Hv & Hd). exists v. split; [now right|exact Hd].
Qed.

Lemma stored_entries_keys (entries : list (string * jsstring)) :
  NoDup entries.*1 -> NoDup (stored_entries entries).*1.
Proof.
  induction entries as [|[c0 v0] rest IH]; cbn; intros Hnd; [constructor|].
  apply NoDup_cons in Hnd as [Hnot Hnd].
  destruct (charCodes <$> atob v0) as [bs0|e0]; [|constructor]. cbn.
  apply NoDup_cons. split; [|auto].
  intros Hin. apply Hnot. apply list_elem_of_fmap in Hin as ([c bs] & -> & Hin).
  destruct (stored_entries_from _ _ _ Hin) as (v & Hv & _).
  apply list_elem_of_fmap. exists (c, v). auto.
Qed.

Lemma foldl_insert_lookup {A} (l : list (string * A)) (m : gmap string A) (c : string) :
  NoDup l.*1 ->
  foldl (fun m d => <[d.1 := d.2]> m) m l !! c =
  match list_to_map (M := gmap string A) l !! c with
  | Some a => Some a
  | None => m !! c
  end.
Proof.
  intros Hnd. rewrite foldl_insert_union, lookup_union.
  assert (list_to_map (M := gmap string A) (reverse l) = list_to_map l) as ->.
  { symmetry. apply list_to_map_proper; [exact Hnd|].
    symmetry. apply reverse_Permutation. }
  destruct (list_to_map l !! c), (m !! c); reflexivity.
Qed.

(** What an import leaves in the vault, for the entries of the object in
    any order. *)
Lemma importKeys_entries_lookup (keysObject : gmap string jsstring)
    (entries : list (string * jsstring)) (w : World) (c : string) :
  entries ≡ₚ map_to_list keysObject ->
  vault_keys (importKeys_entries entries w).2 !! c =
  match list_to_map (M := gmap string (list byte)) (stored_entries entries) !! c with
  | Some bs => Some bs
  | None => vault_keys w !! c
  end /\
  NoDup entries.*1 /\
  (forall v, (c, v) ∈ entries <-> keysObject !! c = Some v).
Proof.
  intros Hperm.
  assert (NoDup entries.*1) as Hnd
    by (rewrite Hperm; apply NoDup_fst_map_to_list).
  split; [|split; [exact Hnd|]].
  - rewrite (proj2 (importKeys_entries_spec entries w)).
    apply foldl_insert_lookup, stored_entries_keys, Hnd.
  - intros v. rewrite Hperm. apply elem_of_map_to_list.
Qed.

(** X9: an import of a backup whose values are all base64 succeeds and
    merges into the vault: each conversation of the backup then has the
    key of the backup, which replaces the key the vault had for it, and
    the other conversations keep their keys. This holds whatever the
    order of the entries of the object. *)
Theorem import_merges_into_vault (keysObject : gmap string jsstring)
    (entries : list (string * jsstring)) (w : World) :
  entries ≡ₚ map_to_list keysObject ->
  (forall c v, keysObject !! c = Some v -> exists bs, charCodes <$> atob v = Ok bs) ->
  (importKeys_entries entries w).1 = Ok tt /\
  (forall c v bs, keysObject !! c = Some v -> charCodes <$> atob v = Ok bs ->
     vault_keys (importKeys_entries entries w).2 !! c = Some bs) /\
  (forall c, keysObject !! c = None ->
     vault_keys (importKeys_entries entries w).2 !! c = vault_keys w !! c).
Proof.
  intros Hperm Hall.
  destruct (stored_entries_all entries) as [Hst Hin].
  { intros c v Hcv. apply (Hall c v).
    now apply (importKeys_entries_lookup keysObject entries w c Hperm). }
  split; [now rewrite (proj1 (importKeys_entries_spec entries w))|]. split.
  - intros c v bs Hcv Hdec.
    destruct (importKeys_entries_lookup keysObject entries w c Hperm) as (-> & Hnd & Hiff).
    apply Hiff in Hcv. specialize (Hin c v bs Hcv Hdec).
    apply (elem_of_list_to_map (M := gmap string)) in Hin;
      [now rewrite Hin|apply stored_entries_keys, Hnd].
  - intros c Hnone.
    destruct (importKeys_entries_lookup keysObject entries w c Hperm) as (-> & Hnd & Hiff).
    destruct (list_to_map _ !! c) as [bs|] eqn:Hl; [|reflexivity].
    apply elem_of_list_to_map in Hl; [|apply stored_entries_keys, Hnd].
    destruct (stored_entries_from _ _ _ Hl) as (v & Hv & _).
    apply Hiff in Hv. congruence.
Qed.

(** X10: an import of a backup with a value that is not base64 fails
    with the exception of [atob], whatever the order of the entries. It
    is not undone: a conversation of the backup has either the key it had
    or the key of the backup, and the conversations that are not in the
    backup keep their keys. *)
Theorem import_rejects_malformed (keysObject : gmap string jsstring)
    (entries : list (string * jsstring)) (w : World) (chatId : string)
    (malformed : jsstring) (e : error) :
  entries ≡ₚ map_to_list keysObject ->
  keysObject !! chatId = Some malformed ->
  charCodes <$> atob malformed = Err e ->
  (importKeys_entries entries w).1 = Err InvalidCharacterError /\
  vault_keys (importKeys_entries entries w).2 !! chatId = vault_keys w !! chatId /\
  (forall c v, keysObject !! c = Some v ->
     vault_keys (importKeys_entries entries w).2 !! c = vault_keys w !! c \/
     exists bs, charCodes <$> atob v = Ok bs /\
                vault_keys (importKeys_entries entries w).2 !! c = Some bs) /\
  (forall c, keysObject !! c = None ->
     vault_keys (importKeys_entries entries w).2 !! c = vault_keys w !! c).
Proof.
  intros Hperm Hbad Hdec.
  assert (forall c, 
            match list_to_map (M := gmap string (list byte)) (stored_entries entries) !! c with
            | Some bs => exists v, keysObject !! c = Some v /\ charCodes <$> atob v = Ok bs
            | None => True
            end) as Hstored.
  { intros c. destruct (list_to_map _ !! c) as [bs|] eqn:Hl; [|exact I].
    destruct (importKeys_entries_lookup keysObject entries w c Hperm) as (_ & Hnd & Hiff).
    apply elem_of_list_to_map in Hl; [|apply stored_entries_keys, Hnd].
    destruct (stored_entries_from _ _ _ Hl) as (v & Hv & Hd).
    exists v. split; [now apply Hiff|exact Hd]. }
  split; [|split; [|split]].
  - rewrite (proj1 (importKeys_entries_spec entries w)).
    apply (stored_entries_some entries chatId malformed e); [|exact Hdec].
    now apply (importKeys_entries_lookup keysObject entries w chatId Hperm).
  - destruct (importKeys_entries_lookup keysObject entries w chatId Hperm) as (-> & _).
    specialize (Hstored chatId). destruct (list_to_map _ !! chatId); [|reflexivity].
    destruct Hstored as (v & Hv & Hd). congruence.
  - intros c v Hcv.
    destruct (importKeys_entries_lookup keysObject entries w c Hperm) as (-> & _).
    specialize (Hstored c). destruct (list_to_map _ !! c) as [bs|]; [|now left].
    destruct Hstored as (v' & Hv' & Hd). right. exists bs. split; congruence.
  - intros c Hnone.
    destruct (importKeys_entries_lookup keysObject entries w c Hperm) as (-> & _).
    specialize (Hstored c). destruct (list_to_map _ !! c); [|reflexivity].
    destruct Hstored as (v & Hv & _). congruence.
Qed.

End VaultMore.

Lemma import_merges_into_vault_witness :
  let keysObject : gmap string jsstring := {[ "a__b"%string := lit "AQID" ]} in
  let w := (storeKey "c__d"%string [Byte.x07]
              (storeKey "a__b"%string [Byte.x09] Toy.empty_world).2).2 in
  (importKeys keysObject w).1 = Ok tt /\
  vault_keys (importKeys keysObject w).2 !! "a__b"%string
  = Some [Byte.x01; Byte.x02; Byte.x03] /\
  vault_keys (importKeys keysObject w).2 !! "c__d"%string = Some [Byte.x07].
Proof.
  intros keysObject w. rewrite importKeys_eq.
  destruct (import_merges_into_vault keysObject (map_to_list keysObject) w)
    as (Hok & Hin & Hout).
  - reflexivity.
  - intros c v Hcv. apply lookup_singleton_Some in Hcv as [<- <-].
    eexists. vm_compute. reflexivity.
  - split; [exact Hok|]. split.
    + apply (Hin _ (lit "AQID")); vm_compute; reflexivity.
    + rewrite Hout; vm_compute; reflexivity.
Defined.

Lemma import_rejects_malformed_witness :
  let keysObject : gmap string jsstring := {[ "a__b"%string := lit "A" ]} in
  let w := (storeKey "a__b"%string [Byte.x09] Toy.empty_world).2 in
  (importKeys keysObject w).1 = Err InvalidCharacterError /\
  vault_keys (importKeys keysObject w).2 !! "a__b"%string = Some [Byte.x09].
Proof.
  intros keysObject w. rewrite importKeys_eq.
  destruct (import_rejects_malformed keysObject (map_to_list keysObject) w
              "a__b"%string (lit "A") InvalidCharacterError)
    as (Herr & Hsame & _).
  - reflexivity.
  - vm_compute. reflexivity.
  - vm_compute. reflexivity.
  - split; [exact Herr|]. rewrite Hsame. vm_compute. reflexivity.
Defined.

Section VaultLaws.

(** X11: the operations of the vault compose as those of a map keyed by
    the conversation: a key that was stored is the one read back, it
    replaces the key stored before, storing or deleting the key of one
    conversation does not change what is read for another, a deleted key
    is no longer held, and after [clearAllKeys] no conversation is
    listed. The ids that [getAllChatIds] lists are, without repetition,
    exactly those for which [hasKey] answers true. *)
Theorem vault_laws (w : World) (chatId other : string) (keyBytes older : list byte) :
  (storeKey chatId keyBytes;; getKey chatId) w
  = (Ok (Some keyBytes), (storeKey chatId keyBytes w).2) /\
  vault_keys ((storeKey chatId older;; storeKey chatId keyBytes) w).2
  = vault_keys (storeKey chatId keyBytes w).2 /\
  (other <> chatId ->
   ((storeKey chatId keyBytes;; getKey other) w).1 = (getKey other w).1 /\
   ((deleteKey chatId;; getKey other) w).1 = (getKey other w).1) /\
  ((deleteKey chatId;; hasKey chatId) w).1 = Ok false /\
  ((storeKey chatId keyBytes;; hasKey chatId) w).1 = Ok true /\
  ((clearAllKeys;; getAllChatIds) w).1 = Ok [] /\
  exists ids,
    getAllChatIds w = (Ok ids, w) /\
    NoDup ids /\
    forall c, c ∈ ids <-> hasKey c w = (Ok true, w).
Proof.
  unfold storeKey, getKey, hasKey, deleteKey, clearAllKeys, getAllChatIds. run_M. cbn.
  split; [now rewrite lookup_insert_eq|].
  split; [unfold vault_keys; cbn; now rewrite !fmap_insert, insert_insert_eq|].
  split; [intros Hne; split; [now rewrite lookup_insert_ne|now rewrite lookup_delete_ne]|].
  split; [now rewrite lookup_delete_eq|].
  split; [now rewrite lookup_insert_eq|].
  split; [reflexivity|].
  eexists. split; [reflexivity|]. split; [apply NoDup_fst_map_to_list|].
  intros c. rewrite list_elem_of_fmap. split.
  - intros ([c' r] & -> & Hin). apply elem_of_map_to_list in Hin. cbn. now rewrite Hin.
  - destruct (vault w !! c) as [r|] eqn:Hv; cbn.
    + intros _. exists (c, r). split; [reflexivity|]. now apply elem_of_map_to_list.
    + discriminate.
Qed.

End VaultLaws.


(** ** Messages: what the subscription delivers *)

Section MessagesMore.
Context {P : Platform}.

Lemma with_id_lookup (d : DocSnap) (f : string) (v : jsval) :
  data d !! f = Some v -> with_id d !! f = Some v.
Proof. intros H. unfold with_id. now apply lookup_union_Some_l. Qed.

(** X12: a message whose encrypted text decrypts is delivered with the
    decrypted text in its [text] field, which replaces what the document
    stores there, and with [encrypted] set; its other fields are
    delivered as stored. *)
Theorem decrypted_message_delivered (k : CryptoKey) (docs : list DocSnap) (i : nat)
    (d : DocSnap) (decryptedText : jsstring) :
  docs !! i = Some d ->
  truthy_val (data d !! "encryptedText"%string) = true ->
  truthy_val (data d !! "textIv"%string) = true ->
  decryptText (to_string (data d !! "encryptedText"%string))
              (to_string (data d !! "textIv"%string)) k = Ok decryptedText ->
  exists ms,
    deliver (Ok k) docs = onMessages ms /\
    ms !! i = Some (decrypt_doc k d) /\
    decrypt_doc k d !! "text"%string = Some (VStr decryptedText) /\
    decrypt_doc k d !! "encrypted"%string = Some (VBool true) /\
    decrypt_doc k d !! "decryptionError"%string = data d !! "decryptionError"%string /\
    (forall f v, f <> "text"%string -> f <> "encrypted"%string ->
                 data d !! f = Some v -> decrypt_doc k d !! f = Some v).
Proof.
  intros Hi Hct Hiv Hdec.
  destruct (deliver_lookup k docs i d Hi) as (ms & Hms & _ & Hmi).
  exists ms. split; [exact Hms|]. split; [exact Hmi|].
  unfold decrypt_doc. rewrite Hct, Hiv, Hdec. cbn [andb].
  split; [now rewrite lookup_insert_ne, lookup_insert_eq|].
  split; [now rewrite lookup_insert_eq|]. split.
  - rewrite !lookup_insert_ne by discriminate. unfold with_id.
    rewrite lookup_union, lookup_singleton_ne by discriminate.
    now destruct (data d !! "decryptionError"%string).
  - intros f v Hf1 Hf2 Hv. rewrite !lookup_insert_ne by congruence.
    now apply with_id_lookup.
Qed.

(** X13: the [id] of a delivered message is the [id] field of the
    stored document if it has one, and the id of the document otherwise:
    the stored fields are spread over the id. This holds for decrypted
    messages, placeholders and messages stored in the clear alike. *)
Theorem delivered_id (k : CryptoKey) (d : DocSnap) :
  decrypt_doc k d !! "id"%string
  = Some (default (VStr (docId d)) (data d !! "id"%string)).
Proof.
  assert (with_id d !! "id"%string
          = Some (default (VStr (docId d)) (data d !! "id"%string))) as Hid.
  { unfold with_id. rewrite lookup_union, lookup_singleton_eq.
    now destruct (data d !! "id"%string). }
  unfold decrypt_doc. destruct (_ && _).
  - destruct (decryptText _ _ k); now rewrite !lookup_insert_ne by discriminate.
  - now rewrite lookup_insert_ne by discriminate.
Qed.

End MessagesMore.

Lemma decrypted_message_delivered_witness :
  exists ms,
    deliver (P := Toy.platform) (Ok (Toy.key_of Byte.x01))
      [Toy.clear_message; Examples.encrypted_message] = onMessages ms /\
    ms !! 1%nat
    = Some (decrypt_doc (P := Toy.platform) (Toy.key_of Byte.x01)
              Examples.encrypted_message) /\
    decrypt_doc (P := Toy.platform) (Toy.key_of Byte.x01) Examples.encrypted_message
      !! "text"%string = Some (VStr (lit "hi")) /\
    data Examples.encrypted_message !! "text"%string = Some (VStr []).
Proof.
  destruct (decrypted_message_delivered (P := Toy.platform) (Toy.key_of Byte.x01)
              [Toy.clear_message; Examples.encrypted_message] 1
              Examples.encrypted_message (lit "hi") eq_refl eq_refl eq_refl)
    as (ms & Hms & Hi & Htext & _).
  - vm_compute. reflexivity.
  - exists ms. repeat split; try assumption.
Defined.

(** ** Sending a message *)

Section TrimFacts.

Lemma white_space_not_surrogate (c : N) :
  is_white_space c = true ->
  Utf.is_high_surrogate c = false /\ Utf.is_low_surrogate c = false /\ c < 0x10000.
Proof.
  unfold is_white_space, Utf.is_high_surrogate, Utf.is_low_surrogate. intros H.
  repeat (apply orb_true_iff in H as [H|H]);
    try (apply andb_true_iff in H as [H1 H2]; apply N.leb_le in H1, H2);
    try apply N.eqb_eq in H;
    (split; [|split]); try lia;
    apply andb_false_iff; rewrite !N.leb_gt; lia.
Qed.

Lemma trim_start_split (s : jsstring) :
  exists ws, s = ws ++ trim_start s /\ Forall (fun c => is_white_space c = true) ws.
Proof.
  induction s as [|c s IH]; [exists []; auto|]. cbn.
  destruct (is_white_space c) eqn:Hc.
  - destruct IH as (ws & Hs & Hws). exists (c :: ws). split; [cbn; congruence|].
    now constructor.
  - exists []. auto.
Qed.

Lemma trim_start_head (s : jsstring) (c : N) (r : jsstring) :
  trim_start s = c :: r -> is_white_space c = false.
Proof.
  induction s as [|a s IH]; [discriminate|]. cbn.
  destruct (is_white_space a) eqn:Ha; [exact IH|]. now intros [= <- _].
Qed.

Lemma trim_start_white (s : jsstring) :
  Forall (fun c => is_white_space c = true) s -> trim_start s = [].
Proof.
  induction 1 as [|c s Hc _ IH]; [reflexivity|]. cbn. now rewrite Hc.
Qed.

Lemma trim_end_split (s : jsstring) :
  exists ws, s = trim_end s ++ ws /\ Forall (fun c => is_white_space c = true) ws.
Proof.
  unfold trim_end. destruct (trim_start_split (rev s)) as (ws & Hs & Hws).
  exists (rev ws). split.
  - rewrite <- rev_app_distr, <- Hs. now rewrite rev_involutive.
  - apply Forall_forall. intros c Hc. rewrite Forall_forall in Hws. apply Hws.
    apply list_elem_of_In. apply list_elem_of_In in Hc. now apply in_rev.
Qed.

Lemma trim_white (s : jsstring) :
  Forall (fun c => is_white_space c = true) s -> trim s = [].
Proof. intros H. unfold trim. now rewrite (trim_start_white s H). Qed.

Lemma well_formed_cons_white (c : N) (s : jsstring) :
  is_white_space c = true -> Utf.well_formed (c :: s) = Utf.well_formed s.
Proof.
  intros Hc. destruct (white_space_not_surrogate c Hc) as (Hh & Hl & Hlt).
  cbn. rewrite Hh, Hl. apply N.ltb_lt in Hlt. now rewrite Hlt.
Qed.

Lemma well_formed_snoc_white (s : jsstring) (c : N) :
  is_white_space c = true -> Utf.well_formed (s ++ [c]) = true -> Utf.well_formed s = true.
Proof.
  intros Hc. destruct (white_space_not_surrogate c Hc) as (Hh & Hl & Hlt).
  assert (forall n s, (length s <= n)%nat ->
            Utf.well_formed (s ++ [c]) = true -> Utf.well_formed s = true) as H.
  { clear s. induction n as [|n IH]; intros s Hn.
    - destruct s; [reflexivity|cbn in Hn; lia].
    - destruct s as [|u [|v r]]; [reflexivity| |].
      + cbn [app Utf.well_formed]. destruct (Utf.is_high_surrogate u).
        * rewrite Hl. discriminate.
        * intros H. apply andb_true_iff in H as [-> _]. reflexivity.
      + cbn [app Utf.well_formed]. destruct (Utf.is_high_surrogate u).
        * intros H. apply andb_true_iff in H as [-> H]. cbn [andb].
          apply (IH r); [cbn in Hn; lia|exact H].
        * intros H. apply andb_true_iff in H as [-> H]. cbn [andb].
          apply (IH (v :: r)); [cbn in Hn |- *; lia|exact H]. }
  apply (H (length s)). lia.
Qed.

Lemma well_formed_trim (s : jsstring) :
  Utf.well_formed s = true -> Utf.well_formed (trim s) = true.
Proof.
  intros Hs. unfold trim.
  assert (Utf.well_formed (trim_start s) = true) as Hstart.
  { destruct (trim_start_split s) as (ws & Heq & Hws). rewrite Heq in Hs.
    clear Heq. induction Hws as [|c ws Hc _ IH]; [exact Hs|].
    apply IH. cbn [app] in Hs. now rewrite well_formed_cons_white in Hs. }
  destruct (trim_end_split (trim_start s)) as (ws & Heq & Hws).
  rewrite Heq in Hstart. clear Heq. revert Hstart.
  generalize (trim_end (trim_start s)). intros t.
  induction ws as [|c ws IH] using rev_ind; [now rewrite app_nil_r|].
  rewrite app_assoc. intros H. apply Forall_app in Hws as [Hws Hc].
  apply IH; [exact Hws|]. apply (well_formed_snoc_white _ c); [|exact H].
  now inversion Hc.
Qed.

Lemma trim_no_bom (s : jsstring) : Utf.starts_with_bom (trim s) = false.
Proof.
  unfold trim. destruct (trim_end_split (trim_start s)) as (ws & Heq & _).
  destruct (trim_end (trim_start s)) as [|c r] eqn:Ht; [reflexivity|].
  cbn [app] in Heq. apply trim_start_head in Heq.
  unfold Utf.starts_with_bom. destruct (N.eq_dec c 0xFEFF) as [->|Hne].
  - discriminate.
  - destruct c as [|p]; [reflexivity|].
    do 16 (try (destruct p as [p|p|]; try reflexivity)).
    now contradict Hne.
Qed.

End TrimFacts.

Section SendFacts.
Context {P : Platform}.

(** The update of the preview does not fail as a whole and touches
    neither the device nor the messages. *)
Lemma update_preview_caught (chatId : string) (trimmed : jsstring) (user : User) (s : Store) :
  exists previews',
    try_catch_S (update_preview chatId trimmed user) (fun _ => mret tt) s
    = (Ok tt, {| device := device s; messages := messages s; previews := previews' |}).
Proof.
  unfold try_catch_S, update_preview. unfold mbind at 1, StoreM_bind at 1. cbn [get_store].
  destruct (chats (device s) !! chatId) as [chatData|];
    [|exists (previews s); now destruct s].
  unfold mbind, StoreM_bind.
  destruct (unreadCount _) as [counts|].
  - cbn. eexists. reflexivity.
  - unfold on_device, lift. destruct (initial_counts _) as [counts|e].
    + cbn. eexists. reflexivity.
    + cbn. exists (previews s). now destruct s.
Qed.

Lemma send_encrypted_eq (chatId : string) (trimmed : jsstring) (user : User)
    (k : CryptoKey) (s : Store) :
  let nonce := map (entropy (device s)) (seq (drawn (device s)) 12) in
  let enc := {| ciphertext := Base64.encode (subtle_encrypt nonce k (Utf.encode trimmed));
                iv := Base64.encode nonce |} in
  let w2 := set_drawn (drawn (device s) + 12) (device s) in
  send_encrypted chatId trimmed user k s =
  try_catch_S (update_preview chatId trimmed user) (fun _ => mret tt)
    {| device := w2;
       messages := <[chatId := default [] (messages s !! chatId)
                                 ++ [message_fields user enc w2]]> (messages s);
       previews := previews s |}.
Proof.
  intros nonce enc w2. unfold send_encrypted.
  unfold mbind at 1, StoreM_bind at 1. unfold on_device at 1.
  rewrite encryptText_eq. cbn zeta.
  unfold mbind at 1, StoreM_bind at 1. cbn [get_store].
  unfold mbind at 1, StoreM_bind at 1. unfold addDoc_message. cbn [device messages previews].
  reflexivity.
Qed.

(** The document that [send_encrypted] adds decrypts to the text. *)
Lemma send_encrypted_round_trip (chatId : string) (text : jsstring) (user : User)
    (k : CryptoKey) (s : Store) :
  AesGcmCorrect P -> AesGcmNonEmpty ->
  Utf.well_formed text = true ->
  exists s' m,
    send_encrypted chatId (trim text) user k s = (Ok tt, s') /\
    messages s' !! chatId = Some (default [] (messages s !! chatId) ++ [m]) /\
    (forall c, c <> chatId -> messages s' !! c = messages s !! c) /\
    m !! "text"%string = Some (VStr []) /\
    (forall docId,
       decrypt_doc k {| docId := docId; data := m |} !! "text"%string
       = Some (VStr (trim text)) /\
       decrypt_doc k {| docId := docId; data := m |} !! "encrypted"%string
       = Some (VBool true)) /\
    chats (device s') = chats (device s).
Proof.
  intros Haes Hne Hwf.
  rewrite send_encrypted_eq. cbn zeta.
  set (nonce := map (entropy (device s)) (seq (drawn (device s)) 12)).
  set (enc := {| ciphertext := _; iv := _ |}).
  set (s2 := {| device := _; messages := _; previews := _ |}).
  destruct (update_preview_caught chatId (trim text) user s2) as [previews' ->].
  eexists. exists (message_fields user enc (device s2)).
  split; [reflexivity|]. cbn [messages s2].
  split; [apply lookup_insert_eq|].
  split; [intros c Hc; now rewrite lookup_insert_ne|].
  split; [reflexivity|]. split; [|reflexivity]. intros docId.
  assert (length nonce = 12%nat) as Hlen by (unfold nonce; now rewrite length_map, length_seq).
  assert (decrypt_doc k {| docId := docId; data := message_fields user enc (device s2) |}
          = <["encrypted"%string := VBool true]>
              (<["text"%string := VStr (trim text)]>
                 (with_id {| docId := docId;
                             data := message_fields user enc (device s2) |}))) as ->.
  { unfold decrypt_doc. cbn [data].
    assert (message_fields user enc (device s2) !! "encryptedText"%string
            = Some (VStr (ciphertext enc))) as -> by reflexivity.
    assert (message_fields user enc (device s2) !! "textIv"%string
            = Some (VStr (iv enc))) as -> by reflexivity.
    cbn [truthy_val to_string]. unfold enc. cbn [ciphertext iv].
    rewrite !encode_nonempty.
    - cbn [andb]. rewrite decryptText_encoded. unfold subtle_decrypt, subtle_encrypt.
      rewrite (Haes _ _ _ Hlen). cbn.
      rewrite UtfFacts.decode_encode; [reflexivity| |apply trim_no_bom].
      now apply well_formed_trim.
    - intros H. now rewrite H in Hlen.
    - apply Hne, Hlen. }
  split; [now rewrite lookup_insert_ne, lookup_insert_eq|now rewrite lookup_insert_eq].
Qed.

Lemma with_runtime_tab_runtime (t : Tab) : with_runtime (tab_runtime t) t = t.
Proof. now destruct t as [[] ? ? ?]. Qed.

Lemma sendChatMessage_eq (chatId : string) (text : jsstring) (user : User) (t : Tab)
    (r : result CryptoKey) (rt1 : Runtime) :
  trim text <> [] ->
  await_getChatKey chatId (email user) (tab_runtime t) = Some (r, rt1) ->
  sendChatMessage chatId text user t
  = Some (match r with
          | Ok k => in_store (send_encrypted chatId (trim text) user k) (with_runtime rt1 t)
          | Err e => (Err e, with_runtime rt1 t)
          end).
Proof.
  intros Hne Hrun. unfold sendChatMessage.
  destruct (trim text) as [|c rest] eqn:Ht; [congruence|]. cbn [truthy negb].
  now rewrite Hrun.
Qed.

(** The message that [sendChatMessage] adds decrypts to the trimmed
    text under the key that [getChatKey] yielded. *)
Lemma sendChatMessage_round_trip (chatId : string) (text : jsstring) (user : User)
    (t : Tab) (k : CryptoKey) (rt1 : Runtime) :
  AesGcmCorrect P -> AesGcmNonEmpty ->
  Utf.well_formed text = true ->
  trim text <> [] ->
  await_getChatKey chatId (email user) (tab_runtime t) = Some (Ok k, rt1) ->
  exists t' m,
    sendChatMessage chatId text user t = Some (Ok tt, t') /\
    messages (store t') !! chatId
    = Some (default [] (messages (store t) !! chatId) ++ [m]) /\
    (forall c, c <> chatId -> messages (store t') !! c = messages (store t) !! c) /\
    m !! "text"%string = Some (VStr []) /\
    (forall docId,
       decrypt_doc k {| docId := docId; data := m |} !! "text"%string
       = Some (VStr (trim text)) /\
       decrypt_doc k {| docId := docId; data := m |} !! "encrypted"%string
       = Some (VBool true)) /\
    chats (device (store t')) = chats (world rt1) /\
    keyCache t' = keyCachePromises rt1 /\
    keyPromises t' = promises rt1 /\
    keyTimers t' = timers rt1.
Proof.
  intros Haes Hne Hwf Htrim Hrun.
  rewrite (sendChatMessage_eq _ _ _ _ _ _ Htrim Hrun). unfold in_store.
  destruct (send_encrypted_round_trip chatId text user k (store (with_runtime rt1 t))
              Haes Hne Hwf) as (s' & m & -> & Hm & Hothers & Htext & Hread & Hchats).
  eexists. exists m. split; [reflexivity|]. cbn [store keyCache keyPromises keyTimers].
  cbn [with_runtime store messages device] in Hm, Hothers, Hchats. auto 10.
Qed.

(** X14: a message that is sent is read back. For a text that is well
    formed and not blank, when [getChatKey] yields a key, be it from the
    promise of the map or from a resolution that the call begins,
    [sendChatMessage] appends one document to the messages of the
    conversation, whose [text] field is empty; the subscription of a
    holder of that key delivers the document with the trimmed text,
    whatever id the document was given. The other conversations get no
    message, and the key manager is left as [getChatKey] left it. *)
Theorem sent_message_round_trip (chatId : string) (text : jsstring) (user : User)
    (t : Tab) (k : CryptoKey) (rt1 : Runtime) :
  AesGcmCorrect P -> AesGcmNonEmpty ->
  Utf.well_formed text = true ->
  trim text <> [] ->
  await_getChatKey chatId (email user) (tab_runtime t) = Some (Ok k, rt1) ->
  exists t' m,
    sendChatMessage chatId text user t = Some (Ok tt, t') /\
    messages (store t') !! chatId
    = Some (default [] (messages (store t) !! chatId) ++ [m]) /\
    (forall c, c <> chatId -> messages (store t') !! c = messages (store t) !! c) /\
    m !! "text"%string = Some (VStr []) /\
    (forall docId,
       decrypt_doc k {| docId := docId; data := m |} !! "text"%string
       = Some (VStr (trim text)) /\
       decrypt_doc k {| docId := docId; data := m |} !! "encrypted"%string
       = Some (VBool true)) /\
    chats (device (store t')) = chats (world rt1) /\
    keyCache t' = keyCachePromises rt1 /\
    keyPromises t' = promises rt1 /\
    keyTimers t' = timers rt1.
Proof. apply sendChatMessage_round_trip. Qed.

(** X15: when nothing is sent. A text of white space only is not sent:
    [getChatKey] is not called, nothing is encrypted or written. For any
    other text, when the promise of [getChatKey] rejects, the call
    rejects with the same error, no message is written and the preview is
    left as it is. This is so in particular while the map holds a
    rejected promise for the conversation: the call then fails without
    the document being read, and changes nothing at all. *)
Theorem nothing_is_sent (chatId : string) (text : jsstring) (user : User) (t : Tab) :
  (Forall (fun c => is_white_space c = true) text ->
   sendChatMessage chatId text user t = Some (Ok tt, t)) /\
  (forall e rt1,
     trim text <> [] ->
     await_getChatKey chatId (email user) (tab_runtime t) = Some (Err e, rt1) ->
     exists t',
       sendChatMessage chatId text user t = Some (Err e, t') /\
       messages (store t') = messages (store t) /\
       previews (store t') = previews (store t) /\
       tab_runtime t' = rt1) /\
  (forall p c e,
     trim text <> [] ->
     keyCache t !! chatId = Some p ->
     keyPromises t !! p = Some (Settled c (Err e)) ->
     sendChatMessage chatId text user t = Some (Err e, t)).
Proof.
  split; [|split].
  - intros Hws. unfold sendChatMessage. now rewrite (trim_white text Hws).
  - intros e rt1 Htrim Hrun. rewrite (sendChatMessage_eq _ _ _ _ _ _ Htrim Hrun).
    eexists. split; [reflexivity|]. split; [reflexivity|]. split; [reflexivity|].
    now destruct rt1.
  - intros p c e Htrim Hp Hs.
    rewrite (sendChatMessage_eq _ _ _ _ (Err e) (tab_runtime t) Htrim).
    + now rewrite with_runtime_tab_runtime.
    + now apply (await_getChatKey_settled _ _ _ p c).
Qed.

Lemma initial_counts_zero (emails : list string) (counts : gmap string N) (c : string) :
  default 0 (counts !! c) = 0 ->
  default 0 (foldl (fun counts p => <[toLowerCase p := 0]> counts) counts emails !! c) = 0.
Proof.
  revert counts. induction emails as [|p rest IH]; intros counts Hc; [exact Hc|].
  cbn [foldl]. apply IH. destruct (decide (toLowerCase p = c)) as [->|Hne].
  - now rewrite lookup_insert_eq.
  - now rewrite lookup_insert_ne.
Qed.

(** The preview that [send_encrypted] leaves in the conversation
    document. *)
Lemma send_encrypted_preview (chatId : string) (trimmed : jsstring) (user : User)
    (k : CryptoKey) (s : Store) (chatData : ChatDoc) (emails : list string)
    (other : string) :
  chats (device s) !! chatId = Some chatData ->
  participants chatData = Some emails ->
  List.find (fun p => bool_decide (Some (toLowerCase p) <> lowered_email user)) emails
  = Some other ->
  toLowerCase other <> EmptyString ->
  let before := default ∅ (unreadCount (default no_preview (previews s !! chatId))) in
  exists s' p counts,
    send_encrypted chatId trimmed user k s = (Ok tt, s') /\
    previews s' !! chatId = Some p /\
    lastMessage p = Some trimmed /\
    lastSender p = Some (default EmptyString (lowered_email user)) /\
    unreadCount p = Some counts /\
    counts !! toLowerCase other = Some (default 0 (before !! toLowerCase other) + 1) /\
    (forall c, c <> toLowerCase other ->
               default 0 (counts !! c) = default 0 (before !! c)) /\
    (forall c, c <> chatId -> previews s' !! c = previews s !! c) /\
    chats (device s') = chats (device s).
Proof.
  intros Hdoc Hps Hfind Hother before.
  set (stored0 := unreadCount (default no_preview (previews s !! chatId))) in *.
  rewrite send_encrypted_eq. cbn zeta.
  assert (truthy_id (Some (toLowerCase other)) = true) as Hid
    by (destruct (toLowerCase other); [congruence|reflexivity]).
  unfold try_catch_S, update_preview.
  unfold mbind at 1, StoreM_bind at 1. cbn [get_store device previews].
  fold stored0.
  assert (chats (set_drawn (drawn (device s) + 12) (device s)) !! chatId = Some chatData)
    as -> by exact Hdoc.
  rewrite Hps. cbn [mbind option_bind]. rewrite Hfind. cbn [fmap option_fmap option_map].
  rewrite Hid. cbn [default from_option]. unfold id.
  destruct stored0 as [stored|].
  - unfold mbind, StoreM_bind, mret, StoreM_ret, updateDoc_preview. cbn [device messages previews].
    eexists. eexists. eexists. split; [reflexivity|]. cbn [previews device].
    split; [apply lookup_insert_eq|]. cbn [lastMessage lastSender unreadCount].
    split; [reflexivity|]. split; [reflexivity|]. split; [reflexivity|].
    split; [apply lookup_insert_eq|].
    split; [intros c Hc; now rewrite lookup_insert_ne|].
    split; [|reflexivity].
    intros c Hc. now rewrite lookup_insert_ne.
  - unfold mbind, StoreM_bind, on_device, lift, initial_counts, updateDoc_preview.
    cbn [device messages previews].
    eexists. eexists. eexists. split; [reflexivity|]. cbn [previews device].
    split; [apply lookup_insert_eq|]. cbn [lastMessage lastSender unreadCount].
    split; [reflexivity|]. split; [reflexivity|]. split; [reflexivity|].
    split; [|split; [|split; [|reflexivity]]].
    + rewrite lookup_insert_eq. unfold before. cbn. now rewrite initial_counts_zero.
    + intros c Hc. rewrite lookup_insert_ne by congruence.
      unfold before. cbn. now apply initial_counts_zero.
    + intros c Hc. now rewrite lookup_insert_ne.
Qed.

(** A resolution that is awaited leaves the participants of every
    conversation as they are. *)
Lemma await_getChatKey_participants (chatId : string) (myEmail : option string)
    (rt rt1 : Runtime) (r : result CryptoKey) (conversation : string) (d : ChatDoc) :
  await_getChatKey chatId myEmail rt = Some (r, rt1) ->
  chats (world rt) !! conversation = Some d ->
  exists d', chats (world rt1) !! conversation = Some d' /\
             participants d' = participants d.
Proof.
  intros Hrun Hd. apply await_getChatKey_inv in Hrun as [->|(c & first & Hkey & _)]; [eauto|].
  pose proof (keyPromise_respects c first (world rt)) as Hframe.
  rewrite Hkey in Hframe. cbn [snd] in Hframe.
  destruct Hframe as (_ & _ & _ & _ & _ & Hothers & _ & Hdoc).
  destruct (decide (conversation = c)) as [->|Hne].
  - rewrite Hd in Hdoc. destruct Hdoc as (d' & Hd' & Hps & _). eauto.
  - rewrite Hothers by exact Hne. eauto.
Qed.

(** The preview that a message leaves in the conversation document. *)
Lemma sendChatMessage_preview (chatId : string) (text : jsstring) (user : User)
    (t : Tab) (k : CryptoKey) (rt1 : Runtime) (chatData : ChatDoc)
    (emails : list string) (other : string) :
  trim text <> [] ->
  await_getChatKey chatId (email user) (tab_runtime t) = Some (Ok k, rt1) ->
  chats (device (store t)) !! chatId = Some chatData ->
  participants chatData = Some emails ->
  List.find (fun p => bool_decide (Some (toLowerCase p) <> lowered_email user)) emails
  = Some other ->
  toLowerCase other <> EmptyString ->
  let before :=
    default ∅ (unreadCount (default no_preview (previews (store t) !! chatId))) in
  exists t' p counts,
    sendChatMessage chatId text user t = Some (Ok tt, t') /\
    previews (store t') !! chatId = Some p /\
    lastMessage p = Some (trim text) /\
    lastSender p = Some (default EmptyString (lowered_email user)) /\
    unreadCount p = Some counts /\
    counts !! toLowerCase other = Some (default 0 (before !! toLowerCase other) + 1) /\
    (forall c, c <> toLowerCase other ->
               default 0 (counts !! c) = default 0 (before !! c)) /\
    (forall c, c <> chatId -> previews (store t') !! c = previews (store t) !! c) /\
    chats (device (store t')) = chats (world rt1).
Proof.
  intros Htrim Hrun Hdoc Hps Hfind Hother before.
  destruct (await_getChatKey_participants _ _ _ _ _ chatId chatData Hrun Hdoc)
    as (d' & Hdoc' & Hps').
  rewrite Hps in Hps'.
  rewrite (sendChatMessage_eq _ _ _ _ _ _ Htrim Hrun). unfold in_store.
  destruct (send_encrypted_preview chatId (trim text) user k (store (with_runtime rt1 t))
              d' emails other Hdoc' Hps' Hfind Hother)
    as (s' & p & counts & -> & Hp & Hlast & Hsender & Hcounts & Hplus & Hsame & Hrest & Hch).
  eexists. exists p, counts. split; [reflexivity|]. cbn [store].
  cbn [with_runtime store previews device] in Hplus, Hsame, Hrest, Hch. auto 10.
Qed.

(** X16: the preview of a message that was sent. When [getChatKey]
    yields a key, the trimmed text is written in the clear into
    [lastMessage] of the conversation document, with the sender in
    [lastSender]; the unread count of the first participant who is not
    the sender goes up by one, counted from zero if the document has no
    counts yet, and the counts of the others are as before. *)
Theorem preview_shows_plaintext (chatId : string) (text : jsstring) (user : User)
    (t : Tab) (k : CryptoKey) (rt1 : Runtime) (chatData : ChatDoc)
    (emails : list string) (other : string) :
  trim text <> [] ->
  await_getChatKey chatId (email user) (tab_runtime t) = Some (Ok k, rt1) ->
  chats (device (store t)) !! chatId = Some chatData ->
  participants chatData = Some emails ->
  List.find (fun p => bool_decide (Some (toLowerCase p) <> lowered_email user)) emails
  = Some other ->
  toLowerCase other <> EmptyString ->
  let before :=
    default ∅ (unreadCount (default no_preview (previews (store t) !! chatId))) in
  exists t' p counts,
    sendChatMessage chatId text user t = Some (Ok tt, t') /\
    previews (store t') !! chatId = Some p /\
    lastMessage p = Some (trim text) /\
    lastSender p = Some (default EmptyString (lowered_email user)) /\
    unreadCount p = Some counts /\
    counts !! toLowerCase other = Some (default 0 (before !! toLowerCase other) + 1) /\
    (forall c, c <> toLowerCase other ->
               default 0 (counts !! c) = default 0 (before !! c)) /\
    (forall c, c <> chatId -> previews (store t') !! c = previews (store t) !! c) /\
    chats (device (store t')) = chats (world rt1).
Proof. apply sendChatMessage_preview. Qed.

End SendFacts.

Lemma toy_aes_gcm_nonempty : AesGcmNonEmpty (P := Toy.platform).
Proof.
  intros k nonce data Hlen H. cbn in H. unfold Toy.seal in H.
  apply (f_equal length) in H. rewrite !length_app in H. cbn in H. lia.
Defined.

Lemma sent_message_round_trip_witness :
  let w := Toy.world_of Toy.plain_doc None in
  let t := SendExamples.tab_of w in
  exists t' m,
    sendChatMessage (P := Toy.platform) Toy.conversation (lit " hi ")
      SendExamples.alice_user t = Some (Ok tt, t') /\
    messages (store t') !! Toy.conversation = Some [m] /\
    m !! "text"%string = Some (VStr []) /\
    decrypt_doc (P := Toy.platform) {| raw := next_key w |}
      {| docId := lit "m1"; data := m |} !! "text"%string = Some (VStr (lit "hi")).
Proof.
  intros w t.
  destruct (sent_message_round_trip (P := Toy.platform) Toy.conversation (lit " hi ")
              SendExamples.alice_user t {| raw := next_key w |}
              (default (Err ChatNotFound, start w)
                 (await_getChatKey (P := Toy.platform) Toy.conversation
                    (Some "Alice@x.org"%string) (start w))).2
              ToyFacts.aes_gcm_correct toy_aes_gcm_nonempty eq_refl)
    as (t' & m & Hsend & Hm & _ & Htext & Hread & _).
  - discriminate.
  - vm_compute. reflexivity.
  - exists t', m. split; [exact Hsend|]. split; [exact Hm|]. split; [exact Htext|].
    exact (proj1 (Hread (lit "m1"))).
Defined.

Lemma nothing_is_sent_witness :
  let t := SendExamples.tab_of Toy.empty_world in
  let rejected :=
    {| store := SendExamples.store_of (Toy.world_of Toy.plain_doc None);
       keyCache := {[ Toy.conversation := 0%nat ]};
       keyPromises := [Settled Toy.conversation (Err ChatNotFound)];
       keyTimers := [{| due := 1000; timer_chat := Toy.conversation |}] |} in
  sendChatMessage (P := Toy.platform) Toy.conversation [0x20; 0x09; 0x3000; 0xFEFF; 0x0A]
    SendExamples.alice_user t = Some (Ok tt, t) /\
  (exists t',
     sendChatMessage (P := Toy.platform) Toy.conversation (lit " hi ")
       SendExamples.alice_user t = Some (Err ChatNotFound, t') /\
     messages (store t') = ∅) /\
  sendChatMessage (P := Toy.platform) Toy.conversation (lit " hi ")
    SendExamples.alice_user rejected = Some (Err ChatNotFound, rejected).
Proof.
  intros t rejected. split; [|split].
  - apply (proj1 (nothing_is_sent (P := Toy.platform) Toy.conversation _
                    SendExamples.alice_user t)).
    repeat constructor.
  - destruct (proj1 (proj2 (nothing_is_sent (P := Toy.platform) Toy.conversation (lit " hi ")
                              SendExamples.alice_user t))
                ChatNotFound
                (default (Err ChatNotFound, start Toy.empty_world)
                   (await_getChatKey (P := Toy.platform) Toy.conversation
                      (Some "Alice@x.org"%string) (start Toy.empty_world))).2)
      as (t' & Hsend & Hm & _).
    + discriminate.
    + vm_compute. reflexivity.
    + exists t'. split; [exact Hsend|exact Hm].
  - apply (proj2 (proj2 (nothing_is_sent (P := Toy.platform) Toy.conversation (lit " hi ")
                           SendExamples.alice_user rejected))
             0%nat Toy.conversation ChatNotFound).
    + discriminate.
    + reflexivity.
    + reflexivity.
Defined.

Lemma preview_shows_plaintext_witness :
  let w := Toy.world_of Toy.plain_doc None in
  let t := SendExamples.tab_of w in
  exists t' p counts,
    sendChatMessage (P := Toy.platform) Toy.conversation (lit " hi ")
      SendExamples.alice_user t = Some (Ok tt, t') /\
    previews (store t') !! Toy.conversation = Some p /\
    lastMessage p = Some (lit "hi") /\
    lastSender p = Some Toy.alice /\
    unreadCount p = Some counts /\
    counts !! Toy.bob = Some 1.
Proof.
  intros w t.
  destruct (preview_shows_plaintext (P := Toy.platform) Toy.conversation (lit " hi ")
              SendExamples.alice_user t {| raw := next_key w |}
              (default (Err ChatNotFound, start w)
                 (await_getChatKey (P := Toy.platform) Toy.conversation
                    (Some "Alice@x.org"%string) (start w))).2
              Toy.plain_doc [Toy.alice; Toy.bob] Toy.bob)
    as (t' & p & counts & Hsend & Hp & Hlast & Hsender & Hcounts & Hbob & _).
  - discriminate.
  - vm_compute. reflexivity.
  - reflexivity.
  - reflexivity.
  - reflexivity.
  - discriminate.
  - exists t', p, counts. repeat split; assumption.
Defined.

(** ** The cache of decrypted media *)

Section MediaCacheFacts.
Import MediaCache.

Lemma map_get_set_eq (k : jsstring) (v : CachedMedia) (m : list (jsstring * CachedMedia)) :
  map_get k (map_set k v m) = Some v.
Proof.
  unfold map_get. induction m as [|[k0 v0] m IH]; cbn.
  - now rewrite bool_decide_eq_true_2.
  - destruct (bool_decide (k0 = k)) eqn:Hk; cbn.
    + now rewrite bool_decide_eq_true_2.
    + rewrite Hk. exact IH.
Qed.

Lemma map_get_set_ne (k k' : jsstring) (v : CachedMedia) (m : list (jsstring * CachedMedia)) :
  k' <> k -> map_get k' (map_set k v m) = map_get k' m.
Proof.
  intros Hne. unfold map_get. induction m as [|[k0 v0] m IH]; cbn.
  - now rewrite bool_decide_eq_false_2 by congruence.
  - destruct (bool_decide (k0 = k)) eqn:Hk; cbn.
    + apply bool_decide_eq_true in Hk as ->.
      now rewrite !bool_decide_eq_false_2 by congruence.
    + destruct (bool_decide (k0 = k')); [reflexivity|exact IH].
Qed.

Lemma map_get_delete_eq (k : jsstring) (m : list (jsstring * CachedMedia)) :
  map_get k (map_delete k m) = None.
Proof.
  unfold map_get, map_delete. induction m as [|[k0 v0] m IH]; cbn; [reflexivity|].
  destruct (bool_decide (k0 = k)) eqn:Hk; cbn; [exact IH|]. now rewrite Hk.
Qed.

Lemma map_get_delete_ne (k k' : jsstring) (m : list (jsstring * CachedMedia)) :
  k' <> k -> map_get k' (map_delete k m) = map_get k' m.
Proof.
  intros Hne. unfold map_get, map_delete. induction m as [|[k0 v0] m IH]; cbn; [reflexivity|].
  destruct (bool_decide (k0 = k)) eqn:Hk; cbn.
  - apply bool_decide_eq_true in Hk as ->.
    now rewrite bool_decide_eq_false_2 by congruence.
  - destruct (bool_decide (k0 = k')); [reflexivity|exact IH].
Qed.

Lemma map_get_Some (k : jsstring) (v : CachedMedia) (m : list (jsstring * CachedMedia)) :
  map_get k m = Some v -> (k, v) ∈ m.
Proof.
  unfold map_get. induction m as [|[k0 v0] m IH]; cbn; [discriminate|].
  destruct (bool_decide (k0 = k)) eqn:Hk; cbn.
  - apply bool_decide_eq_true in Hk as ->. intros [= ->]. left.
  - intros H. right. auto.
Qed.

Lemma map_get_None (k : jsstring) (m : list (jsstring * CachedMedia)) :
  map_get k m = None <-> k ∉ m.*1.
Proof.
  unfold map_get. induction m as [|[k0 v0] m IH]; cbn.
  - split; [intros _ H; inversion H|reflexivity].
  - destruct (bool_decide (k0 = k)) eqn:Hk; cbn.
    + apply bool_decide_eq_true in Hk as ->. split; [discriminate|].
      intros H. exfalso. apply H. left.
    + apply bool_decide_eq_false in Hk. rewrite IH, not_elem_of_cons.
      split; [intros H; split; [congruence|exact H]|now intros [_ H]].
Qed.

Lemma map_set_keys (k : jsstring) (v : CachedMedia) (m : list (jsstring * CachedMedia)) :
  (map_set k v m).*1 = if bool_decide (k ∈ m.*1) then m.*1 else m.*1 ++ [k].
Proof.
  induction m as [|[k0 v0] m IH]; cbn.
  - rewrite bool_decide_eq_false_2; [reflexivity|]. intros H. inversion H.
  - destruct (bool_decide (k0 = k)) eqn:Hk; cbn.
    + apply bool_decide_eq_true in Hk as ->.
      rewrite bool_decide_eq_true_2; [reflexivity|left].
    + apply bool_decide_eq_false in Hk. rewrite IH.
      destruct (bool_decide (k ∈ m.*1)) eqn:Hin.
      * apply bool_decide_eq_true in Hin.
        rewrite bool_decide_eq_true_2; [reflexivity|now right].
      * apply bool_decide_eq_false in Hin.
        rewrite bool_decide_eq_false_2; [reflexivity|].
        rewrite elem_of_cons. intros [Heq|Hin']; [congruence|contradiction].
Qed.

Lemma map_delete_keys (k : jsstring) (m : list (jsstring * CachedMedia)) :
  (map_delete k m).*1 = List.filter (fun k0 => negb (bool_decide (k0 = k))) m.*1.
Proof.
  unfold map_delete. induction m as [|[k0 v0] m IH]; cbn; [reflexivity|].
  destruct (bool_decide (k0 = k)); cbn; now rewrite IH.
Qed.

Lemma NoDup_list_filter {A} (f : A -> bool) (l : list A) : NoDup l -> NoDup (List.filter f l).
Proof.
  induction 1 as [|a l Ha Hl IH]; cbn; [constructor|].
  destruct (f a); [|exact IH]. constructor; [|exact IH].
  intros Hin. apply Ha. apply list_elem_of_In in Hin. apply filter_In in Hin as [Hin _].
  now apply list_elem_of_In.
Qed.

Lemma filter_length_le {A} (f : A -> bool) (l : list A) :
  (length (List.filter f l) <= length l)%nat.
Proof. induction l as [|a l IH]; cbn; [lia|]. destruct (f a); cbn; lia. Qed.

Lemma map_set_NoDup (k : jsstring) (v : CachedMedia) (m : list (jsstring * CachedMedia)) :
  NoDup m.*1 -> NoDup (map_set k v m).*1.
Proof.
  intros Hnd. rewrite map_set_keys. destruct (bool_decide (k ∈ m.*1)) eqn:Hin; [exact Hnd|].
  apply bool_decide_eq_false in Hin. apply NoDup_app. split; [exact Hnd|].
  split; [|apply NoDup_singleton].
  intros x Hx Hx'. apply list_elem_of_singleton in Hx' as ->. contradiction.
Qed.

Lemma map_set_length (k : jsstring) (v : CachedMedia) (m : list (jsstring * CachedMedia)) :
  length (map_set k v m) = if bool_decide (k ∈ m.*1) then length m else S (length m).
Proof.
  rewrite <- (length_fmap fst (map_set k v m)), map_set_keys.
  destruct (bool_decide _); [apply length_fmap|].
  rewrite length_app, length_fmap. cbn. lia.
Qed.

(** The cache before [set] in [cacheMedia] has room. *)
Lemma evict_oldest_room (c : State) :
  NoDup (mediaCache c).*1 -> (length (mediaCache c) <= MAX_CACHE_SIZE)%nat ->
  NoDup (mediaCache (evict_oldest c)).*1 /\
  (length (mediaCache (evict_oldest c)) < MAX_CACHE_SIZE)%nat.
Proof.
  intros Hnd Hlen. unfold evict_oldest. destruct (_ <=? _)%nat eqn:Hfull.
  - apply Nat.leb_le in Hfull. destruct (mediaCache c) as [|[k0 v0] m] eqn:Hm.
    + cbn in Hfull. unfold MAX_CACHE_SIZE in Hfull. lia.
    + cbn [mediaCache]. split.
      * rewrite map_delete_keys. now apply NoDup_list_filter.
      * unfold map_delete. cbn. rewrite bool_decide_eq_true_2 by reflexivity. cbn.
        pose proof (filter_length_le (fun e => negb (bool_decide (e.1 = k0))) m).
        cbn in Hlen. lia.
  - apply Nat.leb_gt in Hfull. auto.
Qed.

Lemma run_call_invariant (op : call) (c : State) :
  NoDup (mediaCache c).*1 -> (length (mediaCache c) <= MAX_CACHE_SIZE)%nat ->
  NoDup (mediaCache (run_call c op)).*1 /\
  (length (mediaCache (run_call c op)) <= MAX_CACHE_SIZE)%nat.
Proof.
  intros Hnd Hlen. destruct op as [k u t now|k|]; cbn [run_call].
  - unfold cacheMedia. destruct (evict_oldest_room c Hnd Hlen) as [Hnd1 Hlen1].
    cbn [mediaCache]. split; [now apply map_set_NoDup|].
    rewrite map_set_length. destruct (bool_decide _); lia.
  - unfold removeCachedMedia. destruct (map_get k (mediaCache c)); [|auto].
    cbn [mediaCache]. split.
    + rewrite map_delete_keys. now apply NoDup_list_filter.
    + pose proof (filter_length_le (fun e => negb (bool_decide (e.1 = k))) (mediaCache c)).
      unfold map_delete. lia.
  - cbn. split; [constructor|lia].
Qed.

Lemma run_calls_invariant (ops : list call) (c : State) :
  NoDup (mediaCache c).*1 -> (length (mediaCache c) <= MAX_CACHE_SIZE)%nat ->
  NoDup (mediaCache (run_calls ops c)).*1 /\
  (length (mediaCache (run_calls ops c)) <= MAX_CACHE_SIZE)%nat.
Proof.
  revert c. induction ops as [|op ops IH]; intros c Hnd Hlen; [auto|].
  cbn [run_calls foldl]. destruct (run_call_invariant op c Hnd Hlen). now apply IH.
Qed.

(** X17: the cache never holds more than [MAX_CACHE_SIZE] entries, and
    no message twice, whatever was cached, removed and cleared since the
    page was loaded. *)
Theorem cache_size_bounded (ops : list call) :
  let c := run_calls ops empty in
  ((getCacheStats c).1 <= (getCacheStats c).2)%nat /\
  (getCacheStats c).2 = 100%nat /\
  NoDup (mediaCache c).*1.
Proof.
  destruct (run_calls_invariant ops empty) as [Hnd Hlen]; [constructor|cbn; lia|].
  cbn. auto.
Qed.

(** X18: what [cacheMedia] does to the entries. The message that was
    cached is found, with the URL and type given. If the cache was full,
    its oldest entry is given up and the blob URL of that entry is
    revoked; otherwise nothing is revoked. No other entry changes. *)
Theorem cacheMedia_evicts_oldest_when_full (c : State) (messageId blobUrl mimeType : jsstring)
    (now : N) :
  let c' := cacheMedia messageId blobUrl mimeType now c in
  getCachedMedia messageId c' = Some (blobUrl, mimeType) /\
  hasCache messageId c' = true /\
  ((length (mediaCache c) < MAX_CACHE_SIZE)%nat ->
   revoked c' = revoked c /\
   forall other, other <> messageId -> getCachedMedia other c' = getCachedMedia other c) /\
  (forall firstKey evicted rest,
     (MAX_CACHE_SIZE <= length (mediaCache c))%nat ->
     mediaCache c = (firstKey, evicted) :: rest ->
     revoked c' = revoked c ++ [MediaCache.blobUrl evicted] /\
     (firstKey <> messageId -> getCachedMedia firstKey c' = None) /\
     forall other, other <> messageId -> other <> firstKey ->
                   getCachedMedia other c' = getCachedMedia other c).
Proof.
  intros c'. unfold c', cacheMedia, getCachedMedia, hasCache. cbn [mediaCache revoked].
  rewrite map_get_set_eq. cbn [MediaCache.blobUrl MediaCache.mimeType].
  split; [reflexivity|]. split; [apply bool_decide_eq_true; eauto|]. split.
  - intros Hlen. unfold evict_oldest.
    apply Nat.leb_gt in Hlen. rewrite Hlen. split; [reflexivity|].
    intros other Hne. now rewrite map_get_set_ne.
  - intros firstKey evicted rest Hlen Hm. unfold evict_oldest.
    apply Nat.leb_le in Hlen. rewrite Hlen, Hm. cbn [mediaCache revoked].
    split; [reflexivity|]. split.
    + intros Hne. now rewrite map_get_set_ne, map_get_delete_eq.
    + intros other Hne1 Hne2. now rewrite map_get_set_ne, map_get_delete_ne.
Qed.

Lemma NoDup_fmap_inj {A B} (f : A -> B) (l : list A) (x y : A) :
  NoDup (f <$> l) -> x ∈ l -> y ∈ l -> f x = f y -> x = y.
Proof.
  induction l as [|a l IH]; cbn; intros Hnd Hx Hy Hf; [inversion Hx|].
  apply NoDup_cons in Hnd as [Ha Hnd].
  apply elem_of_cons in Hx as [->|Hx]; apply elem_of_cons in Hy as [->|Hy]; auto.
  - exfalso. apply Ha. rewrite Hf. now apply list_elem_of_fmap_2.
  - exfalso. apply Ha. rewrite <- Hf. now apply list_elem_of_fmap_2.
Qed.

Lemma map_delete_subset (k : jsstring) (m : list (jsstring * CachedMedia))
    (e : jsstring * CachedMedia) :
  e ∈ map_delete k m <-> e ∈ m /\ e.1 <> k.
Proof.
  unfold map_delete. rewrite !list_elem_of_In, filter_In, negb_true_iff.
  now rewrite bool_decide_eq_false.
Qed.

Lemma map_delete_urls_NoDup (k : jsstring) (m : list (jsstring * CachedMedia)) :
  NoDup (map (fun e => MediaCache.blobUrl e.2) m) ->
  NoDup (map (fun e => MediaCache.blobUrl e.2) (map_delete k m)).
Proof.
  unfold map_delete. induction m as [|e m IH]; cbn; [constructor|].
  intros Hnd. apply NoDup_cons in Hnd as [He Hnd].
  destruct (negb _); [|auto]. cbn. apply NoDup_cons. split; [|auto].
  intros Hin. apply He. apply list_elem_of_In, in_map_iff in Hin as (e' & Heq & Hin).
  apply list_elem_of_In, in_map_iff. exists e'. split; [exact Heq|].
  apply filter_In in Hin. tauto.
Qed.

Lemma map_set_urls (k : jsstring) (v : CachedMedia) (m : list (jsstring * CachedMedia))
    (u : jsstring) :
  u ∈ map (fun e => MediaCache.blobUrl e.2) (map_set k v m) ->
  u = MediaCache.blobUrl v \/ u ∈ map (fun e => MediaCache.blobUrl e.2) m.
Proof.
  induction m as [|e m IH]; cbn.
  - intros H. apply list_elem_of_singleton in H. auto.
  - destruct (bool_decide (e.1 = k)); cbn; rewrite !elem_of_cons; intuition.
Qed.

Lemma map_set_urls_NoDup (k : jsstring) (v : CachedMedia) (m : list (jsstring * CachedMedia)) :
  NoDup (map (fun e => MediaCache.blobUrl e.2) m) ->
  MediaCache.blobUrl v ∉ map (fun e => MediaCache.blobUrl e.2) m ->
  NoDup (map (fun e => MediaCache.blobUrl e.2) (map_set k v m)).
Proof.
  induction m as [|e m IH]; cbn; intros Hnd Hv.
  - apply NoDup_singleton.
  - apply NoDup_cons in Hnd as [He Hnd]. apply not_elem_of_cons in Hv as [Hne Hv].
    destruct (bool_decide (e.1 = k)); cbn.
    + apply NoDup_cons. auto.
    + apply NoDup_cons. split; [|auto].
      intros Hin. apply map_set_urls in Hin as [Heq|Hin]; [congruence|contradiction].
Qed.

Lemma evict_oldest_live (c : State) :
  urls_live c ->
  urls_live (evict_oldest c) /\
  (forall u, u ∈ held_urls (evict_oldest c) -> u ∈ held_urls c) /\
  (forall u, u ∈ revoked (evict_oldest c) -> u ∈ revoked c \/ u ∈ held_urls c).
Proof.
  intros [Hnd Hlive]. unfold evict_oldest.
  destruct (_ <=? _)%nat; [|repeat split; auto].
  destruct (mediaCache c) as [|[k0 e0] m] eqn:Hm; [repeat split; auto|].
  unfold urls_live, held_urls in *. rewrite Hm in *. cbn [mediaCache revoked].
  assert (forall u, u ∈ map (fun e => MediaCache.blobUrl e.2) (map_delete k0 ((k0, e0) :: m)) ->
                    u ∈ map (fun e => MediaCache.blobUrl e.2) m) as Hsub.
  { intros u Hu. apply list_elem_of_In, in_map_iff in Hu as (e & <- & He).
    apply list_elem_of_In, map_delete_subset in He as [He Hne].
    apply elem_of_cons in He as [->|He]; [now contradict Hne|].
    now apply (list_elem_of_fmap_2 (fun e => MediaCache.blobUrl e.2)). }
  split; [split|split].
  - now apply map_delete_urls_NoDup.
  - intros u Hu. specialize (Hsub u Hu). cbn in Hnd, Hlive.
    apply NoDup_cons in Hnd as [He0 _].
    rewrite elem_of_app, list_elem_of_singleton. intros [Hr| ->].
    + apply (Hlive u); [now right|exact Hr].
    + contradiction.
  - intros u Hu. right. now apply Hsub.
  - intros u Hu. apply elem_of_app in Hu as [Hu|Hu]; [now left|].
    apply list_elem_of_singleton in Hu as ->. right. cbn. left.
Qed.

Lemma run_call_live (op : call) (c : State) :
  urls_live c ->
  (forall u, u ∈ cached_urls [op] -> ~ (u ∈ held_urls c) /\ ~ (u ∈ revoked c)) ->
  urls_live (run_call c op) /\
  (forall u, u ∈ held_urls (run_call c op) -> u ∈ held_urls c \/ u ∈ cached_urls [op]) /\
  (forall u, u ∈ revoked (run_call c op) -> u ∈ revoked c \/ u ∈ held_urls c).
Proof.
  intros Hlive Hfresh. destruct op as [k u t now|k|]; cbn [run_call].
  - destruct (evict_oldest_live c Hlive) as ([Hnd1 Hlive1] & Hheld1 & Hrev1).
    destruct (Hfresh u) as [Hu1 Hu2]; [cbn; left|].
    unfold cacheMedia, urls_live, held_urls in *. cbn [mediaCache revoked].
    split; [split|split].
    + apply map_set_urls_NoDup; [exact Hnd1|]. cbn. intros Hin. apply Hu1. now apply Hheld1.
    + intros x Hx. apply map_set_urls in Hx as [->|Hx]; [|now apply Hlive1].
      cbn. intros Hr. apply Hrev1 in Hr as [Hr|Hr]; contradiction.
    + intros x Hx. apply map_set_urls in Hx as [->|Hx]; [right; cbn; left|].
      left. now apply Hheld1.
    + exact Hrev1.
  - unfold removeCachedMedia. destruct (map_get k (mediaCache c)) as [e|] eqn:Hget;
      [|repeat split; try apply Hlive; auto].
    destruct Hlive as [Hnd Hlive]. apply map_get_Some in Hget.
    unfold urls_live, held_urls in *. cbn [mediaCache revoked].
    assert (forall x, x ∈ map (fun e => MediaCache.blobUrl e.2) (map_delete k (mediaCache c)) ->
                      x ∈ map (fun e => MediaCache.blobUrl e.2) (mediaCache c) /\
                      x <> MediaCache.blobUrl e) as Hsub.
    { intros x Hx. apply list_elem_of_In, in_map_iff in Hx as (e' & <- & He').
      apply list_elem_of_In, map_delete_subset in He' as [He' Hne].
      split; [now apply (list_elem_of_fmap_2 (fun e => MediaCache.blobUrl e.2))|].
      intros Heq.
      pose proof (NoDup_fmap_inj (fun e => MediaCache.blobUrl e.2) _ e' (k, e) Hnd He' Hget Heq)
        as ->.
      now contradict Hne. }
    split; [split|split].
    + now apply map_delete_urls_NoDup.
    + intros x Hx. destruct (Hsub x Hx) as [Hin Hne].
      rewrite elem_of_app, list_elem_of_singleton. intros [Hr|Heq]; [|contradiction].
      now apply (Hlive x).
    + intros x Hx. left. now apply Hsub.
    + intros x Hx. apply elem_of_app in Hx as [Hx|Hx]; [now left|].
      apply list_elem_of_singleton in Hx as ->. right.
      now apply (list_elem_of_fmap_2 (fun e => MediaCache.blobUrl e.2) _ (k, e)).
  - unfold clearMediaCache, urls_live, held_urls. cbn [mediaCache revoked map].
    split; [split|split].
    + constructor.
    + intros x Hx. inversion Hx.
    + intros x Hx. inversion Hx.
    + intros x Hx. apply elem_of_app in Hx. exact Hx.
Qed.

Lemma run_calls_live (ops : list call) (c : State) :
  urls_live c ->
  NoDup (cached_urls ops) ->
  (forall u, u ∈ cached_urls ops -> ~ (u ∈ held_urls c) /\ ~ (u ∈ revoked c)) ->
  urls_live (run_calls ops c).
Proof.
  revert c. induction ops as [|op ops IH]; intros c Hlive Hnd Hfresh; [exact Hlive|].
  cbn [run_calls foldl].
  assert (cached_urls (op :: ops) = cached_urls [op] ++ cached_urls ops) as Heq
    by (unfold cached_urls; cbn [flat_map]; now rewrite app_nil_r).
  rewrite Heq in Hnd, Hfresh. clear Heq.
  apply NoDup_app in Hnd as (_ & Hdisj & Hnd).
  destruct (run_call_live op c Hlive) as (Hlive1 & Hheld & Hrev).
  { intros u Hu. apply Hfresh. apply elem_of_app. now left. }
  apply IH; [exact Hlive1|exact Hnd|].
  intros u Hu. destruct (Hfresh u) as [Hu1 Hu2]; [apply elem_of_app; now right|].
  split.
  - intros Hin. apply Hheld in Hin as [Hin|Hin]; [contradiction|].
    now apply (Hdisj u).
  - intros Hin. apply Hrev in Hin as [Hin|Hin]; contradiction.
Qed.

(** X19: the cache hands out no revoked URL. If every call of
    [cacheMedia] is given a blob URL of its own, as [URL.createObjectURL]
    makes them, then whatever was cached, evicted, removed and cleared,
    the URL that [getCachedMedia] returns for a message has not been
    revoked. *)
Theorem cached_url_is_not_revoked (ops : list call) (messageId blobUrl mimeType : jsstring) :
  NoDup (cached_urls ops) ->
  getCachedMedia messageId (run_calls ops empty) = Some (blobUrl, mimeType) ->
  blobUrl ∉ revoked (run_calls ops empty).
Proof.
  intros Hnd Hget.
  destruct (run_calls_live ops empty) as [_ Hlive].
  - split; [constructor|]. intros u Hu. inversion Hu.
  - exact Hnd.
  - intros u _. split; intros H; inversion H.
  - apply Hlive. unfold getCachedMedia in Hget.
    destruct (map_get messageId _) as [e|] eqn:He; [|discriminate].
    injection Hget as <- _. apply map_get_Some in He.
    now apply (list_elem_of_fmap_2 (fun e => MediaCache.blobUrl e.2) _ (messageId, e)).
Qed.

End MediaCacheFacts.

Lemma cacheMedia_evicts_oldest_when_full_witness :
  let c' := MediaCache.cacheMedia (lit "new") (lit "blob:new") (lit "image/png") 7
              (MediaCache.filled 100) in
  MediaCache.getCachedMedia (lit "new") c' = Some (lit "blob:new", lit "image/png") /\
  MediaCache.revoked c' = [lit "blob:0"] /\
  MediaCache.getCachedMedia (lit "0") c' = None /\
  MediaCache.getCachedMedia (lit "1") c' = Some (lit "blob:1", lit "image/jpeg").
Proof.
  intros c'.
  destruct (cacheMedia_evicts_oldest_when_full (MediaCache.filled 100)
              (lit "new") (lit "blob:new") (lit "image/png") 7)
    as (Hfound & _ & _ & Hfull).
  destruct (Hfull (lit "0")
              {| MediaCache.blobUrl := lit "blob:0"; MediaCache.mimeType := lit "image/jpeg";
                 MediaCache.timestamp := 0 |}
              (tl (MediaCache.mediaCache (MediaCache.filled 100))))
    as (Hrevoked & Hgone & Hkept).
  - vm_compute. lia.
  - vm_compute. reflexivity.
  - split; [exact Hfound|]. split; [exact Hrevoked|]. split.
    + apply Hgone. discriminate.
    + unfold c'. rewrite (Hkept (lit "1")); [vm_compute; reflexivity|discriminate..].
Defined.

Lemma cached_url_is_not_revoked_witness :
  MediaCache.revoked (MediaCache.filled 101) = [lit "blob:0"] /\
  MediaCache.getCachedMedia (lit "100") (MediaCache.filled 101)
  = Some (lit "blob:100", lit "image/jpeg") /\
  lit "blob:100" ∉ MediaCache.revoked (MediaCache.filled 101).
Proof.
  split; [vm_compute; reflexivity|]. split; [vm_compute; reflexivity|].
  apply (cached_url_is_not_revoked (MediaCache.fill_calls 101) (lit "100") (lit "blob:100")
           (lit "image/jpeg")).
  - apply (bool_decide_unpack _). vm_compute. exact I.
  - vm_compute. reflexivity.
Defined.

(** ** Unread counts *)

Section UnreadFacts.
Context {P : Platform}.

Lemma zero_counts (emails : list string) (c : string) :
  default 0 (foldl (fun counts email => <[toLowerCase email := 0]> counts)
               (∅ : gmap string N) emails !! c) = 0.
Proof. now apply initial_counts_zero. Qed.

Lemma resetUnreadCount_spec (chatId userEmail : string) (s : Store) :
  exists previews',
    resetUnreadCount chatId userEmail s
    = (Ok tt, {| device := device s; messages := messages s; previews := previews' |}) /\
    (forall c, c <> chatId -> previews' !! c = previews s !! c) /\
    (is_Some (chats (device s) !! chatId) ->
     forall user,
       unread chatId user {| device := device s; messages := messages s; previews := previews' |}
       = if decide (user = toLowerCase userEmail) then 0 else unread chatId user s) /\
    (chats (device s) !! chatId = None -> previews' = previews s) /\
    (forall p, previews s !! chatId = Some p ->
       exists p', (previews' !! chatId = Some p') /\
                  lastMessage p' = lastMessage p /\ lastSender p' = lastSender p).
Proof.
  unfold resetUnreadCount, try_catch_S. unfold mbind at 1, StoreM_bind at 1. cbn [get_store].
  destruct (chats (device s) !! chatId) as [chatData|] eqn:Hdoc.
  2:{ exists (previews s). split; [now destruct s|]. split; [auto|].
      split; [intros [? [=]]|]. split; [auto|]. eauto. }
  unfold unread.
  destruct (unreadCount (default no_preview (previews s !! chatId))) as [counts|] eqn:Hst.
  - destruct (counts !! toLowerCase userEmail) as [userCount|] eqn:Hu.
    + destruct (0 <? userCount) eqn:Hpos.
      * cbn. eexists. split; [reflexivity|].
        split; [intros c Hc; now rewrite lookup_insert_ne|].
        split; [|split; [discriminate|]].
        -- intros _ user. cbn. rewrite lookup_insert_eq. cbn.
           destruct (decide (user = toLowerCase userEmail)) as [->|Hne].
           ++ now rewrite lookup_insert_eq.
           ++ now rewrite lookup_insert_ne.
        -- intros p Hp. rewrite lookup_insert_eq, Hp. cbn. eauto.
      * cbn. exists (previews s). split; [now destruct s|]. split; [auto|].
        split; [|split; [discriminate|eauto]].
        intros _ user. cbn. rewrite Hst. cbn.
        destruct (decide (user = toLowerCase userEmail)) as [->|Hne]; [|reflexivity].
        rewrite Hu. cbn. apply N.ltb_ge in Hpos. lia.
    + cbn. eexists. split; [reflexivity|].
      split; [intros c Hc; now rewrite lookup_insert_ne|].
      split; [|split; [discriminate|]].
      * intros _ user. cbn. rewrite lookup_insert_eq. cbn.
        destruct (decide (user = toLowerCase userEmail)) as [->|Hne].
        -- now rewrite lookup_insert_eq.
        -- now rewrite lookup_insert_ne.
      * intros p Hp. rewrite lookup_insert_eq, Hp. cbn. eauto.
  - cbn. eexists. split; [reflexivity|].
    split; [intros c Hc; now rewrite lookup_insert_ne|].
    split; [|split; [discriminate|]].
    + intros _ user. cbn. rewrite lookup_insert_eq. cbn.
      assert (default 0 ((match participants chatData with
                          | Some emails =>
                              foldl (fun counts email => <[toLowerCase email := 0]> counts) ∅ emails
                          | None => ∅
                          end : gmap string N) !! user) = 0) as ->.
      { destruct (participants chatData); [apply zero_counts|reflexivity]. }
      now destruct (decide _).
    + intros p Hp. rewrite lookup_insert_eq, Hp. cbn. eauto.
Qed.

(** X20: opening a conversation. [resetUnreadCount] never fails; for a
    conversation that exists it brings the unread count of the user to
    zero and leaves the count of every other user, the preview text, the
    messages, the device and the other conversations as they are. *)
Theorem reset_clears_only_own_count (chatId userEmail : string) (s : Store) :
  is_Some (chats (device s) !! chatId) ->
  let s' := (resetUnreadCount chatId userEmail s).2 in
  (resetUnreadCount chatId userEmail s).1 = Ok tt /\
  device s' = device s /\ messages s' = messages s /\
  (forall user, unread chatId user s'
                = if decide (user = toLowerCase userEmail) then 0 else unread chatId user s) /\
  (forall c, c <> chatId -> previews s' !! c = previews s !! c) /\
  (forall p, previews s !! chatId = Some p ->
     exists p', previews s' !! chatId = Some p' /\
                lastMessage p' = lastMessage p /\ lastSender p' = lastSender p).
Proof.
  intros Hdoc. destruct (resetUnreadCount_spec chatId userEmail s)
    as (previews' & -> & Hother & Hunread & _ & Htext).
  cbn. repeat split; auto.
Qed.

(** X21: a message that was sent is unread until the conversation is
    opened. When [getChatKey] yields a key, sending raises the unread
    count of the first participant other than the sender by one and no
    other count; when that participant then opens the conversation the
    count is zero, and the count of the sender is as it was before the
    message. *)
Theorem sent_message_is_unread_until_opened (chatId : string) (text : jsstring) (user : User)
    (t : Tab) (k : CryptoKey) (rt1 : Runtime) (chatData : ChatDoc)
    (emails : list string) (other : string) :
  trim text <> [] ->
  await_getChatKey chatId (email user) (tab_runtime t) = Some (Ok k, rt1) ->
  chats (device (store t)) !! chatId = Some chatData ->
  participants chatData = Some emails ->
  List.find (fun p => bool_decide (Some (toLowerCase p) <> lowered_email user)) emails
  = Some other ->
  toLowerCase other <> EmptyString ->
  exists t1,
    sendChatMessage chatId text user t = Some (Ok tt, t1) /\
    let s := store t in
    let s1 := store t1 in
    let s2 := (resetUnreadCount chatId other s1).2 in
    unread chatId (toLowerCase other) s1 = unread chatId (toLowerCase other) s + 1 /\
    (forall c, c <> toLowerCase other -> unread chatId c s1 = unread chatId c s) /\
    unread chatId (toLowerCase other) s2 = 0 /\
    (forall c, c <> toLowerCase other -> unread chatId c s2 = unread chatId c s).
Proof.
  intros Htrim Hrun Hdoc Hps Hfind Hother.
  destruct (sendChatMessage_preview chatId text user t k rt1 chatData emails other
              Htrim Hrun Hdoc Hps Hfind Hother)
    as (t1 & p & counts & Hsend & Hp & _ & _ & Hcounts & Hplus & Hsame & _ & Hchats).
  exists t1. split; [exact Hsend|]. intros s s1 s2.
  assert (forall c, unread chatId c s1 = default 0 (counts !! c)) as Hs1.
  { intros c. unfold unread, s1. rewrite Hp.
    cbn [default from_option]. unfold id. now rewrite Hcounts. }
  assert (is_Some (chats (device s1) !! chatId)) as Hdoc1.
  { unfold s1. rewrite Hchats.
    destruct (await_getChatKey_participants _ _ _ _ _ chatId chatData Hrun Hdoc)
      as (d' & Hd' & _).
    eauto. }
  destruct (resetUnreadCount_spec chatId other s1) as (previews' & Hreset & _ & Hunread & _).
  specialize (Hunread Hdoc1).
  assert (forall c, unread chatId c s2
                    = if decide (c = toLowerCase other) then 0 else unread chatId c s1) as Hs2.
  { intros c. unfold s2. rewrite Hreset. apply Hunread. }
  split; [now rewrite Hs1, Hplus|].
  split; [intros c Hc; rewrite Hs1; now apply Hsame|].
  split.
  - rewrite Hs2. now rewrite decide_True.
  - intros c Hc. rewrite Hs2, decide_False by exact Hc. rewrite Hs1. now apply Hsame.
Qed.

End UnreadFacts.

Lemma reset_clears_only_own_count_witness :
  let s := {| device := Toy.world_of Toy.plain_doc None; messages := ∅;
              previews := {[ Toy.conversation :=
                               {| lastMessage := Some (lit "hi"); lastSender := Some Toy.alice;
                                  updatedAt := Some 0;
                                  unreadCount := Some {[ Toy.alice := 2; Toy.bob := 3 ]} |} ]} |} in
  let s' := (resetUnreadCount (P := Toy.platform) Toy.conversation "Bob@x.org" s).2 in
  unread Toy.conversation Toy.bob s = 3 /\
  unread Toy.conversation Toy.bob s' = 0 /\
  unread Toy.conversation Toy.alice s' = 2.
Proof.
  intros s s'.
  destruct (reset_clears_only_own_count (P := Toy.platform) Toy.conversation "Bob@x.org" s)
    as (_ & _ & _ & Hunread & _).
  - vm_compute. eauto.
  - split; [reflexivity|]. split.
    + unfold s'. rewrite (Hunread Toy.bob). reflexivity.
    + unfold s'. rewrite (Hunread Toy.alice). reflexivity.
Defined.

Lemma sent_message_is_unread_until_opened_witness :
  let w := Toy.world_of Toy.plain_doc None in
  exists t1,
    sendChatMessage (P := Toy.platform) Toy.conversation (lit " hi ")
      SendExamples.alice_user (SendExamples.tab_of w) = Some (Ok tt, t1) /\
    let s2 := (resetUnreadCount (P := Toy.platform) Toy.conversation Toy.bob (store t1)).2 in
    unread Toy.conversation Toy.bob (store t1) = 1 /\
    unread Toy.conversation Toy.bob s2 = 0 /\
    unread Toy.conversation Toy.alice s2 = 0.
Proof.
  intros w.
  destruct (sent_message_is_unread_until_opened (P := Toy.platform) Toy.conversation
              (lit " hi ") SendExamples.alice_user (SendExamples.tab_of w)
              {| raw := next_key w |}
              (default (Err ChatNotFound, start w)
                 (await_getChatKey (P := Toy.platform) Toy.conversation
                    (Some "Alice@x.org"%string) (start w))).2
              Toy.plain_doc [Toy.alice; Toy.bob] Toy.bob)
    as (t1 & Hsend & Hplus & _ & Hzero & Hsame).
  - discriminate.
  - vm_compute. reflexivity.
  - reflexivity.
  - reflexivity.
  - reflexivity.
  - discriminate.
  - exists t1. split; [exact Hsend|]. split; [exact Hplus|]. split; [exact Hzero|].
    apply (Hsame Toy.alice). discriminate.
Defined.

(** ** Direct conversations *)

Section DmChatFacts.
Import DmChat.
Variable toLowerCase : jsstring -> jsstring.

Lemma ltb_units_asym (a b : jsstring) : ltb_units a b = true -> ltb_units b a = false.
Proof.
  revert b. induction a as [|x a IH]; intros [|y b]; cbn; try congruence.
  destruct (x <? y) eqn:Hxy, (y <? x) eqn:Hyx; try congruence.
  - apply N.ltb_lt in Hxy, Hyx. lia.
  - apply IH.
Qed.

Lemma ltb_units_total (a b : jsstring) :
  ltb_units a b = false -> ltb_units b a = false -> a = b.
Proof.
  revert b. induction a as [|x a IH]; intros [|y b]; cbn; try congruence.
  destruct (x <? y) eqn:Hxy, (y <? x) eqn:Hyx; try congruence.
  apply N.ltb_ge in Hxy, Hyx. intros H1 H2. f_equal; [lia|auto].
Qed.

Lemma sort2_comm (a b : jsstring) : sort2 a b = sort2 b a.
Proof.
  unfold sort2. destruct (ltb_units b a) eqn:Hba.
  - now rewrite (ltb_units_asym _ _ Hba).
  - destruct (ltb_units a b) eqn:Hab; [reflexivity|].
    now rewrite (ltb_units_total _ _ Hab Hba).
Qed.

Lemma replaceAll_app (c : N) (r x y : jsstring) :
  replaceAll c r (x ++ y) = replaceAll c r x ++ replaceAll c r y.
Proof. unfold replaceAll. apply flat_map_app. Qed.

Lemma safe_app (x y : jsstring) : safe (x ++ y) = safe x ++ safe y.
Proof. unfold safe. now rewrite !replaceAll_app. Qed.

Lemma safe_clean (s : jsstring) (u : N) : u ∈ safe s -> u <> 46 /\ u <> 64.
Proof.
  unfold safe, replaceAll. intros Hu.
  apply list_elem_of_In, in_flat_map in Hu as (v & Hv & Hu).
  apply in_flat_map in Hv as (t & _ & Hv).
  assert (v <> 46) as Hv46.
  { destruct (t =? 46) eqn:Ht.
    - cbn in Hv. destruct Hv as [<-|[]]. discriminate.
    - cbn in Hv. destruct Hv as [<-|[]]. now apply N.eqb_neq. }
  destruct (v =? 64) eqn:Hv64.
  - cbn in Hu. repeat (destruct Hu as [<-|Hu]; [split; discriminate|]). destruct Hu.
  - cbn in Hu. destruct Hu as [<-|[]]. apply N.eqb_neq in Hv64. auto.
Qed.

(** X22: the id of a direct conversation does not depend on which of
    the two users asks for it, and it contains neither a dot nor an at
    sign. The replacement that keeps it clean loses information: a string
    with a dot and the same string with an underscore in its place give
    the same id part, and so do an at sign and the text that stands for
    it, although the strings differ. *)
Theorem buildDmChatId_symmetric_and_clean (emailA emailB : jsstring) :
  buildDmChatId toLowerCase emailA emailB = buildDmChatId toLowerCase emailB emailA /\
  (forall u, u ∈ buildDmChatId toLowerCase emailA emailB -> u <> 46 /\ u <> 64) /\
  (forall x y, safe (x ++ lit "." ++ y) = safe (x ++ lit "_" ++ y) /\
               x ++ lit "." ++ y <> x ++ lit "_" ++ y) /\
  (forall x y, safe (x ++ lit "@" ++ y) = safe (x ++ lit "__at__" ++ y) /\
               x ++ lit "@" ++ y <> x ++ lit "__at__" ++ y).
Proof.
  unfold buildDmChatId. split; [now rewrite sort2_comm|]. split.
  - destruct (sort2 _ _) as [first second]. intros u Hu.
    apply elem_of_app in Hu as [Hu|Hu]; [now apply (safe_clean first)|].
    apply elem_of_app in Hu as [Hu|Hu]; [|now apply (safe_clean second)].
    cbn in Hu. repeat (apply elem_of_cons in Hu as [->|Hu]; [split; discriminate|]).
    inversion Hu.
  - split; intros x y; rewrite !safe_app; (split; [reflexivity|]);
      intros H; apply app_inv_head in H; discriminate.
Qed.

(** X23: [getOrCreateDmChat] creates the conversation once. The first
    call for two users writes a document under the id of the pair, with
    the type of a direct conversation, the two addresses in lower case
    and in order as participants and an unread count of zero for each; it
    changes no other document, and does not write at all if the document
    exists. A later call by either of
    the two users returns the same id and changes nothing. *)
Theorem getOrCreateDmChat_creates_once (myEmail otherEmail : jsstring) (now later : N)
    (chats : gmap jsstring DmDoc) :
  let chatId := buildDmChatId toLowerCase myEmail otherEmail in
  let chats' := (getOrCreateDmChat toLowerCase myEmail otherEmail now chats).2 in
  (getOrCreateDmChat toLowerCase myEmail otherEmail now chats).1 = chatId /\
  (forall c, c <> chatId -> chats' !! c = chats !! c) /\
  (forall d, chats !! chatId = Some d -> chats' = chats) /\
  (chats !! chatId = None ->
   exists d, chats' !! chatId = Some d /\
             type d = lit "dm" /\
             participants d = [(sort2 (toLowerCase myEmail) (toLowerCase otherEmail)).1;
                               (sort2 (toLowerCase myEmail) (toLowerCase otherEmail)).2] /\
             unreadCount d !! toLowerCase myEmail = Some 0 /\
             unreadCount d !! toLowerCase otherEmail = Some 0 /\
             lastMessage d = []) /\
  getOrCreateDmChat toLowerCase otherEmail myEmail later chats' = (chatId, chats') /\
  getOrCreateDmChat toLowerCase myEmail otherEmail later chats' = (chatId, chats').
Proof.
  cbn zeta. unfold getOrCreateDmChat.
  assert (buildDmChatId toLowerCase otherEmail myEmail
          = buildDmChatId toLowerCase myEmail otherEmail) as ->
    by (unfold buildDmChatId; now rewrite sort2_comm).
  set (chatId := buildDmChatId toLowerCase myEmail otherEmail).
  destruct (chats !! chatId) as [d|] eqn:Hd.
  - cbn [fst snd]. rewrite Hd. repeat split; auto. discriminate.
  - destruct (sort2 (toLowerCase myEmail) (toLowerCase otherEmail)) as [p0 p1] eqn:Hsort.
    cbn [fst snd]. rewrite lookup_insert_eq.
    split; [reflexivity|]. split; [intros c Hc; now rewrite lookup_insert_ne|].
    split; [discriminate|]. split; [|split; reflexivity].
    intros _. eexists. split; [reflexivity|]. cbn.
    split; [reflexivity|]. split; [reflexivity|].
    assert ((toLowerCase myEmail = p0 /\ toLowerCase otherEmail = p1) \/
            (toLowerCase myEmail = p1 /\ toLowerCase otherEmail = p0)) as Hcases.
    { unfold sort2 in Hsort. destruct (ltb_units _ _); injection Hsort as <- <-; auto. }
    destruct Hcases as [[-> ->]|[-> ->]].
    + split; [|split; [now rewrite lookup_insert_eq|reflexivity]].
      destruct (decide (p0 = p1)) as [->|Hne].
      * now rewrite lookup_insert_eq.
      * now rewrite lookup_insert_ne, lookup_insert_eq.
    + split; [now rewrite lookup_insert_eq|]. split; [|reflexivity].
      destruct (decide (p0 = p1)) as [->|Hne].
      * now rewrite lookup_insert_eq.
      * now rewrite lookup_insert_ne, lookup_insert_eq.
Qed.

End DmChatFacts.

(** ** Decrypted media *)

Section MediaDownloadFacts.
Import MediaDownload.
Context {P : Platform}.
Variable inferMimeType : jsstring -> jsstring.


(** X25: how [getDecryptedMediaUrl] fails for a message with media
    metadata that is not in the cache. If the promise of [getChatKey]
    rejects, be it the promise of the map or that of a resolution that
    the call begins, its error is the error of the call. If it yields a
    key but no blob that the network yields decrypts under that key, at
    the first attempt or at the fallback, the call fails as a failed
    download. In both cases nothing is cached and no blob URL is made;
    the key manager is left as [getChatKey] left it. *)
Theorem undecryptable_media_is_a_download_failure (remote : Remote) (chatId : string)
    (message : Message) (userEmail : option string) (pg : Page)
    (m : Media) (path ivBase64 : jsstring) :
  MediaCache.getCachedMedia (id message) (page_cache pg) = None ->
  media message = Some m ->
  truthy (publicId m) = false ->
  filePath m = Some path -> path <> [] ->
  iv m = Some ivBase64 -> ivBase64 <> [] ->
  (forall e rt,
     await_getChatKey chatId userEmail (page_runtime pg) = Some (Err e, rt) ->
     getDecryptedMediaUrl inferMimeType remote chatId message userEmail pg
     = Some (inl (Resolution e),
             {| page_runtime := rt; page_cache := page_cache pg; blobs := blobs pg |})) /\
  (forall chatKey rt,
     await_getChatKey chatId userEmail (page_runtime pg) = Some (Ok chatKey, rt) ->
     (forall b, getBlob remote path = Some b \/ fetched remote path = Some b ->
                exists e, decryptFile b chatKey ivBase64 = Err e) ->
     getDecryptedMediaUrl inferMimeType remote chatId message userEmail pg
     = Some (inl DownloadFailed,
             {| page_runtime := rt; page_cache := page_cache pg; blobs := blobs pg |})) /\
  (forall p c e,
     keyCachePromises (page_runtime pg) !! chatId = Some p ->
     promises (page_runtime pg) !! p = Some (Settled c (Err e)) ->
     getDecryptedMediaUrl inferMimeType remote chatId message userEmail pg
     = Some (inl (Resolution e), pg)).
Proof.
  intros Hc Hm Hleg Hpath Hpne Hiv Hivne.
  assert (truthy (Some path) = true) as Htp by (destruct path; [congruence|reflexivity]).
  assert (truthy (Some ivBase64) = true) as Hti by (destruct ivBase64; [congruence|reflexivity]).
  unfold getDecryptedMediaUrl. rewrite Hc, Hm. cbn [mbind option_bind].
  rewrite Hleg, Hpath, Hiv, Htp, Hti. cbn [negb orb default from_option]. unfold Datatypes.id.
  split; [|split].
  - intros e rt ->. reflexivity.
  - intros chatKey rt -> Hfail. cbn [mbind option_bind].
    unfold download_and_decrypt. cbv beta zeta.
    destruct (getBlob remote path) as [b1|] eqn:H1.
    + destruct (Hfail b1) as [e1 ->]; [now left|].
      destruct (fetched remote path) as [b2|] eqn:H2; [|reflexivity].
      destruct (Hfail b2) as [e2 ->]; [now right|]. reflexivity.
    + destruct (fetched remote path) as [b2|] eqn:H2; [|reflexivity].
      destruct (Hfail b2) as [e2 ->]; [now right|]. reflexivity.
  - intros p c e Hp Hs. rewrite (await_getChatKey_settled _ _ _ _ _ _ Hp Hs).
    cbn [mbind option_bind]. now destruct pg.
Qed.

End MediaDownloadFacts.

Lemma undecryptable_media_is_a_download_failure_witness :
  let message :=
    {| MediaDownload.id := lit "m7";
       MediaDownload.media :=
         Some {| MediaDownload.publicId := None;
                 MediaDownload.filePath := Some (lit "media/a.bin");
                 MediaDownload.iv := Some (lit "AAAA");
                 MediaDownload.mimeType := None |} |} in
  let remote :=
    {| MediaDownload.getBlob := fun _ => Some [Byte.x00; Byte.x01];
       MediaDownload.fetched := fun _ => None |} in
  let w := Toy.world_of Toy.plain_doc (Some (replicate 32 Byte.x0a)) in
  let pg :=
    {| MediaDownload.page_runtime := start w;
       MediaDownload.page_cache := MediaCache.empty;
       MediaDownload.blobs := [] |} in
  exists rt,
    MediaDownload.getDecryptedMediaUrl (P := Toy.platform)
      (fun _ => lit "application/octet-stream") remote Toy.conversation message
      (Some Toy.alice) pg
    = Some (inl MediaDownload.DownloadFailed,
            {| MediaDownload.page_runtime := rt;
               MediaDownload.page_cache := MediaCache.empty;
               MediaDownload.blobs := [] |}) /\
    world rt = w.
Proof.
  intros message remote w pg.
  exists (default (Err ChatNotFound, start w)
            (await_getChatKey (P := Toy.platform) Toy.conversation (Some Toy.alice)
               (start w))).2.
  split; [|vm_compute; reflexivity].
  apply (proj1 (proj2 (undecryptable_media_is_a_download_failure (P := Toy.platform)
                  (fun _ => lit "application/octet-stream") remote Toy.conversation message
                  (Some Toy.alice) pg _ (lit "media/a.bin") (lit "AAAA")
                  eq_refl eq_refl eq_refl eq_refl ltac:(discriminate) eq_refl
                  ltac:(discriminate)))
           (Toy.key_of Byte.x0a)).
  - vm_compute. reflexivity.
  - intros b [Hb|Hb]; [|discriminate]. injection Hb as <-.
    exists OperationError. vm_compute. reflexivity.
Defined.

(** ** From the sender to the recipient *)

Section EndToEnd.
Context {P : Platform}.

(** X26: the first message of a conversation reaches its recipient. The
    sender writes to a conversation that has no key yet, from a tab whose
    map holds no promise for the conversation: the key is generated on
    the way, and the text is stored encrypted. A participant whose
    published public key takes the key, on a page that holds the private
    key of the pair, sees the conversation document as the sender left it
    and holds no promise for the conversation, resolves the key from the
    package, and the subscription delivers the message with the trimmed
    text of the sender. *)
Theorem first_message_reaches_recipient (chatId : string) (text : jsstring) (sender : User)
    (t : Tab) (chatData : ChatDoc) (emails : list string) (recipient : string)
    (pub : rsa_public_key) (priv : rsa_private_key) :
  AesGcmCorrect P -> AesGcmNonEmpty -> RsaOaepCorrect P -> RsaOaepNonEmpty ->
  Utf.well_formed text = true ->
  trim text <> [] ->
  keyCache t !! chatId = None ->
  chats (device (store t)) !! chatId = Some chatData ->
  participants chatData = Some emails ->
  keyPackages chatData = None ->
  truthy (encryptionKey chatData) = false ->
  vault (device (store t)) !! chatId = None ->
  recipient ∈ emails ->
  truthy_id (Some recipient) = true ->
  wrappable (device (store t)) (next_key (device (store t))) recipient pub ->
  rsa_keypair pub priv ->
  exists t' m,
    sendChatMessage chatId text sender t = Some (Ok tt, t') /\
    messages (store t') !! chatId
    = Some (default [] (messages (store t) !! chatId) ++ [m]) /\
    m !! "text"%string = Some (VStr []) /\
    forall (other : Runtime) docs i docId,
      keyCachePromises other !! chatId = None ->
      chats (world other) = chats (device (store t')) ->
      getMyPrivateKey (world other) = (Ok priv, world other) ->
      docs !! i = Some {| docId := docId; data := m |} ->
      exists ms delivered other',
        on_snapshot chatId (Some recipient) docs other = Some (onMessages ms, other') /\
        ms !! i = Some delivered /\
        delivered !! "text"%string = Some (VStr (trim text)) /\
        delivered !! "encrypted"%string = Some (VBool true).
Proof.
  intros Haes Haesne Hrsa Hrsane Hwf Htrim Hnone Hdoc Hps Hpk Hleg Hvault Hin Hid Hwrap Hpair.
  set (w := device (store t)) in *.
  destruct (generate_and_share_spec chatId chatData w emails Hdoc Hps)
    as (packages & w1 & Hgen & _).
  assert (keyPromise chatId (email sender) w = (Ok {| raw := next_key w |}, w1)) as Hrun
    by (rewrite (first_call_eq _ _ _ _ Hdoc Hpk Hleg Hvault); exact Hgen).
  pose proof (await_getChatKey_fresh chatId (email sender) (tab_runtime t) Hnone) as Hawait.
  cbn [tab_runtime world] in Hawait. fold w in Hawait. rewrite Hrun in Hawait.
  cbn [fst snd] in Hawait.
  destruct (sendChatMessage_round_trip chatId text sender t {| raw := next_key w |} _
              Haes Haesne Hwf Htrim Hawait)
    as (t' & m & Hsend & Hm & _ & Htext & Hread & Hchats & _).
  cbn [world] in Hchats.
  exists t', m. split; [exact Hsend|]. split; [exact Hm|]. split; [exact Htext|].
  intros other docs i docId Hfresh Hsame Hpriv Hi.
  destruct (key_exchange chatId (email sender) chatData w emails recipient pub priv
              (world other) Hrsa Hrsane Hdoc Hps Hpk Hleg Hvault Hin Hid Hwrap)
    as (_ & other' & Hkey & _); [now rewrite Hrun, Hsame, Hchats|exact Hpriv|exact Hpair|].
  destruct (deliver_lookup {| raw := next_key w |} docs i _ Hi) as (ms & Hms & _ & Hmi).
  exists ms. eexists. eexists. unfold on_snapshot.
  rewrite (await_getChatKey_fresh _ _ _ Hfresh), Hkey. cbn [mbind option_bind fst snd].
  rewrite Hms. split; [reflexivity|]. split; [exact Hmi|]. apply Hread.
Qed.

End EndToEnd.

Lemma first_message_reaches_recipient_witness :
  let w := Toy.world_of Toy.plain_doc None in
  exists t' m,
    sendChatMessage (P := Toy.platform) Toy.conversation (lit " hi ")
      SendExamples.alice_user (SendExamples.tab_of w) = Some (Ok tt, t') /\
    messages (store t') !! Toy.conversation = Some [m] /\
    let other :=
      start {| chats := chats (device (store t')); users := users w; vault := ∅;
               userPrivateKey := Some (Base64.encode [Byte.x01]);
               entropy := Toy.counting; drawn := 0; clock := 9 |} in
    exists ms delivered other',
      on_snapshot (P := Toy.platform) Toy.conversation (Some Toy.alice)
        [{| docId := lit "m1"; data := m |}] other = Some (onMessages ms, other') /\
      ms !! 0%nat = Some delivered /\
      delivered !! "text"%string = Some (VStr (lit "hi")).
Proof.
  intros w.
  destruct (first_message_reaches_recipient (P := Toy.platform) Toy.conversation (lit " hi ")
              SendExamples.alice_user (SendExamples.tab_of w) Toy.plain_doc
              [Toy.alice; Toy.bob] Toy.alice Byte.x01 Byte.x01
              ToyFacts.aes_gcm_correct toy_aes_gcm_nonempty
              ToyFacts.rsa_oaep_correct toy_rsa_oaep_nonempty
              eq_refl ltac:(discriminate) eq_refl eq_refl eq_refl eq_refl eq_refl eq_refl)
    as (t' & m & Hsend & Hm & _ & Hread).
  - apply list_elem_of_here.
  - reflexivity.
  - split; [reflexivity|]. cbn. vm_compute. lia.
  - reflexivity.
  - exists t', m. split; [exact Hsend|]. split; [exact Hm|]. intros other.
    destruct (Hread other [{| docId := lit "m1"; data := m |}] 0%nat (lit "m1")
                eq_refl eq_refl eq_refl eq_refl)
      as (ms & delivered & other' & Hms & Hd & Htext & _).
    exists ms, delivered, other'. repeat split; assumption.
Defined.

(** ** The key pair of a user *)

Section KeyPairFacts.
Context {P : Platform} {G : KeyGeneration P}.

Lemma importPublicKey_exported (pub : rsa_public_key) :
  import_spki (export_spki pub) = Some pub ->
  importPublicKey (Base64.encode (export_spki pub)) = Ok pub.
Proof. intros H. unfold importPublicKey. rewrite bytes_of_base64. cbn. now rewrite H. Qed.

Lemma importPrivateKey_exported (priv : rsa_private_key) :
  import_pkcs8 (export_pkcs8 priv) = Some priv ->
  importPrivateKey (Base64.encode (export_pkcs8 priv)) = Ok priv.
Proof. intros H. unfold importPrivateKey. rewrite bytes_of_base64. cbn. now rewrite H. Qed.

(** X27: a first sign-in establishes the key pair of the user. On a
    device whose local storage does not hold both keys,
    [initializeUserKeyPair] generates a pair, keeps both keys locally and
    publishes the public one under the lower-cased address, replacing a
    key published there before. Afterwards [getMyPrivateKey] and
    [getUserPublicKey] yield the two keys of that pair, the conversations
    and the vault are untouched, and a further call returns the same pair
    and changes nothing. *)
Theorem first_sign_in_establishes_key_pair (userEmail : string) (d : Device) :
  KeyGenerationSound G ->
  truthy (userPrivateKey (dev_world d)) && truthy (userPublicKey d) = false ->
  exists pub priv d',
    initializeUserKeyPair userEmail d = (Ok (pub, priv), d') /\
    rsa_keypair pub priv /\
    getMyPrivateKey (dev_world d') = (Ok priv, dev_world d') /\
    getUserPublicKey userEmail (dev_world d') = (Ok pub, dev_world d') /\
    chats (dev_world d') = chats (dev_world d) /\
    vault (dev_world d') = vault (dev_world d) /\
    (forall other, toLowerCase other <> toLowerCase userEmail ->
                   users (dev_world d') !! toLowerCase other
                   = users (dev_world d) !! toLowerCase other) /\
    initializeUserKeyPair userEmail d' = (Ok (pub, priv), d').
Proof.
  intros (Hpair & Hpub & Hpriv) Hfresh.
  unfold initializeUserKeyPair at 1. rewrite Hfresh. cbn [getRandomValues].
  set (seed := map (entropy (dev_world d)) (seq (drawn (dev_world d)) keygen_seed_length)).
  destruct (rsa_generateKey seed) as [pub priv] eqn:Hgen. cbn [fst snd].
  rewrite !btoa_fromCharCode.
  specialize (Hpair seed). rewrite Hgen in Hpair. cbn in Hpair.
  destruct (Hpub pub) as [Hpne Hpimp]. destruct (Hpriv priv) as [Hvne Hvimp].
  assert (truthy (Some (Base64.encode (export_spki pub))) = true) as Htp
    by now apply encode_nonempty.
  assert (truthy (Some (Base64.encode (export_pkcs8 priv))) = true) as Htv
    by now apply encode_nonempty.
  eexists pub, priv, _. split; [reflexivity|]. split; [exact Hpair|].
  unfold storeKeyPairLocally, publish.
  cbn [dev_world chats vault users userPrivateKey userPublicKey].
  split; [|split; [|split; [reflexivity|split; [reflexivity|split]]]].
  - unfold getMyPrivateKey. run_M. cbn [userPrivateKey]. rewrite Htv. cbn [negb].
    cbn [default from_option]. unfold id. now rewrite importPrivateKey_exported.
  - unfold getUserPublicKey. run_M. cbn [users]. rewrite lookup_insert_eq, Htp. cbn [negb].
    cbn [default from_option]. unfold id. now rewrite importPublicKey_exported.
  - intros other Hne. now rewrite lookup_insert_ne.
  - unfold initializeUserKeyPair.
    cbn [dev_world userPrivateKey userPublicKey users].
    rewrite Htp, Htv. cbn [andb default from_option]. unfold id.
    rewrite importPrivateKey_exported, importPublicKey_exported by assumption.
    rewrite lookup_insert_eq, Htp. reflexivity.
Qed.

End KeyPairFacts.

Lemma toy_keys_sound : KeyGenerationSound ToyKeys.keys.
Proof.
  split; [reflexivity|]. split; intros k; (split; [discriminate|reflexivity]).
Defined.

Lemma first_sign_in_establishes_key_pair_witness :
  let r := initializeUserKeyPair (P := Toy.platform) (G := ToyKeys.keys) "Alice@x.org"
             ToyKeys.new_device in
  r.1 = Ok (Byte.x00, Byte.x00) /\
  users (dev_world r.2) !! Toy.alice = Some (lit "AA==") /\
  initializeUserKeyPair (P := Toy.platform) (G := ToyKeys.keys) "Alice@x.org" r.2
  = (Ok (Byte.x00, Byte.x00), r.2).
Proof.
  intros r.
  destruct (first_sign_in_establishes_key_pair (P := Toy.platform) (G := ToyKeys.keys)
              "Alice@x.org" ToyKeys.new_device toy_keys_sound eq_refl)
    as (pub & priv & d' & Hrun & _ & _ & _ & _ & _ & _ & Hagain).
  fold r in Hrun. rewrite Hrun in *. cbn [fst snd].
  assert (Ok (pub, priv) = r.1) as Hkeys by now rewrite Hrun.
  vm_compute in Hkeys. injection Hkeys as -> ->.
  split; [reflexivity|]. split; [|exact Hagain].
  assert (d' = r.2) as -> by now rewrite Hrun.
  vm_compute. reflexivity.
Defined.
(** ** Read receipts, view-once media and unsending *)

Section MessageDocsFacts.
Import MessageDocs.
Context {P : Platform}.

Lemma message_doc_update (chatId : string) (messageId : jsstring)
    (f : MessageData -> MessageData) (fs : Firestore) (c : string) (i : jsstring) :
  message_doc c i (updateDoc_message chatId messageId f fs).2 =
  if bool_decide (c = chatId /\ i = messageId) then f <$> message_doc c i fs
  else message_doc c i fs.
Proof.
  unfold updateDoc_message.
  destruct (message_doc chatId messageId fs) as [d|] eqn:Hd; cbn [snd].
  - unfold message_doc in *. cbn [messages].
    destruct (decide (c = chatId)) as [->|Hc].
    + rewrite lookup_insert_eq. cbn.
      destruct (messages fs !! chatId) as [docs|] eqn:Hdocs; [|discriminate]. cbn in *.
      destruct (decide (i = messageId)) as [->|Hi].
      * rewrite bool_decide_eq_true_2 by auto. now rewrite lookup_insert_eq, Hd.
      * rewrite bool_decide_eq_false_2 by tauto. now rewrite lookup_insert_ne.
    + rewrite bool_decide_eq_false_2 by tauto. now rewrite lookup_insert_ne.
  - destruct (bool_decide _) eqn:Hb; [|reflexivity].
    apply bool_decide_eq_true in Hb as [-> ->]. now rewrite Hd.
Qed.

Lemma message_doc_delete (chatId : string) (messageId : jsstring) (fs : Firestore)
    (c : string) (i : jsstring) :
  message_doc c i (deleteDoc_message chatId messageId fs) =
  if bool_decide (c = chatId /\ i = messageId) then None else message_doc c i fs.
Proof.
  unfold deleteDoc_message, message_doc. cbn [messages].
  destruct (messages fs !! chatId) as [docs|] eqn:Hdocs.
  - destruct (decide (c = chatId)) as [->|Hc].
    + rewrite lookup_insert_eq, Hdocs. cbn.
      destruct (decide (i = messageId)) as [->|Hi].
      * rewrite bool_decide_eq_true_2 by auto. apply lookup_delete_eq.
      * rewrite bool_decide_eq_false_2 by tauto. now apply lookup_delete_ne.
    + rewrite bool_decide_eq_false_2 by tauto. now rewrite lookup_insert_ne.
  - destruct (bool_decide _) eqn:Hb; [|reflexivity].
    apply bool_decide_eq_true in Hb as [-> ->]. now rewrite Hdocs.
Qed.

Lemma arrayUnion_elem (x : string) (field : option (list string)) :
  x ∈ arrayUnion x field.
Proof.
  unfold arrayUnion. destruct field as [l|]; [|apply list_elem_of_here].
  destruct (bool_decide (x ∈ l)) eqn:Hx.
  - now apply bool_decide_eq_true in Hx.
  - apply elem_of_app. right. apply list_elem_of_here.
Qed.

Lemma arrayUnion_again (x : string) (field : option (list string)) :
  arrayUnion x (Some (arrayUnion x field)) = arrayUnion x field.
Proof.
  unfold arrayUnion at 1. rewrite bool_decide_eq_true_2; [reflexivity|apply arrayUnion_elem].
Qed.

Lemma arrayUnion_other (x y : string) (field : option (list string)) :
  y <> x -> (y ∈ arrayUnion x field <-> y ∈ default [] field).
Proof.
  intros Hne. unfold arrayUnion. destruct field as [l|]; cbn.
  - destruct (bool_decide (x ∈ l)); [reflexivity|].
    rewrite elem_of_app, list_elem_of_singleton. tauto.
  - rewrite list_elem_of_singleton. split; [tauto|]. intros H. inversion H.
Qed.

Lemma read_by_again (user : string) (d : MessageData) :
  read_by user (read_by user d) = read_by user d.
Proof. unfold read_by, set_readBy. cbn -[arrayUnion]. now rewrite arrayUnion_again. Qed.

Lemma markMessageAsRead_doc (chatId : string) (messageId : jsstring) (userEmail : string)
    (fs : Firestore) (c : string) (i : jsstring) :
  message_doc c i (markMessageAsRead chatId messageId userEmail fs) =
  if bool_decide (c = chatId /\ i = messageId) then read_by userEmail <$> message_doc c i fs
  else message_doc c i fs.
Proof. apply message_doc_update. Qed.

Lemma markMessageAsRead_rest (chatId : string) (messageId : jsstring) (userEmail : string)
    (fs : Firestore) :
  lastMessages (markMessageAsRead chatId messageId userEmail fs) = lastMessages fs /\
  files (markMessageAsRead chatId messageId userEmail fs) = files fs.
Proof.
  unfold markMessageAsRead, updateDoc_message.
  now destruct (message_doc chatId messageId fs).
Qed.

Lemma mark_all_doc (chatId : string) (userEmail : string) (unread : list Message)
    (fs : Firestore) (c : string) (i : jsstring) :
  message_doc c i
    (foldl (fun fs message => markMessageAsRead chatId (id message) userEmail fs) fs unread) =
  if bool_decide (c = chatId) && existsb (fun m => bool_decide (id m = i)) unread
  then read_by userEmail <$> message_doc c i fs
  else message_doc c i fs.
Proof.
  revert fs. induction unread as [|m rest IH]; intros fs; cbn [foldl existsb].
  - now rewrite andb_false_r.
  - rewrite IH, markMessageAsRead_doc.
    destruct (decide (c = chatId)) as [->|Hc].
    + rewrite !bool_decide_eq_true_2 by reflexivity. cbn [andb].
      destruct (decide (id m = i)) as [<-|Hi].
      * rewrite !bool_decide_eq_true_2 by auto. cbn [orb].
        destruct (existsb _ rest); [|reflexivity].
        destruct (message_doc chatId (id m) fs); cbn; [|reflexivity].
        now rewrite read_by_again.
      * rewrite (bool_decide_eq_false_2 (id m = i)) by exact Hi.
        rewrite (bool_decide_eq_false_2 (chatId = chatId /\ i = id m)) by (intros [_ ->]; auto).
        reflexivity.
    + rewrite !(bool_decide_eq_false_2 (c = chatId)) by exact Hc. cbn [andb].
      now rewrite bool_decide_eq_false_2 by tauto.
Qed.

Lemma existsb_filter {A} (f g : A -> bool) (l : list A) :
  existsb g (List.filter f l) = existsb (fun a => f a && g a) l.
Proof.
  induction l as [|a l IH]; cbn; [reflexivity|].
  destruct (f a); cbn; now rewrite IH.
Qed.

Lemma isMessageRead_marked (messageId : jsstring) (userEmail sender : string)
    (d : MessageData) :
  toLowerCase (toLowerCase userEmail) <> toLowerCase sender ->
  isMessageRead {| id := messageId; fields := read_by userEmail d |} sender = true.
Proof.
  intros Hne. unfold isMessageRead, read_by, set_readBy. cbn -[arrayUnion].
  pose proof (arrayUnion_elem (toLowerCase userEmail) (readBy d)) as Hin.
  destruct (arrayUnion _ _) as [|e l] eqn:Hl; [inversion Hin|].
  apply existsb_exists. exists (toLowerCase userEmail).
  split; [now apply list_elem_of_In|]. now apply bool_decide_eq_true.
Qed.

(** X28: read receipts. [markMessagesAsRead] adds the lower-cased
    address of the user to [readBy] of the stored document of every
    message of the list that, by the list, was not sent and not yet read
    by the user, and changes nothing else: the other documents, the other
    fields, the receipts of other users, the previews and the files are as
    before, and no document is created. A message marked in this way
    counts as read for every sender with another address. *)
Theorem messages_are_marked_read (chatId : string) (msgs : list Message) (userEmail : string)
    (fs : Firestore) :
  let fs' := markMessagesAsRead chatId msgs userEmail fs in
  lastMessages fs' = lastMessages fs /\
  files fs' = files fs /\
  (forall c i,
     message_doc c i fs' =
     if bool_decide (c = chatId)
        && existsb (fun m => unread_by userEmail m && bool_decide (id m = i)) msgs
     then read_by userEmail <$> message_doc c i fs
     else message_doc c i fs) /\
  (forall msg d,
     msg ∈ msgs -> unread_by userEmail msg = true ->
     message_doc chatId (id msg) fs = Some d ->
     message_doc chatId (id msg) fs' = Some (read_by userEmail d) /\
     toLowerCase userEmail ∈ default [] (readBy (read_by userEmail d)) /\
     forall sender,
       toLowerCase (toLowerCase userEmail) <> toLowerCase sender ->
       isMessageRead {| id := id msg; fields := read_by userEmail d |} sender = true) /\
  (forall d,
     type (read_by userEmail d) = type d /\ text (read_by userEmail d) = text d /\
     email (read_by userEmail d) = email d /\ viewedBy (read_by userEmail d) = viewedBy d /\
     createdAt (read_by userEmail d) = createdAt d /\
     forall u, u <> toLowerCase userEmail ->
               (u ∈ default [] (readBy (read_by userEmail d)) <-> u ∈ default [] (readBy d))).
Proof.
  cbn zeta. unfold markMessagesAsRead.
  assert (forall c i,
            message_doc c i
              (foldl (fun fs message => markMessageAsRead chatId (id message) userEmail fs) fs
                 (List.filter (unread_by userEmail) msgs)) =
            if bool_decide (c = chatId)
               && existsb (fun m => unread_by userEmail m && bool_decide (id m = i)) msgs
            then read_by userEmail <$> message_doc c i fs
            else message_doc c i fs) as Hdoc
    by (intros c i; now rewrite mark_all_doc, existsb_filter).
  assert (forall (l : list Message) fs0,
            lastMessages
              (foldl (fun fs message => markMessageAsRead chatId (id message) userEmail fs)
                 fs0 l) = lastMessages fs0 /\
            files
              (foldl (fun fs message => markMessageAsRead chatId (id message) userEmail fs)
                 fs0 l) = files fs0) as Hrest.
  { induction l as [|m l IH]; intros fs0; cbn [foldl]; [auto|].
    destruct (IH (markMessageAsRead chatId (id m) userEmail fs0)) as [-> ->].
    apply markMessageAsRead_rest. }
  split; [apply Hrest|]. split; [apply Hrest|]. split; [exact Hdoc|]. split.
  - intros msg d Hin Hunread Hd. split; [|split].
    + rewrite Hdoc, bool_decide_eq_true_2 by reflexivity. cbn [andb].
      assert (existsb (fun m => unread_by userEmail m && bool_decide (id m = id msg)) msgs
              = true) as ->.
      { apply existsb_exists. exists msg. split; [now apply list_elem_of_In|].
        rewrite Hunread. now apply bool_decide_eq_true. }
      now rewrite Hd.
    + apply arrayUnion_elem.
    + intros sender. apply isMessageRead_marked.
  - intros d. repeat split; try reflexivity; now apply arrayUnion_other.
Qed.

(** X29: view-once media. [markAsViewed] fails, and changes nothing,
    when the message does not exist; otherwise it records the
    lower-cased address of the user in [viewedBy] of that document only.
    Afterwards [hasUserViewed] is true for that user exactly if the
    message is a view-once message, and what it answers for a user with
    another address is as before. [deleteViewOnceMessage] removes the
    document, and the file when a path is given, whether or not the file
    existed, and leaves every other document and file alone. *)
Theorem view_once_is_recorded_and_deleted (chatId : string) (messageId : jsstring)
    (userEmail : string) (fs : Firestore) :
  (message_doc chatId messageId fs = None ->
   markAsViewed chatId messageId userEmail fs = (Err DocumentNotFound, fs)) /\
  (forall d,
     message_doc chatId messageId fs = Some d ->
     (markAsViewed chatId messageId userEmail fs).1 = Ok tt /\
     (forall c i,
        message_doc c i (markAsViewed chatId messageId userEmail fs).2 =
        if bool_decide (c = chatId /\ i = messageId) then Some (viewed_by userEmail d)
        else message_doc c i fs) /\
     hasUserViewed {| id := messageId; fields := viewed_by userEmail d |} userEmail
     = viewOnce d /\
     forall other,
       toLowerCase other <> toLowerCase userEmail ->
       hasUserViewed {| id := messageId; fields := viewed_by userEmail d |} other
       = hasUserViewed {| id := messageId; fields := d |} other) /\
  (forall path,
     let fs' := deleteViewOnceMessage chatId messageId path fs in
     (forall c i,
        message_doc c i fs' =
        if bool_decide (c = chatId /\ i = messageId) then None else message_doc c i fs) /\
     files fs' = (if truthy path then files fs ∖ {[ default [] path ]} else files fs) /\
     lastMessages fs' = lastMessages fs).
Proof.
  split; [|split].
  - intros Hd. unfold markAsViewed, updateDoc_message. now rewrite Hd.
  - intros d Hd. split; [|split; [|split]].
    + unfold markAsViewed, updateDoc_message. now rewrite Hd.
    + intros c i. unfold markAsViewed. rewrite message_doc_update.
      destruct (bool_decide _) eqn:Hb; [|reflexivity].
      apply bool_decide_eq_true in Hb as [-> ->]. now rewrite Hd.
    + unfold hasUserViewed, viewed_by, set_viewedBy. cbn -[arrayUnion].
      destruct (viewOnce d); [|reflexivity]. cbn [negb].
      apply bool_decide_eq_true, arrayUnion_elem.
    + intros other Hne. unfold hasUserViewed, viewed_by, set_viewedBy. cbn -[arrayUnion].
      destruct (viewOnce d); [|reflexivity]. cbn [negb].
      apply bool_decide_ext. now apply arrayUnion_other.
  - intros path fs'. unfold fs', deleteViewOnceMessage. split; [|split].
    + intros c i. rewrite message_doc_delete.
      destruct (bool_decide _); [reflexivity|]. now destruct (truthy path).
    + now destruct (truthy path).
    + now destruct (truthy path).
Qed.

Lemma newer_irrefl (a : jsstring * MessageData) : newer a a = false.
Proof.
  unfold newer. destruct (createdAt a.2) as [t|]; [|reflexivity].
  rewrite N.ltb_irrefl, N.eqb_refl. cbn.
  destruct (DmChat.ltb_units a.1 a.1) eqn:H; [|reflexivity].
  now rewrite (ltb_units_asym (fun s => s) _ _ H) in H.
Qed.

Lemma latest_list (l : list (jsstring * MessageData)) (top : jsstring * MessageData) (t : N) :
  createdAt top.2 = Some t ->
  (forall e t', e ∈ l -> createdAt e.2 = Some t' -> e = top \/ t' < t) ->
  match foldr (fun a best =>
                 match createdAt a.2, best with
                 | None, _ => best
                 | Some _, None => Some a
                 | Some _, Some b => if newer a b then Some a else Some b
                 end) None l with
  | None => ~ (top ∈ l)
  | Some b => is_Some (createdAt b.2) /\ b ∈ l /\ (top ∈ l -> b = top)
  end.
Proof.
  intros Htop. induction l as [|a rest IH]; intros Hold; cbn [foldr].
  - intros H. inversion H.
  - specialize (IH (fun e t' He => Hold e t' (list_elem_of_further _ _ _ He))).
    destruct (createdAt a.2) as [ta|] eqn:Hta.
    + destruct (foldr _ None rest) as [b|].
      * destruct IH as ([tb Htb] & Hb & Hbt).
        destruct (newer a b) eqn:Hnew.
        -- split; [eauto|]. split; [left|]. intros Hin.
           destruct (Hold a ta (list_elem_of_here _ _) Hta) as [Ha|Hlt]; [exact Ha|].
           apply elem_of_cons in Hin as [Hin|Hin]; [congruence|].
           specialize (Hbt Hin). subst b. exfalso.
           unfold newer in Hnew. rewrite Hta, Htop in Hnew.
           apply orb_true_iff in Hnew as [H|H].
           ++ apply N.ltb_lt in H. lia.
           ++ apply andb_true_iff in H as [H _]. apply N.eqb_eq in H. lia.
        -- split; [eauto|]. split; [now right|]. intros Hin.
           apply elem_of_cons in Hin as [Hin|Hin]; [|auto].
           subst a.
           destruct (Hold b tb (list_elem_of_further _ _ _ Hb) Htb) as [Hb'|Hlt];
             [exact Hb'|]. exfalso.
           unfold newer in Hnew. rewrite Htop, Htb in Hnew.
           apply orb_false_iff in Hnew as [H _]. apply N.ltb_ge in H. lia.
      * split; [eauto|]. split; [left|].
        intros Hin. apply elem_of_cons in Hin as [Hin|Hin]; [auto|contradiction].
    + destruct (foldr _ None rest) as [b|].
      * destruct IH as (Hdated & Hb & Hbt). split; [exact Hdated|]. split; [now right|].
        intros Hin. apply elem_of_cons in Hin as [Hin|Hin]; [|auto].
        subst a. congruence.
      * intros Hin. apply elem_of_cons in Hin as [Hin|Hin]; [|contradiction].
        subst a. congruence.
Qed.

Lemma latest_top (docs : gmap jsstring MessageData) (i : jsstring) (d : MessageData) (t : N) :
  docs !! i = Some d -> createdAt d = Some t ->
  (forall j d' t', docs !! j = Some d' -> j <> i -> createdAt d' = Some t' -> t' < t) ->
  latest docs = Some (i, d).
Proof.
  intros Hd Ht Hold. unfold latest.
  assert ((i, d) ∈ map_to_list docs) as Hin by now apply elem_of_map_to_list.
  assert (forall e t', e ∈ map_to_list docs -> createdAt e.2 = Some t' -> e = (i, d) \/ t' < t)
    as Hold'.
  { intros [j d'] t' He Ht'. apply elem_of_map_to_list in He.
    destruct (decide (j = i)) as [->|Hne]; [left; congruence|right; eauto]. }
  pose proof (latest_list (map_to_list docs) (i, d) t Ht Hold') as H.
  destruct (foldr _ None (map_to_list docs)) as [b|].
  - destruct H as (_ & _ & Hb). now rewrite (Hb Hin).
  - contradiction.
Qed.

Lemma latest_undated (docs : gmap jsstring MessageData) :
  (forall j d, docs !! j = Some d -> createdAt d = None) -> latest docs = None.
Proof.
  intros Hnone. unfold latest.
  assert (forall e, e ∈ map_to_list docs -> createdAt e.2 = None) as H
    by (intros [j d] He; apply elem_of_map_to_list in He; eauto).
  induction (map_to_list docs) as [|a l IH]; [reflexivity|]. cbn [foldr].
  rewrite (H a) by left. apply IH. intros e He. apply H. now right.
Qed.

Lemma message_doc_default (chatId : string) (i : jsstring) (fs : Firestore) :
  default ∅ (messages fs !! chatId) !! i = message_doc chatId i fs.
Proof. unfold message_doc. now destruct (messages fs !! chatId). Qed.

(** X30: unsending. [unsendMessage] removes the document of the message,
    and its file when the message has a path, and nothing else. The
    preview of a conversation whose document exists is then taken from
    the message that is now the latest: its text is empty when no dated
    message is left, and otherwise what [updateChatLastMessage] shows for
    that message, with its sender; for a message stored with an empty
    [text] field and no type, as [sendChatMessage] stores them, that is
    the empty text. *)
Theorem unsend_updates_preview (chatId : string) (message : Message) (fs : Firestore) :
  let fs' := unsendMessage chatId message fs in
  (forall c i,
     message_doc c i fs' =
     if bool_decide (c = chatId /\ i = id message) then None else message_doc c i fs) /\
  files fs' = (if truthy (filePath (fields message))
               then files fs ∖ {[ default [] (filePath (fields message)) ]}
               else files fs) /\
  (forall c, c <> chatId -> lastMessages fs' !! c = lastMessages fs !! c) /\
  (lastMessages fs !! chatId = None -> lastMessages fs' !! chatId = None) /\
  (is_Some (lastMessages fs !! chatId) ->
   ((forall i d, message_doc chatId i fs' = Some d -> createdAt d = None) ->
    lastMessages fs' !! chatId = Some ([], [])) /\
   (forall i d t,
      message_doc chatId i fs' = Some d -> createdAt d = Some t ->
      (forall j d' t', message_doc chatId j fs' = Some d' -> j <> i ->
                       createdAt d' = Some t' -> t' < t) ->
      lastMessages fs' !! chatId
      = Some (lastMessageText d,
              match email d with
              | Some (String a e) => lit (String a e)
              | _ => []
              end) /\
      (type d = None -> truthy (text d) = false -> lastMessageText d = []))).
Proof.
  cbn zeta. unfold unsendMessage.
  set (fs1 := if truthy (filePath (fields message)) then _ else fs).
  set (fs2 := deleteDoc_message chatId (id message) fs1).
  assert (forall c i, message_doc c i fs2 =
                      if bool_decide (c = chatId /\ i = id message) then None
                      else message_doc c i fs) as Hdoc2.
  { intros c i. unfold fs2. rewrite message_doc_delete.
    destruct (bool_decide _); [reflexivity|]. unfold fs1. now destruct (truthy _). }
  assert (lastMessages fs2 = lastMessages fs) as Hlast2
    by (unfold fs2, fs1; now destruct (truthy _)).
  assert (files fs2 = if truthy (filePath (fields message))
                      then files fs ∖ {[ default [] (filePath (fields message)) ]}
                      else files fs) as Hfiles2
    by (unfold fs2, fs1; now destruct (truthy _)).
  assert (messages (updateChatLastMessage chatId fs2) = messages fs2 /\
          files (updateChatLastMessage chatId fs2) = files fs2) as [Hm Hf]
    by (unfold updateChatLastMessage; now destruct (lastMessages fs2 !! chatId)).
  assert (forall c i, message_doc c i (updateChatLastMessage chatId fs2) = message_doc c i fs2)
    as Hdoc by (intros c i; unfold message_doc; now rewrite Hm).
  split; [intros c i; now rewrite Hdoc, Hdoc2|].
  split; [now rewrite Hf|].
  split; [|split; [|intros [prev Hprev]; split]].
  - intros c Hc. unfold updateChatLastMessage.
    destruct (lastMessages fs2 !! chatId); [|now rewrite Hlast2].
    cbn [lastMessages]. now rewrite lookup_insert_ne, Hlast2.
  - intros Hnone. unfold updateChatLastMessage. now rewrite Hlast2, Hnone, Hlast2.
  - intros Hnone. unfold updateChatLastMessage. rewrite Hlast2, Hprev. cbn [lastMessages].
    rewrite lookup_insert_eq, latest_undated; [reflexivity|].
    intros j d Hj. rewrite message_doc_default in Hj. apply (Hnone j). now rewrite Hdoc.
  - intros i d t Hd Ht Hold. split.
    + unfold updateChatLastMessage. rewrite Hlast2, Hprev. cbn [lastMessages].
      rewrite lookup_insert_eq, (latest_top _ i d t); [reflexivity| |exact Ht|].
      * rewrite message_doc_default, <- Hdoc. exact Hd.
      * intros j d' t' Hj. rewrite message_doc_default, <- Hdoc in Hj. now apply Hold.
    + intros Htype Htext. unfold lastMessageText. rewrite Htype, Htext.
      now rewrite !bool_decide_eq_false_2 by discriminate.
Qed.

End MessageDocsFacts.
